(** * spotify_to_tidal: playlist migration (src/spotify_to_tidal/main.py)

    A shallow embedding of the track resolver, the batch writer and the
    migration loop of [main.py], and the properties of the specification
    proved (or refuted) on it.

    The remote TIDAL API is a parameter: an arbitrary state type [World]
    and an arbitrary transition [remote] that answers each request (the
    transport itself does not fail).  A run of a Python function is a
    function from the world before the call to its result (a value or a
    raised exception), the events it performed in chronological order
    (HTTP exchanges, sleeps, the report file) and the world after.  What
    the program prints is left out. *)

From Stdlib Require Import ZArith NArith List Lia Bool String Ascii.
From Equations Require Import Equations.
Import ListNotations.

Local Open Scope Z_scope.

(** ** Python values *)

(** A Python [str] is a sequence of Unicode code points. *)
Definition pystr := list N.

Definition code (c : ascii) : N := N_of_ascii c.

(** A literal of the source text. *)
Definition lit (s : string) : pystr := map code (list_ascii_of_string s).

(** [str.isspace] of one character: the code points CPython treats as
    white space. *)
Definition is_space (c : N) : bool :=
  ((9 <=? c) && (c <=? 13) || (28 <=? c) && (c <=? 32)
   || (c =? 133) || (c =? 160) || (c =? 5760)
   || (8192 <=? c) && (c <=? 8202)
   || (c =? 8232) || (c =? 8233) || (c =? 8239) || (c =? 8287)
   || (c =? 12288))%N.

Fixpoint lstrip (s : pystr) : pystr :=
  match s with
  | c :: s' => if is_space c then lstrip s' else s
  | [] => []
  end.

Definition rstrip (s : pystr) : pystr := rev (lstrip (rev s)).

(** [s.strip()] *)
Definition strip (s : pystr) : pystr := rstrip (lstrip s).

(** Truth value of a [str]: non empty. *)
Definition truthy_str (s : pystr) : bool :=
  match s with [] => false | _ :: _ => true end.

(** Truth value of an optional [str] ([None] is false). *)
Definition truthy_ostr (o : option pystr) : bool :=
  match o with Some s => truthy_str s | None => false end.

(** Truth value of an optional [int] ([None] and [0] are false). *)
Definition truthy_oint (o : option Z) : bool :=
  match o with Some n => negb (n =? 0) | None => false end.

(** [x or ""] on an optional [str]. *)
Definition or_empty (o : option pystr) : pystr :=
  match o with Some s => s | None => [] end.

(** [str(x)] inside an f-string: [None] is rendered as the text None. *)
Definition format_ostr (o : option pystr) : pystr :=
  match o with Some s => s | None => lit "None" end.

(** [range(start, stop, step)] for a positive step, as the iteration
    [i = start; while i < stop: yield i; i += step]; a step that is not
    positive yields nothing here. *)
Equations? range_up (start stop step : Z) : list Z
  by wf (Z.to_nat (stop - start)) lt :=
  range_up start stop step with Z_lt_dec 0 step, Z_lt_dec start stop => {
    | left _, left _ := start :: range_up (start + step) stop step;
    | _, _ := [] }.
Proof. lia. Qed.

(** [range(start, stop, step)]: a zero step raises [ValueError] ([None]);
    a negative step counts down while [i > stop]. *)
Definition py_range (start stop step : Z) : option (list Z) :=
  if step =? 0 then None
  else if 0 <? step then Some (range_up start stop step)
  else Some (map Z.opp (range_up (- start) (- stop) (- step))).

(** A slice index clamped to the list, as [l[i:j]] does. *)
Definition clamp_index (len k : Z) : Z :=
  if k <? 0 then Z.max (k + len) 0 else Z.min k len.

(** [l[i:j]] *)
Definition slice {A} (l : list A) (i j : Z) : list A :=
  let len := Z.of_nat (List.length l) in
  let lo := clamp_index len i in
  let hi := clamp_index len j in
  firstn (Z.to_nat (hi - lo)) (skipn (Z.to_nat lo) l).

(** ** Records of the program *)

(** A normalised source track, as [sp_playlist_tracks] builds it.  [name]
    and [album] are [None] when Spotify sends none; [duration_ms] is
    already [tr.get('duration_ms') or 0]. *)
Module Track.
Record t := mk {
  name : option pystr;
  album : option pystr;
  artists : pystr;
  duration_ms : Z;
  isrc : option pystr }.
End Track.

(** A row of [not_found_rows]. *)
Module Row.
Record t := mk {
  playlist : pystr;
  title : option pystr;
  artists : pystr;
  album : option pystr;
  isrc : pystr;
  duration_ms : Z }.
End Row.

(** A source playlist of [sp_pls] (its name is a [str]) with the tracks
    [sp_playlist_tracks] reads for it.  Reading from Spotify is taken as
    done: it is not an event of the run. *)
Record SourcePlaylist := {
  pl_name : pystr;
  pl_description : option pystr;
  pl_tracks : list Track.t }.

(** An item of [tracks.items] in a search answer, as the code reads it:
    [t.get('id')] and [t.get('duration', 0)] (whole seconds). *)
Record candidate := {
  c_id : option Z;
  c_duration : option Z }.

Record tracks_page := { j_items : option (list candidate) }.

(** The keys of a JSON answer that the program reads. *)
Record body := {
  j_tracks : option tracks_page;
  j_uuid : option pystr;
  j_id : option pystr }.

(** [{}] *)
Definition empty_body : body :=
  {| j_tracks := None; j_uuid := None; j_id := None |}.

(** A [requests.Response]: [content] is [None] when the answer has no
    payload. *)
Record response := {
  status_code : Z;
  header_ETag : option pystr;
  content : option body }.

(** The four requests the program sends.  The authorization header, the
    user agent, the time-out, the user id and [countryCode] are the same
    for every request of a session and are left out. *)
Inductive request :=
| SearchTracks (query : pystr) (limit : Z)
| GetItems (playlist_id : pystr)
| PostItems (playlist_id : pystr) (trackIds : list Z) (if_none_match : pystr)
| CreatePlaylist (title description : pystr) (public : bool).

(** What a run does to the outside, in order.  [Sleep] counts
    milliseconds; [Report] is the write of [not_found.csv]. *)
Inductive event :=
| Http (rq : request) (rs : response)
| Sleep (ms : Z)
| Report (rows : list Row.t).

Inductive message :=
| NoAccessToken
| ApiStatus (rq : request) (status : Z)
| ETagStatus (status : Z)
| ETagAbsent
| NoPlaylistId
| PostStatus (status : Z).

Inductive exn :=
| RuntimeError (m : message)
| ValueError
| AttributeError.

(** What a login leaves in the [tidalapi] session, as the program reads
    it: [session.user.id] and [session.access_token]. *)
Record Login := {
  user_id : Z;
  login_token : option pystr }.

(** A [tidalapi] session.  [login] is [None] for a session that never
    logged in: its [user] is [None] and it has no access token. *)
Record Session := { login : option Login }.

(** [getattr(session, "access_token", None)] *)
Definition access_token (session : Session) : option pystr :=
  match login session with
  | Some l => login_token l
  | None => None
  end.

(** ** Runs *)

Inductive outcome (A : Type) :=
| Return (a : A)
| Raise (e : exn).
Arguments Return {A} a.
Arguments Raise {A} e.

Definition M (World A : Type) : Type :=
  World -> outcome A * list event * World.

Definition ret {World A} (a : A) : M World A :=
  fun w => (Return a, [], w).

Definition raise {World A} (e : exn) : M World A :=
  fun w => (Raise e, [], w).

Definition bind {World A B} (m : M World A) (f : A -> M World B) : M World B :=
  fun w =>
    let '(r, t, w1) := m w in
    match r with
    | Raise e => (Raise e, t, w1)
    | Return a => let '(r2, t2, w2) := f a w1 in (r2, t ++ t2, w2)
    end.

Declare Scope run_scope.
Delimit Scope run_scope with run.
Notation "x <- m ;; k" := (bind m (fun x => k))
  (at level 100, m at next level, right associativity) : run_scope.
Notation "m ;;; k" := (bind m (fun _ => k))
  (at level 100, right associativity) : run_scope.
Local Open Scope run_scope.

(** [time.sleep] *)
Definition sleep {World} (ms : Z) : M World unit :=
  fun w => (Return tt, [Sleep ms], w).

(** [for x in l: f(x)] *)
Fixpoint for_each {World A} (l : list A) (f : A -> M World unit) : M World unit :=
  match l with
  | [] => ret tt
  | x :: l' => f x ;;; for_each l' f
  end.

(** [resp.json() if resp.content else {}] *)
Definition json (resp : response) : body :=
  match content resp with Some b => b | None => empty_body end.

(** ** The program *)

Section Program.

Context {World : Type}.

(** The TIDAL service: how it answers a request in a given state. *)
Variable remote : request -> World -> response * World.

(** The logged-in [tidalapi] session. *)
Variable session : Session.

(** [int(os.getenv("TIDAL_ADD_BATCH", "100"))] *)
Variable TIDAL_ADD_BATCH : Z.

(** [_tidal_headers]: only the check of the access token matters here. *)
Definition _tidal_headers : M World unit :=
  if truthy_ostr (access_token session) then ret tt
  else raise (RuntimeError NoAccessToken).

(** [requests.request(...)] *)
Definition requests_request (rq : request) : M World response :=
  fun w => let (rs, w') := remote rq w in (Return rs, [Http rq rs], w').

Definition tidal_http (rq : request) : M World body :=
  _tidal_headers ;;;
  resp <- requests_request rq ;;
  if 400 <=? status_code resp
  then raise (RuntimeError (ApiStatus rq (status_code resp)))
  else ret (json resp).

Definition tidal_http_raw (rq : request) : M World response :=
  _tidal_headers ;;;
  requests_request rq.

Definition tidal_get_playlist_etag (playlist_id : pystr) : M World pystr :=
  resp <- tidal_http_raw (GetItems playlist_id) ;;
  if 400 <=? status_code resp
  then raise (RuntimeError (ETagStatus (status_code resp)))
  else
    let etag := header_ETag resp in
    if negb (truthy_ostr etag) then raise (RuntimeError ETagAbsent)
    else ret (or_empty etag).

(** [session.user.id]: on a session that never logged in, [session.user]
    is [None] and the read of its [id] raises. *)
Definition session_user_id : M World Z :=
  match login session with
  | Some l => ret (user_id l)
  | None => raise AttributeError
  end.

(** The result stands for the object [p] with [p.id = playlist_id].  The
    path of the request, built from [session.user.id] on line 150 before
    anything is sent, is not part of [CreatePlaylist]. *)
Definition tidal_create_playlist (name description : pystr) : M World pystr :=
  session_user_id ;;;
  resp <- tidal_http (CreatePlaylist (firstn 255 name)
                                     (firstn 1000 description) true) ;;
  let playlist_id :=
    if truthy_ostr (j_uuid resp) then j_uuid resp else j_id resp in
  if negb (truthy_ostr playlist_id) then raise (RuntimeError NoPlaylistId)
  else ret (or_empty playlist_id).

(** [((resp or {}).get("tracks") or {}).get("items") or []] *)
Definition search_items (resp : body) : list candidate :=
  match j_tracks resp with
  | Some page => match j_items page with Some l => l | None => [] end
  | None => []
  end.

Definition tidal_search_track_by_isrc (isrc : option pystr)
  : M World (option candidate) :=
  if negb (truthy_ostr isrc) then ret None
  else
    resp <- tidal_http (SearchTracks (lit "isrc:" ++ or_empty isrc) 5) ;;
    let tracks := search_items resp in
    ret (match tracks with t :: _ => Some t | [] => None end).

(** [int(t.get("duration", 0))] *)
Definition duration_s (t : candidate) : Z :=
  match c_duration t with Some d => d | None => 0 end.

(** [abs(dur_ms - target) <= 2000] *)
Definition within_tolerance (target : Z) (t : candidate) : bool :=
  let dur_ms := duration_s t * 1000 in
  Z.abs (dur_ms - target) <=? 2000.

(** [for t in tracks: if ...: return t] *)
Fixpoint first_within (target : Z) (tracks : list candidate)
  : option candidate :=
  match tracks with
  | [] => None
  | t :: rest =>
      if within_tolerance target t then Some t else first_within target rest
  end.

Definition tidal_search_track_fuzzy
    (title : option pystr) (artists : pystr) (duration_ms : Z)
  : M World (option candidate) :=
  let q := strip (format_ostr title ++ lit " " ++ artists) in
  if negb (truthy_str q) then ret None
  else
    resp <- tidal_http (SearchTracks q 20) ;;
    let tracks := search_items resp in
    match tracks with
    | [] => ret None
    | t0 :: _ =>
        let target := duration_ms in
        match first_within target tracks with
        | Some t => ret (Some t)
        | None => ret (Some t0)
        end
    end.

(** One turn of the [for] loop of [tidal_add_tracks_in_batches]
    (lines 219 to 242) for the slice [chunk]. *)
Definition add_batch (playlist_id : pystr) (chunk : list Z) (sleep_s : Z)
  : M World unit :=
  etag <- tidal_get_playlist_etag playlist_id ;;
  resp <- tidal_http_raw (PostItems playlist_id chunk etag) ;;
  resp <- (if status_code resp =? 412 then
             sleep 500 ;;;
             etag <- tidal_get_playlist_etag playlist_id ;;
             tidal_http_raw (PostItems playlist_id chunk etag)
           else ret resp) ;;
  if 400 <=? status_code resp
  then raise (RuntimeError (PostStatus (status_code resp)))
  else sleep sleep_s.

(** The slices [track_ids[i:i+batch]] for [i] in
    [range(0, len(track_ids), batch)]. *)
Definition chunks_at (track_ids : list Z) (batch : Z) (starts : list Z)
  : list (list Z) :=
  map (fun i => slice track_ids i (i + batch)) starts.

Definition tidal_add_tracks_in_batches
    (playlist_id : pystr) (track_ids : list Z) (batch : Z) (sleep_s : Z)
  : M World unit :=
  match py_range 0 (Z.of_nat (List.length track_ids)) batch with
  | None => raise ValueError
  | Some starts =>
      for_each starts (fun i =>
        let chunk := slice track_ids i (i + batch) in
        add_batch playlist_id chunk sleep_s)
  end.

(** Lines 276 to 281: [tid] after the ISRC attempt.  The truth value of
    the dict [hit] is not modelled apart: a dict with no key has no id. *)
Definition isrc_attempt (t : Track.t) : M World (option Z) :=
  if truthy_ostr (Track.isrc t) then
    hit <- tidal_search_track_by_isrc (Track.isrc t) ;;
    ret (match hit with Some h => c_id h | None => None end)
  else ret None.

(** Lines 276 to 286: the ISRC attempt, then the fuzzy one. *)
Definition resolve_track (t : Track.t) : M World (option Z) :=
  tid <- isrc_attempt t ;;
  if negb (truthy_oint tid) then
    hit <- tidal_search_track_fuzzy (Track.name t) (Track.artists t)
                                     (Track.duration_ms t) ;;
    ret (match hit with Some h => c_id h | None => tid end)
  else ret tid.

(** The dict appended to [not_found_rows]. *)
Definition not_found_row (name : pystr) (t : Track.t) : Row.t :=
  {| Row.playlist := name;
     Row.title := Track.name t;
     Row.artists := Track.artists t;
     Row.album := Track.album t;
     Row.isrc := or_empty (Track.isrc t);
     Row.duration_ms := Track.duration_ms t |}.

(** Lines 275 to 298: the loop over the tracks of one playlist. *)
Fixpoint resolve_tracks (name : pystr) (tracks : list Track.t)
    (tidal_ids : list Z) (not_found_rows : list Row.t)
  : M World (list Z * list Row.t) :=
  match tracks with
  | [] => ret (tidal_ids, not_found_rows)
  | t :: rest =>
      tid <- resolve_track t ;;
      match tid with
      | Some n =>
          if negb (n =? 0)
          then resolve_tracks name rest (tidal_ids ++ [n]) not_found_rows
          else resolve_tracks name rest tidal_ids
                 (not_found_rows ++ [not_found_row name t])
      | None =>
          resolve_tracks name rest tidal_ids
            (not_found_rows ++ [not_found_row name t])
      end
  end.

(** Lines 261 to 303: one turn of the loop over the playlists.  The
    writer is called with its default pause of 0.3 s. *)
Definition migrate_playlist (pl : SourcePlaylist) (not_found_rows : list Row.t)
  : M World (list Row.t) :=
  let name := pl_name pl in
  let description :=
    or_empty (pl_description pl) ++ lit " (imported from Spotify)" in
  let tracks := pl_tracks pl in
  t_playlist <- tidal_create_playlist name description ;;
  resolved <- resolve_tracks name tracks [] not_found_rows ;;
  let '(tidal_ids, not_found_rows) := resolved in
  (match tidal_ids with
   | _ :: _ =>
       tidal_add_tracks_in_batches t_playlist tidal_ids TIDAL_ADD_BATCH 300
   | [] => ret tt
   end) ;;;
  ret not_found_rows.

Fixpoint migrate_loop (sp_pls : list SourcePlaylist) (not_found_rows : list Row.t)
  : M World (list Row.t) :=
  match sp_pls with
  | [] => ret not_found_rows
  | pl :: rest =>
      not_found_rows <- migrate_playlist pl not_found_rows ;;
      migrate_loop rest not_found_rows
  end.

(** [migrate_all_playlists] from the loop on: [sp_pls] is the list of
    source playlists after log-in, listing and the name filter.  The
    report is written when a row was collected. *)
Definition migrate_all_playlists (sp_pls : list SourcePlaylist) : M World unit :=
  not_found_rows <- migrate_loop sp_pls [] ;;
  match not_found_rows with
  | _ :: _ => fun w => (Return tt, [Report not_found_rows], w)
  | [] => ret tt
  end.

End Program.

(** ** The Spotify reader *)

(** The exceptions the reader can meet. *)
Inductive py_error :=
| TypeError
| KeyError.

(** The end of a reading loop run for a bounded number of pages: what it
    returns, the exception it raises, or [Unfinished] when the loop is
    still asking for pages after that many. *)
Inductive reading (A : Type) :=
| Read (a : A)
| Failed (e : py_error)
| Unfinished.
Arguments Read {A} a.
Arguments Failed {A} e.
Arguments Unfinished {A}.

(** A page of a Spotify listing, with the keys the loops read: [items],
    [tracks.items] ([None] when [tracks] is absent or holds no [items]) and
    [next]. *)
Record sp_page (A : Type) := {
  p_items : option (list A);
  p_tracks_items : option (list A);
  p_next : option pystr }.
Arguments p_items {A} s.
Arguments p_tracks_items {A} s.
Arguments p_next {A} s.

Record sp_artist := { a_name : option pystr }.

Record sp_album := { al_name : option pystr }.

Record sp_external_ids := { e_isrc : option pystr }.

(** The [track] object of a playlist item, with the keys
    [sp_playlist_tracks] reads ([None]: the key is absent or null). *)
Record sp_track := {
  tr_name : option pystr;
  tr_album : option sp_album;
  tr_artists : option (list sp_artist);
  tr_duration_ms : option Z;
  tr_external_ids : option sp_external_ids }.

(** An item of a playlist: [i_track] is [None] when [it.get('track')] is
    false (absent, null or empty). *)
Record sp_item := { i_track : option sp_track }.

(** A playlist of the user's listing, with the keys the program reads
    ([spl_name] is [None] when the key [name] is absent, where
    [pl.get('name','')] gives the empty string). *)
Record sp_playlist := {
  spl_id : pystr;
  spl_name : option pystr;
  spl_description : option pystr }.

(** [sep.join(l)] *)
Fixpoint join (sep : pystr) (l : list pystr) : pystr :=
  match l with
  | [] => []
  | [x] => x
  | x :: l' => x ++ sep ++ join sep l'
  end.

(** The values [a.get('name')] of the artists, when all are strings:
    [join] raises [TypeError] on [None]. *)
Fixpoint artist_names (l : list sp_artist) : option (list pystr) :=
  match l with
  | [] => Some []
  | a :: l' =>
      match a_name a, artist_names l' with
      | Some n, Some ns => Some (n :: ns)
      | _, _ => None
      end
  end.

(** Lines 113 to 127: the dict appended for one track. *)
Definition track_dict (tr : sp_track) : reading Track.t :=
  let name := tr_name tr in
  let album := match tr_album tr with Some al => al_name al | None => None end in
  match artist_names (match tr_artists tr with Some l => l | None => [] end) with
  | None => Failed TypeError
  | Some names =>
      let artists := join (lit ", ") names in
      let duration_ms :=
        match tr_duration_ms tr with Some d => d | None => 0 end in
      let isrc :=
        match tr_external_ids tr with Some ext => e_isrc ext | None => None end in
      Read {| Track.name := name; Track.album := album;
              Track.artists := artists; Track.duration_ms := duration_ms;
              Track.isrc := isrc |}
  end.

(** Lines 109 to 127: the loop over the items of one page. *)
Fixpoint read_items (items : list sp_item) (tracks : list Track.t)
  : reading (list Track.t) :=
  match items with
  | [] => Read tracks
  | it :: rest =>
      match i_track it with
      | None => read_items rest tracks
      | Some tr =>
          match track_dict tr with
          | Read d => read_items rest (tracks ++ [d])
          | Failed e => Failed e
          | Unfinished => Unfinished
          end
      end
  end.

(** Lines 89 to 91 of [sp_paginate]: the list a page contributes. *)
Definition page_data {A} (page : sp_page A) : reading (list A) :=
  match p_items page with
  | Some (x :: l) => Read (x :: l)
  | _ =>
      match p_tracks_items page with
      | Some data => Read data
      | None =>
          match p_items page with
          | Some l => Read l
          | None => Failed KeyError
          end
      end
  end.

Section Spotify.

(** [sp.playlist_items(playlist_id, offset=offset, limit=limit, ...)]:
    the page the listing serves at an offset. *)
Variable playlist_items : pystr -> Z -> Z -> sp_page sp_item.

(** The [while True] loop of [sp_playlist_tracks], for at most [fuel]
    pages. *)
Fixpoint sp_playlist_tracks_loop (playlist_id : pystr) (limit : Z)
    (fuel : nat) (offset : Z) (tracks : list Track.t)
  : reading (list Track.t) :=
  match fuel with
  | O => Unfinished
  | S fuel' =>
      let resp := playlist_items playlist_id offset limit in
      let items := match p_items resp with Some l => l | None => [] end in
      match read_items items tracks with
      | Read tracks =>
          if truthy_ostr (p_next resp)
          then sp_playlist_tracks_loop playlist_id limit fuel'
                 (offset + limit) tracks
          else Read tracks
      | Failed e => Failed e
      | Unfinished => Unfinished
      end
  end.

Definition sp_playlist_tracks (fuel : nat) (playlist_id : pystr)
  : reading (list Track.t) :=
  sp_playlist_tracks_loop playlist_id 100 fuel 0 [].

(** The [while True] loop of [sp_paginate], for at most [fuel] pages;
    [method limit offset] is the call [method(limit=limit, offset=offset)]. *)
Fixpoint sp_paginate_loop {A} (method : Z -> Z -> sp_page A) (limit : Z)
    (fuel : nat) (offset : Z) (items : list A) : reading (list A) :=
  match fuel with
  | O => Unfinished
  | S fuel' =>
      let page := method limit offset in
      match page_data page with
      | Read data =>
          let items := items ++ data in
          if truthy_ostr (p_next page)
          then sp_paginate_loop method limit fuel' (offset + limit) items
          else Read items
      | Failed e => Failed e
      | Unfinished => Unfinished
      end
  end.

Definition sp_paginate {A} (fuel : nat) (method : Z -> Z -> sp_page A)
    (limit : Z) : reading (list A) :=
  sp_paginate_loop method limit fuel 0 [].

Definition sp_current_user_playlists (fuel : nat)
    (current_user_playlists : Z -> Z -> sp_page sp_playlist)
  : reading (list sp_playlist) :=
  sp_paginate fuel current_user_playlists 50.

End Spotify.

(** The [track] objects of the items that have one, in their order. *)
Definition item_tracks (items : list sp_item) : list sp_track :=
  flat_map (fun it => match i_track it with Some tr => [tr] | None => [] end)
           items.

(** [resp.get('items', [])] *)
Definition page_items {A} (page : sp_page A) : list A :=
  match p_items page with Some l => l | None => [] end.

(** [tr.get('artists') or []] *)
Definition track_artists (tr : sp_track) : list sp_artist :=
  match tr_artists tr with Some l => l | None => [] end.

(** [s.startswith(p)] *)
Fixpoint starts_with (s p : pystr) : bool :=
  match p, s with
  | [], _ => true
  | c :: p', d :: s' => (c =? d)%N && starts_with s' p'
  | _ :: _, [] => false
  end.

(** [p in s] on strings. *)
Fixpoint contains (s p : pystr) : bool :=
  starts_with s p ||
  match s with
  | [] => false
  | _ :: s' => contains s' p
  end.

Section Filter.

(** [str.lower]: the case tables of Python are not part of the program. *)
Variable lower : pystr -> pystr.

(** Lines 254 and 255 of [migrate_all_playlists]. *)
Definition filter_playlists (playlist_filter : pystr)
    (sp_pls : list sp_playlist) : list sp_playlist :=
  if truthy_str playlist_filter
  then filter (fun pl => contains (lower (or_empty (spl_name pl)))
                                  playlist_filter) sp_pls
  else sp_pls.

End Filter.

(** Lower case for the letters A to Z, other characters kept. *)
Definition ascii_lower (s : pystr) : pystr :=
  map (fun c => if ((65 <=? c) && (c <=? 90))%N then (c + 32)%N else c) s.

(** ** Reading a trace *)

Fixpoint pystr_eqb (a b : pystr) : bool :=
  match a, b with
  | [], [] => true
  | x :: a', y :: b' => (x =? y)%N && pystr_eqb a' b'
  | _, _ => false
  end.

(** The id lists of the write calls, in order. *)
Fixpoint posted (tr : list event) : list (list Z) :=
  match tr with
  | Http (PostItems _ ids _) _ :: tr' => ids :: posted tr'
  | _ :: tr' => posted tr'
  | [] => []
  end.

(** The status codes the write calls received, in order. *)
Fixpoint post_statuses (tr : list event) : list Z :=
  match tr with
  | Http (PostItems _ _ _) rs :: tr' => status_code rs :: post_statuses tr'
  | _ :: tr' => post_statuses tr'
  | [] => []
  end.

(** The ids the service took into playlist [playlist_id]: those of the
    write calls it answered with a status under 400. *)
Fixpoint appended (playlist_id : pystr) (tr : list event) : list Z :=
  match tr with
  | Http (PostItems p ids _) rs :: tr' =>
      if pystr_eqb p playlist_id && (status_code rs <? 400)
      then ids ++ appended playlist_id tr'
      else appended playlist_id tr'
  | _ :: tr' => appended playlist_id tr'
  | [] => []
  end.

(** The reports written. *)
Fixpoint reports (tr : list event) : list (list Row.t) :=
  match tr with
  | Report rows :: tr' => rows :: reports tr'
  | _ :: tr' => reports tr'
  | [] => []
  end.

(** The playlists created (the titles sent). *)
Fixpoint created (tr : list event) : list pystr :=
  match tr with
  | Http (CreatePlaylist title _ _) _ :: tr' => title :: created tr'
  | _ :: tr' => created tr'
  | [] => []
  end.

(** Every write call of the trace comes right after a successful read
    of the ETag of the same playlist, and carries that ETag. *)
Definition writes_fresh (tr : list event) : Prop :=
  forall before p ids e rs after,
    tr = before ++ Http (PostItems p ids e) rs :: after ->
    exists before' g,
      before = before' ++ [Http (GetItems p) g] /\
      status_code g < 400 /\
      header_ETag g = Some e.

(** A read of the playlist that yields the ETag [e]. *)
Definition fetches (g : response) (e : pystr) : Prop :=
  status_code g < 400 /\ header_ETag g = Some e /\ e <> [].

(** [writes_fresh], event by event: [prev] is the event before [tr]. *)
Fixpoint fresh_after (prev : option event) (tr : list event) : Prop :=
  match tr with
  | [] => True
  | ev :: tr' =>
      match ev with
      | Http (PostItems p _ e) _ =>
          match prev with
          | Some (Http (GetItems p') g) =>
              p' = p /\ status_code g < 400 /\ header_ETag g = Some e
          | _ => False
          end
      | _ => True
      end /\ fresh_after (Some ev) tr'
  end.

(** The ways one turn of the writer's loop can go for the slice [chunk]:
    its result and its events. *)
Inductive batch_run (p : pystr) (chunk : list Z) (sleep_s : Z)
  : outcome unit -> list event -> Prop :=
| no_token :
    batch_run p chunk sleep_s (Raise (RuntimeError NoAccessToken)) []
| fetch_fails g x :
    batch_run p chunk sleep_s (Raise x) [Http (GetItems p) g]
| write_fails g e r :
    fetches g e -> status_code r <> 412 -> 400 <= status_code r ->
    batch_run p chunk sleep_s
      (Raise (RuntimeError (PostStatus (status_code r))))
      [Http (GetItems p) g; Http (PostItems p chunk e) r]
| write_ok g e r :
    fetches g e -> status_code r < 400 ->
    batch_run p chunk sleep_s (Return tt)
      [Http (GetItems p) g; Http (PostItems p chunk e) r; Sleep sleep_s]
| refetch_fails g e r g2 x :
    fetches g e -> status_code r = 412 ->
    batch_run p chunk sleep_s (Raise x)
      [Http (GetItems p) g; Http (PostItems p chunk e) r; Sleep 500;
       Http (GetItems p) g2]
| retry_fails g e r g2 e2 r2 :
    fetches g e -> status_code r = 412 ->
    fetches g2 e2 -> 400 <= status_code r2 ->
    batch_run p chunk sleep_s
      (Raise (RuntimeError (PostStatus (status_code r2))))
      [Http (GetItems p) g; Http (PostItems p chunk e) r; Sleep 500;
       Http (GetItems p) g2; Http (PostItems p chunk e2) r2]
| retry_ok g e r g2 e2 r2 :
    fetches g e -> status_code r = 412 ->
    fetches g2 e2 -> status_code r2 < 400 ->
    batch_run p chunk sleep_s (Return tt)
      [Http (GetItems p) g; Http (PostItems p chunk e) r; Sleep 500;
       Http (GetItems p) g2; Http (PostItems p chunk e2) r2; Sleep sleep_s].

(** The ways the writer's loop can go over the slices: it stops at the
    first turn that raises. *)
Inductive writer_run (p : pystr) (sleep_s : Z)
  : list (list Z) -> outcome unit -> list event -> Prop :=
| writer_done :
    writer_run p sleep_s [] (Return tt) []
| writer_stop chunk rest x t :
    batch_run p chunk sleep_s (Raise x) t ->
    writer_run p sleep_s (chunk :: rest) (Raise x) t
| writer_next chunk rest t r t2 :
    batch_run p chunk sleep_s (Return tt) t ->
    writer_run p sleep_s rest r t2 ->
    writer_run p sleep_s (chunk :: rest) r (t ++ t2).

(** ** The loops, told track by track and playlist by playlist *)

(** What the loop over the tracks keeps of the resolver's result: an id
    when it is true. *)
Definition kept (tid : option Z) : list Z :=
  match tid with
  | Some n => if n =? 0 then [] else [n]
  | None => []
  end.

(** The ids kept for a playlist, from the results of the resolver in
    the order of the tracks. *)
Definition ids_of (outs : list (option Z)) : list Z := flat_map kept outs.

(** The rows recorded for a playlist, in the order of the tracks. *)
Fixpoint rows_of (name : pystr) (tracks : list Track.t)
    (outs : list (option Z)) : list Row.t :=
  match tracks, outs with
  | t :: tracks', tid :: outs' =>
      (if truthy_oint tid then [] else [not_found_row name t])
        ++ rows_of name tracks' outs'
  | _, _ => []
  end.

(** Only search requests. *)
Definition searches_only (tr : list event) : Prop :=
  Forall (fun ev => exists q l rs, ev = Http (SearchTracks q l) rs) tr.

Section Outcomes.

Context {World : Type}.
Variable remote : request -> World -> response * World.
Variable session : Session.
Variable TIDAL_ADD_BATCH : Z.

(** The resolver run on the tracks one after the other: [outs] holds
    what it returned for each of them, in their order. *)
Inductive resolver_runs
  : World -> list Track.t -> list (option Z) -> list event -> World -> Prop :=
| resolved_none w :
    resolver_runs w [] [] [] w
| resolved_next w t tid tr w1 rest outs tr' w' :
    resolve_track remote session t w = (Return tid, tr, w1) ->
    resolver_runs w1 rest outs tr' w' ->
    resolver_runs w (t :: rest) (tid :: outs) (tr ++ tr') w'.

(** The service answers the request [rq] with a response that satisfies
    [P], in whatever state it is. *)
Definition always (rq : request) (P : response -> Prop) : Prop :=
  forall w, P (fst (remote rq w)).

(** The ISRC attempt finds nothing for the track: it has no ISRC, or
    the search for it answers with no item. *)
Definition isrc_misses (t : Track.t) : Prop :=
  truthy_ostr (Track.isrc t) = false \/
  exists i, Track.isrc t = Some i /\ i <> [] /\
    always (SearchTracks (lit "isrc:" ++ i) 5)
           (fun rs => status_code rs < 400 /\ search_items (json rs) = []).

(** The sentence "a track that has an ISRC, and whose ISRC search returns
    at least one result, resolves to the id of the first result and the
    fuzzy search is not invoked", as a property of the resolver: whatever
    the first result holds, its id is returned and the ISRC search is the
    only request. *)
Definition first_isrc_result_decides : Prop :=
  forall t i w rs w' h rest,
    Track.isrc t = Some i -> i <> [] ->
    remote (SearchTracks (lit "isrc:" ++ i) 5) w = (rs, w') ->
    status_code rs < 400 ->
    search_items (json rs) = h :: rest ->
    resolve_track remote session t w =
      (Return (c_id h), [Http (SearchTracks (lit "isrc:" ++ i) 5) rs], w').

(** The sentence "when a playlist fails mid-way the run continues with
    the next playlist", as a property of the loop: once the playlists
    [before] are migrated and the migration of [pl] raises, the run goes on
    and creates the playlist [next]. *)
Definition continues_after_failure : Prop :=
  forall before pl next after w rows tr1 w1 x tr2 w2,
    migrate_loop remote session TIDAL_ADD_BATCH before [] w
      = (Return rows, tr1, w1) ->
    migrate_playlist remote session TIDAL_ADD_BATCH pl rows w1
      = (Raise x, tr2, w2) ->
    exists r tr3 w3,
      migrate_all_playlists remote session TIDAL_ADD_BATCH
        (before ++ pl :: next :: after) w = (r, tr1 ++ tr2 ++ tr3, w3) /\
      In (firstn 255 (pl_name next)) (created tr3).

End Outcomes.

(** ** Invariants of runs *)

(** From any state, the run [m] performs only events that satisfy [P]
    and returns only values that satisfy [Q]. *)
Definition run_sat {World A} (m : M World A)
    (P : event -> Prop) (Q : A -> Prop) : Prop :=
  forall w,
    Forall P (snd (fst (m w))) /\
    (forall a, fst (fst (m w)) = Return a -> Q a).

(** What every request of a migration looks like, for the batch size
    [batch]. *)
Definition request_ok (batch : Z) (ev : event) : Prop :=
  match ev with
  | Http (CreatePlaylist title description public) _ =>
      (List.length title <= 255)%nat /\
      (List.length description <= 1000)%nat /\
      public = true
  | Http (SearchTracks q l) _ =>
      q <> [] /\
      ((l = 5 /\ exists i, i <> [] /\ q = lit "isrc:" ++ i) \/
       (l = 20 /\ strip q = q))
  | Http (GetItems p) _ => p <> []
  | Http (PostItems p ids e) _ =>
      p <> [] /\ e <> [] /\ ids <> [] /\ ~ In 0 ids /\
      Z.of_nat (List.length ids) <= batch
  | Sleep ms => ms = 300 \/ ms = 500
  | Report rows => rows <> []
  end.

(** An event that is neither a read of the ETag nor a write. *)
Definition no_item_request (ev : event) : Prop :=
  match ev with
  | Http (GetItems _) _ => False
  | Http (PostItems _ _ _) _ => False
  | _ => True
  end.

(** The number of HTTP requests of a trace. *)
Fixpoint http_count (tr : list event) : nat :=
  match tr with
  | Http _ _ :: tr' => S (http_count tr')
  | _ :: tr' => http_count tr'
  | [] => O
  end.

(** What follows each write call: the pause after a write that was
    taken, the wait before the retry or nothing after a 412, nothing after
    another refusal. *)
Fixpoint writes_followed (sleep_s : Z) (tr : list event) : Prop :=
  match tr with
  | [] => True
  | Http (PostItems _ _ _) rs :: rest =>
      ((status_code rs < 400 -> exists rest', rest = Sleep sleep_s :: rest') /\
       (status_code rs = 412 ->
        rest = [] \/ exists rest', rest = Sleep 500 :: rest') /\
       (400 <= status_code rs -> status_code rs <> 412 -> rest = [])) /\
      writes_followed sleep_s rest
  | _ :: rest => writes_followed sleep_s rest
  end.

(** ** Services to run the program against *)

(** A service that answers from a script, whatever the request, and
    with [last] once the script is used up. *)
Definition scripted (last : response) (rq : request) (w : list response)
  : response * list response :=
  match w with
  | rs :: w' => (rs, w')
  | [] => (last, [])
  end.

(** A service without state. *)
Definition stateless (answer : request -> response) (rq : request) (w : unit)
  : response * unit :=
  (answer rq, w).

Definition plain (status : Z) : response :=
  {| status_code := status; header_ETag := None; content := None |}.

Definition with_etag (e : string) : response :=
  {| status_code := 200; header_ETag := Some (lit e); content := None |}.

Definition found (l : list candidate) : response :=
  {| status_code := 200; header_ETag := None;
     content := Some {| j_tracks := Some {| j_items := Some l |};
                        j_uuid := None; j_id := None |} |}.

Definition new_playlist (uuid : string) : response :=
  {| status_code := 201; header_ETag := None;
     content := Some {| j_tracks := None; j_uuid := Some (lit uuid);
                        j_id := None |} |}.

Definition logged_in : Session :=
  {| login := Some {| user_id := 7; login_token := Some (lit "token") |} |}.

(** A session that never logged in. *)
Definition logged_out : Session := {| login := None |}.

(** A session whose login left an empty access token. *)
Definition empty_token : Session :=
  {| login := Some {| user_id := 7; login_token := Some [] |} |}.

(** ** Sample data *)

Definition cand (id seconds : Z) : candidate :=
  {| c_id := Some id; c_duration := Some seconds |}.

Definition track_a : Track.t :=
  {| Track.name := Some (lit "Song A");
     Track.album := Some (lit "Album A");
     Track.artists := lit "Artist";
     Track.duration_ms := 200000;
     Track.isrc := Some (lit "USAAA0000001") |}.

Definition track_b : Track.t :=
  {| Track.name := Some (lit "Song B");
     Track.album := Some (lit "Album B");
     Track.artists := lit "Artist";
     Track.duration_ms := 180500;
     Track.isrc := None |}.

Definition track_c : Track.t :=
  {| Track.name := Some (lit "Song C");
     Track.album := None;
     Track.artists := lit "Nobody";
     Track.duration_ms := 1000;
     Track.isrc := None |}.

Definition blank_track : Track.t :=
  {| Track.name := Some (lit " ");
     Track.album := None;
     Track.artists := [];
     Track.duration_ms := 0;
     Track.isrc := None |}.

Definition road_trip : SourcePlaylist :=
  {| pl_name := lit "Road trip";
     pl_description := None;
     pl_tracks := [track_b; track_c] |}.

Definition chill : SourcePlaylist :=
  {| pl_name := lit "Chill";
     pl_description := Some (lit "slow");
     pl_tracks := [track_a] |}.

Definition mixed : SourcePlaylist :=
  {| pl_name := lit "Mixed";
     pl_description := None;
     pl_tracks := [track_a; track_b; track_c] |}.

(** The service creates the playlist, finds a candidate for each of the
    two tracks, takes the first batch and answers 500 to the second. *)
Definition second_batch_fails : list response :=
  [new_playlist "pl-1"; found [cand 11 180]; found [cand 22 200];
   with_etag "e1"; plain 200; with_etag "e2"; plain 500].

(** A catalogue that knows track A by its ISRC and track B by its text,
    creates playlists and takes every write. *)
Definition catalogue (rq : request) : response :=
  match rq with
  | SearchTracks q l =>
      if (l =? 5) && pystr_eqb q (lit "isrc:USAAA0000001")
      then found [cand 11 200]
      else if (l =? 20) && pystr_eqb q (lit "Song B Artist")
           then found [cand 90 300; cand 22 181; cand 23 180]
           else found []
  | GetItems _ => with_etag "v1"
  | PostItems _ _ _ => plain 200
  | CreatePlaylist _ _ _ => new_playlist "pl-1"
  end.

(** A playlist whose only track the catalogue does not know. *)
Definition unknown : SourcePlaylist :=
  {| pl_name := lit "Unknown";
     pl_description := None;
     pl_tracks := [track_c] |}.


(** A search item whose id is 0. *)
Definition zero_hit : candidate :=
  {| c_id := Some 0; c_duration := Some 200 |}.

(** A playlist that holds a track with blank metadata. *)
Definition with_blank : SourcePlaylist :=
  {| pl_name := lit "Mixed";
     pl_description := None;
     pl_tracks := [track_a; blank_track] |}.

Definition sp_track_of (name : string) (artists : list string) : sp_track :=
  {| tr_name := Some (lit name);
     tr_album := None;
     tr_artists := Some (map (fun a => {| a_name := Some (lit a) |}) artists);
     tr_duration_ms := None;
     tr_external_ids := None |}.

Definition item_of (name : string) (artists : list string) : sp_item :=
  {| i_track := Some (sp_track_of name artists) |}.

Definition no_track : sp_item := {| i_track := None |}.

(** A playlist served in three pages, the last one empty. *)
Definition three_pages (playlist_id : pystr) (offset limit : Z)
  : sp_page sp_item :=
  if offset =? 0 then
    {| p_items := Some [item_of "One" ["A"; "B"]%string; no_track];
       p_tracks_items := None; p_next := Some (lit "page 2") |}
  else if offset =? 100 then
    {| p_items := Some [item_of "Two" []];
       p_tracks_items := None; p_next := Some (lit "page 3") |}
  else
    {| p_items := None; p_tracks_items := None; p_next := None |}.

(** A listing in two pages, the second under [tracks.items]. *)
Definition two_pages (limit offset : Z) : sp_page Z :=
  if offset =? 0 then
    {| p_items := Some [1; 2]; p_tracks_items := None;
       p_next := Some (lit "more") |}
  else
    {| p_items := Some []; p_tracks_items := Some [3]; p_next := None |}.

Definition two_pages_data (j : nat) : list Z :=
  match j with O => [1; 2] | _ => [3] end.

Definition my_playlists : list sp_playlist :=
  [{| spl_id := lit "1"; spl_name := Some (lit "Rock classics");
      spl_description := None |};
   {| spl_id := lit "2"; spl_name := None; spl_description := None |}].

(** * Properties *)

Example strip_ex : strip (lit "  a b ") = lit "a b".
Proof. reflexivity. Qed.

Example range_ex : py_range 0 5 2 = Some [0; 2; 4].
Proof. reflexivity. Qed.

Example slice_ex : slice [1; 2; 3; 4; 5] 4 6 = [5].
Proof. reflexivity. Qed.

(** ** Ranges and slices *)

Lemma range_up_step start stop step :
  0 < step ->
  range_up start stop step =
  if start <? stop then start :: range_up (start + step) stop step else [].
Proof.
  intros Hstep. rewrite range_up_equation_1.
  destruct (Z_lt_dec 0 step) as [H0|H0]; [|lia].
  unfold range_up_unfold_clause_1.
  destruct (Z_lt_dec start stop) as [Hlt|Hge];
    unfold range_up_unfold_clause_1_clause_1.
  - replace (start <? stop) with true by (symmetry; apply Z.ltb_lt; lia).
    reflexivity.
  - replace (start <? stop) with false by (symmetry; apply Z.ltb_ge; lia).
    reflexivity.
Qed.

(** Induction along the iteration of a range. *)
Lemma range_up_ind (stop step : Z) (P : Z -> Prop) :
  0 < step ->
  (forall start, stop <= start -> P start) ->
  (forall start, start < stop -> P (start + step) -> P start) ->
  forall start, P start.
Proof.
  intros Hstep Hend Hnext start.
  remember (Z.to_nat (stop - start)) as n eqn:En.
  revert start En. induction n as [n IH] using lt_wf_ind. intros start En.
  destruct (Z_lt_dec start stop) as [Hlt|Hge]; [|apply Hend; lia].
  apply Hnext; [exact Hlt|].
  apply (IH (Z.to_nat (stop - (start + step)))); [lia|reflexivity].
Qed.

Lemma slice_chunk {A} (l : list A) i b :
  0 <= i -> 0 < b ->
  slice l i (i + b) = firstn (Z.to_nat b) (skipn (Z.to_nat i) l).
Proof.
  intros Hi Hb. unfold slice, clamp_index.
  replace (i <? 0) with false by (symmetry; apply Z.ltb_ge; lia).
  replace (i + b <? 0) with false by (symmetry; apply Z.ltb_ge; lia).
  set (len := Z.of_nat (List.length l)).
  destruct (Z_le_gt_dec (i + b) len) as [Hin|Hout].
  - rewrite (Z.min_l i len), (Z.min_l (i + b) len) by lia.
    f_equal. lia.
  - destruct (Z_le_gt_dec i len) as [Hi'|Hi'].
    + rewrite (Z.min_l i len), (Z.min_r (i + b) len) by lia.
      rewrite !firstn_all2; [reflexivity| |]; rewrite length_skipn; lia.
    + rewrite (Z.min_r i len), (Z.min_r (i + b) len) by lia.
      rewrite !skipn_all2 by lia. rewrite !firstn_nil. reflexivity.
Qed.

Lemma slice_chunk_length {A} (l : list A) i b :
  0 <= i -> 0 < b -> Z.of_nat (List.length (slice l i (i + b))) <= b.
Proof.
  intros Hi Hb. rewrite slice_chunk by assumption.
  rewrite length_firstn. lia.
Qed.

(** The slices from index [start] on make up the list from [start] on. *)
Lemma chunks_concat (track_ids : list Z) batch start :
  0 < batch -> 0 <= start ->
  List.concat (chunks_at track_ids batch
                 (range_up start (Z.of_nat (List.length track_ids)) batch)) =
  skipn (Z.to_nat start) track_ids.
Proof.
  intros batch_pos. set (len := Z.of_nat (List.length track_ids)).
  pattern start. revert start. apply (range_up_ind len batch); [exact batch_pos| |].
  - intros start Hge _. rewrite range_up_step by exact batch_pos.
    replace (start <? len) with false by (symmetry; apply Z.ltb_ge; lia).
    cbn. rewrite skipn_all2; [reflexivity|]. lia.
  - intros start Hlt IH Hpos. rewrite range_up_step by exact batch_pos.
    replace (start <? len) with true by (symmetry; apply Z.ltb_lt; lia).
    unfold chunks_at in *. cbn [map List.concat].
    rewrite IH by lia. rewrite slice_chunk by lia.
    replace (Z.to_nat (start + batch))
      with (Z.to_nat batch + Z.to_nat start)%nat by lia.
    rewrite <- skipn_skipn. apply firstn_skipn.
Qed.

(** No slice is longer than [batch]. *)
Lemma chunks_bounded (track_ids : list Z) batch len start :
  0 < batch -> 0 <= start ->
  Forall (fun c => Z.of_nat (List.length c) <= batch)
         (chunks_at track_ids batch (range_up start len batch)).
Proof.
  intros batch_pos.
  pattern start. revert start. apply (range_up_ind len batch); [exact batch_pos| |].
  - intros start Hge _. rewrite range_up_step by exact batch_pos.
    replace (start <? len) with false by (symmetry; apply Z.ltb_ge; lia).
    constructor.
  - intros start Hlt IH Hpos. rewrite range_up_step by exact batch_pos.
    replace (start <? len) with true by (symmetry; apply Z.ltb_lt; lia).
    cbn [chunks_at map]. constructor.
    + apply slice_chunk_length; lia.
    + apply IH. lia.
Qed.

(** The number of indices from [start] on is the ceiling of what is left
    over [batch]. *)
Lemma range_up_count batch len start :
  0 < batch -> 0 <= start <= len ->
  (Z.of_nat (List.length (range_up start len batch)) - 1) * batch
    < len - start
    <= Z.of_nat (List.length (range_up start len batch)) * batch.
Proof.
  intros batch_pos.
  pattern start. revert start. apply (range_up_ind len batch); [exact batch_pos| |].
  - intros start Hge Hpos. rewrite range_up_step by exact batch_pos.
    replace (start <? len) with false by (symmetry; apply Z.ltb_ge; lia).
    cbn [List.length]. lia.
  - intros start Hlt IH Hpos. rewrite range_up_step by exact batch_pos.
    replace (start <? len) with true by (symmetry; apply Z.ltb_lt; lia).
    cbn [List.length].
    destruct (Z_le_gt_dec (start + batch) len) as [Hin|Hout].
    + specialize (IH ltac:(lia)). nia.
    + rewrite range_up_step by exact batch_pos.
      replace (start + batch <? len) with false
        by (symmetry; apply Z.ltb_ge; lia).
      cbn [List.length]. lia.
Qed.

(** ** Runs of the monad *)

Section Runs.

Context {World : Type}.

Lemma bind_Return {A B} (m : M World A) (f : A -> M World B) w a t w1 :
  m w = (Return a, t, w1) ->
  bind m f w = (let '(r2, t2, w2) := f a w1 in (r2, t ++ t2, w2)).
Proof. intros H. unfold bind. rewrite H. reflexivity. Qed.

Lemma bind_Raise {A B} (m : M World A) (f : A -> M World B) w e t w1 :
  m w = (Raise e, t, w1) ->
  bind m f w = (Raise e, t, w1).
Proof. intros H. unfold bind. rewrite H. reflexivity. Qed.

Lemma bind_ret {A B} (a : A) (f : A -> M World B) w :
  bind (ret a) f w = f a w.
Proof. unfold bind, ret. destruct (f a w) as [[r t] w']. reflexivity. Qed.

Lemma bind_inv {A B} (m : M World A) (f : A -> M World B) w r tr w' :
  bind m f w = (r, tr, w') ->
  (exists x, r = Raise x /\ m w = (Raise x, tr, w')) \/
  (exists a t1 w1 t2,
      m w = (Return a, t1, w1) /\ f a w1 = (r, t2, w') /\ tr = t1 ++ t2).
Proof.
  unfold bind. destruct (m w) as [[r1 t1] w1]. destruct r1 as [a|x].
  - destruct (f a w1) as [[r2 t2] w2] eqn:E. intros [= <- <- <-].
    right. exists a, t1, w1, t2. auto.
  - intros [= <- <- <-]. left. exists x. auto.
Qed.

End Runs.

(** ** The read of the user's id *)

Section Creation.

Context {World : Type}.
Variable remote : request -> World -> response * World.
Variable session : Session.

(** The creation of a playlist, by the state of the session: without a
    login it raises at the read of [session.user.id], before any request;
    with one it goes on to the request. *)
Lemma tidal_create_playlist_run name description (w : World) :
  tidal_create_playlist remote session name description w =
  match login session with
  | None => (Raise AttributeError, [], w)
  | Some _ =>
      bind (tidal_http remote session
              (CreatePlaylist (firstn 255 name) (firstn 1000 description) true))
           (fun resp =>
              let playlist_id :=
                if truthy_ostr (j_uuid resp) then j_uuid resp else j_id resp in
              if negb (truthy_ostr playlist_id)
              then raise (RuntimeError NoPlaylistId)
              else ret (or_empty playlist_id)) w
  end.
Proof.
  unfold tidal_create_playlist, session_user_id.
  destruct (login session) as [l|]; [|reflexivity].
  unfold bind, ret. cbv beta iota.
  destruct (tidal_http remote session _ w) as [[[resp|x] tr] w'];
    [|reflexivity].
  cbn [app]. destruct (if negb _ then _ else _) as [[r tr'] w'']. reflexivity.
Qed.

(** A session with an access token has a user. *)
Lemma token_login :
  truthy_ostr (access_token session) = true ->
  exists l, login session = Some l.
Proof.
  unfold access_token. destruct (login session) as [l|]; [eauto|discriminate].
Qed.

Lemma tidal_create_playlist_logged_in name description (w : World) :
  truthy_ostr (access_token session) = true ->
  tidal_create_playlist remote session name description w =
  bind (tidal_http remote session
          (CreatePlaylist (firstn 255 name) (firstn 1000 description) true))
       (fun resp =>
          let playlist_id :=
            if truthy_ostr (j_uuid resp) then j_uuid resp else j_id resp in
          if negb (truthy_ostr playlist_id)
          then raise (RuntimeError NoPlaylistId)
          else ret (or_empty playlist_id)) w.
Proof.
  intros H. rewrite tidal_create_playlist_run.
  destruct (token_login H) as [l ->]. reflexivity.
Qed.

End Creation.

Section Properties.

Context {World : Type}.
Variable remote : request -> World -> response * World.
Variable session : Session.

(** The session carries an access token. *)
Hypothesis token : truthy_ostr (access_token session) = true.

Lemma tidal_http_raw_run rq w :
  tidal_http_raw remote session rq w =
  (Return (fst (remote rq w)), [Http rq (fst (remote rq w))], snd (remote rq w)).
Proof.
  unfold tidal_http_raw, _tidal_headers, requests_request.
  rewrite token, bind_ret. destruct (remote rq w). reflexivity.
Qed.

Lemma tidal_http_run rq w :
  tidal_http remote session rq w =
  (if 400 <=? status_code (fst (remote rq w))
   then Raise (RuntimeError (ApiStatus rq (status_code (fst (remote rq w)))))
   else Return (json (fst (remote rq w))),
   [Http rq (fst (remote rq w))], snd (remote rq w)).
Proof.
  unfold tidal_http, _tidal_headers, requests_request.
  rewrite token, bind_ret. unfold bind.
  destruct (remote rq w) as [rs w']. cbn.
  destruct (400 <=? status_code rs); reflexivity.
Qed.

(** ** The resolver *)

Lemma tidal_search_track_by_isrc_run i w :
  i <> [] ->
  tidal_search_track_by_isrc remote session (Some i) w =
  (let rs := fst (remote (SearchTracks (lit "isrc:" ++ i) 5) w) in
   if 400 <=? status_code rs
   then Raise (RuntimeError
                 (ApiStatus (SearchTracks (lit "isrc:" ++ i) 5) (status_code rs)))
   else Return (match search_items (json rs) with
                | t :: _ => Some t
                | [] => None
                end),
   [Http (SearchTracks (lit "isrc:" ++ i) 5)
         (fst (remote (SearchTracks (lit "isrc:" ++ i) 5) w))],
   snd (remote (SearchTracks (lit "isrc:" ++ i) 5) w)).
Proof.
  intros Hi. unfold tidal_search_track_by_isrc.
  destruct i as [|c i]; [congruence|]. cbn [truthy_ostr truthy_str negb or_empty].
  unfold bind. rewrite tidal_http_run.
  destruct (400 <=? _); cbn; rewrite ?app_nil_r; reflexivity.
Qed.

Lemma tidal_search_track_fuzzy_run title artists duration_ms w :
  strip (format_ostr title ++ lit " " ++ artists) <> [] ->
  tidal_search_track_fuzzy remote session title artists duration_ms w =
  (let q := strip (format_ostr title ++ lit " " ++ artists) in
   let rs := fst (remote (SearchTracks q 20) w) in
   if 400 <=? status_code rs
   then Raise (RuntimeError (ApiStatus (SearchTracks q 20) (status_code rs)))
   else Return (match search_items (json rs) with
                | [] => None
                | t0 :: _ =>
                    match first_within duration_ms (search_items (json rs)) with
                    | Some t => Some t
                    | None => Some t0
                    end
                end),
   [Http (SearchTracks (strip (format_ostr title ++ lit " " ++ artists)) 20)
         (fst (remote (SearchTracks
                 (strip (format_ostr title ++ lit " " ++ artists)) 20) w))],
   snd (remote (SearchTracks
                  (strip (format_ostr title ++ lit " " ++ artists)) 20) w)).
Proof.
  intros Hq. unfold tidal_search_track_fuzzy.
  destruct (strip _) as [|c q] eqn:E; [congruence|].
  cbn [truthy_str negb]. unfold bind. rewrite tidal_http_run.
  destruct (400 <=? _); cbn -[first_within]; [reflexivity|].
  destruct (search_items _) as [|t0 l] eqn:El; [reflexivity|].
  destruct (first_within _ _); cbn; reflexivity.
Qed.

(** [first_within] returns the first element of the list, in its order,
    that is within the tolerance. *)
Lemma first_within_split target before c after :
  Forall (fun x => within_tolerance target x = false) before ->
  within_tolerance target c = true ->
  first_within target (before ++ c :: after) = Some c.
Proof.
  induction 1 as [|x l Hx _ IH]; intros Hc; cbn.
  - rewrite Hc. reflexivity.
  - rewrite Hx. apply IH, Hc.
Qed.

Lemma first_within_none target l :
  Forall (fun x => within_tolerance target x = false) l ->
  first_within target l = None.
Proof.
  induction 1 as [|x l Hx _ IH]; cbn; [reflexivity|].
  rewrite Hx. exact IH.
Qed.

Lemma first_within_In target l c :
  first_within target l = Some c -> In c l /\ within_tolerance target c = true.
Proof.
  induction l as [|x l IH]; cbn; [discriminate|].
  destruct (within_tolerance target x) eqn:E.
  - intros [= <-]. auto.
  - intros H. destruct (IH H). auto.
Qed.

(** Once the ISRC attempt has left [tid] false, the result of the
    resolver is that of the fuzzy search. *)
Lemma resolve_track_fuzzy_stage t w0 tid0 tr0 w :
  isrc_attempt remote session t w0 = (Return tid0, tr0, w) ->
  truthy_oint tid0 = false ->
  resolve_track remote session t w0 =
  (let '(r, tr, w') :=
     tidal_search_track_fuzzy remote session (Track.name t) (Track.artists t)
                              (Track.duration_ms t) w in
   (match r with
    | Return hit => Return (match hit with Some h => c_id h | None => tid0 end)
    | Raise e => Raise e
    end, tr0 ++ tr, w')).
Proof.
  intros H0 Hf. unfold resolve_track.
  rewrite (bind_Return _ _ _ _ _ _ H0), Hf. cbn [negb].
  unfold bind at 1.
  destruct (tidal_search_track_fuzzy _ _ _ _ _ w) as [[r tr] w'].
  destruct r; cbn; rewrite ?app_nil_r; reflexivity.
Qed.

(** A track with no ISRC, or whose ISRC search answers with no item,
    leaves the ISRC attempt without an id. *)
Lemma isrc_attempt_none t w :
  truthy_ostr (Track.isrc t) = false ->
  isrc_attempt remote session t w = (Return None, [], w).
Proof. intros H. unfold isrc_attempt. rewrite H. reflexivity. Qed.

Lemma isrc_attempt_run t i w :
  Track.isrc t = Some i -> i <> [] ->
  isrc_attempt remote session t w =
  (let rs := fst (remote (SearchTracks (lit "isrc:" ++ i) 5) w) in
   if 400 <=? status_code rs
   then Raise (RuntimeError
                 (ApiStatus (SearchTracks (lit "isrc:" ++ i) 5) (status_code rs)))
   else Return (match search_items (json rs) with
                | h :: _ => c_id h
                | [] => None
                end),
   [Http (SearchTracks (lit "isrc:" ++ i) 5)
         (fst (remote (SearchTracks (lit "isrc:" ++ i) 5) w))],
   snd (remote (SearchTracks (lit "isrc:" ++ i) 5) w)).
Proof.
  intros Hi Hne. unfold isrc_attempt. rewrite Hi.
  destruct i as [|c i]; [congruence|]. cbn [truthy_ostr truthy_str].
  unfold bind. rewrite tidal_search_track_by_isrc_run by discriminate.
  cbv zeta. destruct (400 <=? _); [reflexivity|].
  destruct (search_items _); cbn; reflexivity.
Qed.


Lemma within_tolerance_true target c :
  Z.abs (duration_s c * 1000 - target) <= 2000 ->
  within_tolerance target c = true.
Proof. intros H. unfold within_tolerance. apply Z.leb_le, H. Qed.

Lemma within_tolerance_false target c :
  2000 < Z.abs (duration_s c * 1000 - target) ->
  within_tolerance target c = false.
Proof. intros H. unfold within_tolerance. apply Z.leb_gt, H. Qed.

Lemma Forall_outside target l :
  Forall (fun x => 2000 < Z.abs (duration_s x * 1000 - target)) l ->
  Forall (fun x => within_tolerance target x = false) l.
Proof.
  intros H. eapply Forall_impl; [|exact H].
  intros x Hx. apply within_tolerance_false, Hx.
Qed.

Lemma resolve_track_isrc_hit t i w rs w' h rest n :
  Track.isrc t = Some i -> i <> [] ->
  remote (SearchTracks (lit "isrc:" ++ i) 5) w = (rs, w') ->
  status_code rs < 400 ->
  search_items (json rs) = h :: rest ->
  c_id h = Some n -> n <> 0 ->
  resolve_track remote session t w =
  (Return (Some n), [Http (SearchTracks (lit "isrc:" ++ i) 5) rs], w').
Proof.
  intros Hi Hne Hr Hs Hl Hid Hn. unfold resolve_track.
  assert (Ha : isrc_attempt remote session t w =
               (Return (Some n), [Http (SearchTracks (lit "isrc:" ++ i) 5) rs], w')).
  { rewrite (isrc_attempt_run t i w Hi Hne). cbv zeta. rewrite Hr.
    cbn [fst snd]. replace (400 <=? status_code rs) with false
      by (symmetry; apply Z.leb_gt; exact Hs).
    rewrite Hl, Hid. reflexivity. }
  rewrite (bind_Return _ _ _ _ _ _ Ha). cbn [truthy_oint].
  replace (n =? 0) with false by (symmetry; apply Z.eqb_neq; exact Hn).
  reflexivity.
Qed.

(** C4, as the code has it.  A source track has an ISRC and the ISRC
    search answers with at least one item, the first of which carries an
    id [n] that is not 0: the resolver returns [n], and the ISRC search is
    the only request of the run, so the fuzzy search is not sent. *)
Theorem isrc_match_skips_fuzzy t i w rs w' h rest n :
  Track.isrc t = Some i -> i <> [] ->
  remote (SearchTracks (lit "isrc:" ++ i) 5) w = (rs, w') ->
  status_code rs < 400 ->
  search_items (json rs) = h :: rest ->
  c_id h = Some n -> n <> 0 ->
  resolve_track remote session t w =
  (Return (Some n), [Http (SearchTracks (lit "isrc:" ++ i) 5) rs], w').
Proof.
  apply resolve_track_isrc_hit.
Qed.

(** The fuzzy search answers with candidates of which [c] is the first
    within the tolerance: it returns [c]. *)
Lemma tidal_search_track_fuzzy_within
    title artists duration_ms w rs w' before c after :
  let q := strip (format_ostr title ++ lit " " ++ artists) in
  q <> [] ->
  remote (SearchTracks q 20) w = (rs, w') ->
  status_code rs < 400 ->
  search_items (json rs) = before ++ c :: after ->
  Forall (fun x => 2000 < Z.abs (duration_s x * 1000 - duration_ms)) before ->
  Z.abs (duration_s c * 1000 - duration_ms) <= 2000 ->
  tidal_search_track_fuzzy remote session title artists duration_ms w =
    (Return (Some c), [Http (SearchTracks q 20) rs], w').
Proof.
  intros q Hq Hr Hs Hl Hbefore Hc.
  rewrite tidal_search_track_fuzzy_run by exact Hq. cbv zeta. fold q.
  rewrite Hr. cbn [fst snd].
  replace (400 <=? status_code rs) with false
    by (symmetry; apply Z.leb_gt; exact Hs).
  rewrite Hl.
  rewrite (first_within_split _ before c after (Forall_outside _ _ Hbefore)
             (within_tolerance_true _ _ Hc)).
  destruct before; reflexivity.
Qed.

(** The fuzzy search answers with no candidate: it returns [None]. *)
Lemma tidal_search_track_fuzzy_empty title artists duration_ms w rs w' :
  let q := strip (format_ostr title ++ lit " " ++ artists) in
  q <> [] ->
  remote (SearchTracks q 20) w = (rs, w') ->
  status_code rs < 400 ->
  search_items (json rs) = [] ->
  tidal_search_track_fuzzy remote session title artists duration_ms w =
    (Return None, [Http (SearchTracks q 20) rs], w').
Proof.
  intros q Hq Hr Hs Hl.
  rewrite tidal_search_track_fuzzy_run by exact Hq. cbv zeta. fold q.
  rewrite Hr. cbn [fst snd].
  replace (400 <=? status_code rs) with false
    by (symmetry; apply Z.leb_gt; exact Hs).
  rewrite Hl. reflexivity.
Qed.

(** The ISRC search answers with no item. *)
Lemma isrc_attempt_empty t i w0 rs0 w :
  Track.isrc t = Some i -> i <> [] ->
  remote (SearchTracks (lit "isrc:" ++ i) 5) w0 = (rs0, w) ->
  status_code rs0 < 400 -> search_items (json rs0) = [] ->
  isrc_attempt remote session t w0 =
    (Return None, [Http (SearchTracks (lit "isrc:" ++ i) 5) rs0], w).
Proof.
  intros Hi Hne Hr0 Hs0 Hl0.
  rewrite (isrc_attempt_run t i w0 Hi Hne). cbv zeta. rewrite Hr0.
  cbn [fst snd]. replace (400 <=? status_code rs0) with false
    by (symmetry; apply Z.leb_gt; exact Hs0).
  rewrite Hl0. reflexivity.
Qed.

(** C5. A source track has no ISRC, or its ISRC search answers with no
    item.  Then the resolver sends the fuzzy search for the stripped text
    "title artists", and when the candidates returned hold one within 2000
    ms of the source duration (seconds times 1000 against [duration_ms]),
    the fuzzy search returns the first such candidate in the returned
    order, and the resolver returns its id. *)
Theorem fuzzy_selects_first_within_tolerance
    t w0 tr0 w rs w' before c after :
  (truthy_ostr (Track.isrc t) = false /\ tr0 = [] /\ w = w0) \/
  (exists i rs0,
      Track.isrc t = Some i /\ i <> [] /\
      remote (SearchTracks (lit "isrc:" ++ i) 5) w0 = (rs0, w) /\
      status_code rs0 < 400 /\ search_items (json rs0) = [] /\
      tr0 = [Http (SearchTracks (lit "isrc:" ++ i) 5) rs0]) ->
  let q := strip (format_ostr (Track.name t) ++ lit " " ++ Track.artists t) in
  q <> [] ->
  remote (SearchTracks q 20) w = (rs, w') ->
  status_code rs < 400 ->
  search_items (json rs) = before ++ c :: after ->
  Forall (fun x => 2000 < Z.abs (duration_s x * 1000 - Track.duration_ms t))
         before ->
  Z.abs (duration_s c * 1000 - Track.duration_ms t) <= 2000 ->
  tidal_search_track_fuzzy remote session (Track.name t) (Track.artists t)
                           (Track.duration_ms t) w =
    (Return (Some c), [Http (SearchTracks q 20) rs], w') /\
  resolve_track remote session t w0 =
    (Return (c_id c), tr0 ++ [Http (SearchTracks q 20) rs], w').
Proof.
  intros Hisrc q Hq Hr Hs Hl Hbefore Hc.
  pose proof (tidal_search_track_fuzzy_within (Track.name t) (Track.artists t)
                (Track.duration_ms t) w rs w' before c after
                Hq Hr Hs Hl Hbefore Hc) as Hf.
  cbv zeta in Hf. fold q in Hf.
  split; [exact Hf|].
  assert (Ha : isrc_attempt remote session t w0 = (Return None, tr0, w)).
  { destruct Hisrc as [(Hno & -> & ->) | (i & rs0 & Hi & Hne & Hr0 & Hs0 & Hl0 & ->)].
    - apply isrc_attempt_none, Hno.
    - apply isrc_attempt_empty; assumption. }
  rewrite (resolve_track_fuzzy_stage t w0 None tr0 w Ha eq_refl), Hf.
  reflexivity.
Qed.

(** C6. The fuzzy search of a source track answers with a non-empty
    list of candidates: the fuzzy search returns one of them, so it does
    not come back empty-handed, and when no candidate is within 2000 ms of
    the source duration it returns the first of the list; the resolver
    returns the id of that candidate. *)
Theorem fuzzy_falls_back_to_first_candidate
    t w0 tid0 tr0 w rs w' c0 rest :
  isrc_attempt remote session t w0 = (Return tid0, tr0, w) ->
  truthy_oint tid0 = false ->
  let q := strip (format_ostr (Track.name t) ++ lit " " ++ Track.artists t) in
  q <> [] ->
  remote (SearchTracks q 20) w = (rs, w') ->
  status_code rs < 400 ->
  search_items (json rs) = c0 :: rest ->
  (exists c,
      In c (c0 :: rest) /\
      tidal_search_track_fuzzy remote session (Track.name t) (Track.artists t)
                               (Track.duration_ms t) w =
        (Return (Some c), [Http (SearchTracks q 20) rs], w') /\
      resolve_track remote session t w0 =
        (Return (c_id c), tr0 ++ [Http (SearchTracks q 20) rs], w')) /\
  (Forall (fun x => 2000 < Z.abs (duration_s x * 1000 - Track.duration_ms t))
          (c0 :: rest) ->
   tidal_search_track_fuzzy remote session (Track.name t) (Track.artists t)
                            (Track.duration_ms t) w =
     (Return (Some c0), [Http (SearchTracks q 20) rs], w') /\
   resolve_track remote session t w0 =
     (Return (c_id c0), tr0 ++ [Http (SearchTracks q 20) rs], w')).
Proof.
  intros Ha Hf0 q Hq Hr Hs Hl.
  assert (Hrun : tidal_search_track_fuzzy remote session (Track.name t)
                   (Track.artists t) (Track.duration_ms t) w =
                 (Return (match first_within (Track.duration_ms t) (c0 :: rest) with
                          | Some c => Some c
                          | None => Some c0
                          end), [Http (SearchTracks q 20) rs], w')).
  { rewrite tidal_search_track_fuzzy_run by exact Hq. cbv zeta. fold q.
    rewrite Hr. cbn [fst snd].
    replace (400 <=? status_code rs) with false
      by (symmetry; apply Z.leb_gt; exact Hs).
    rewrite Hl. reflexivity. }
  split.
  - destruct (first_within (Track.duration_ms t) (c0 :: rest)) as [c|] eqn:E.
    + exists c. split; [apply (first_within_In _ _ _ E)|].
      split; [exact Hrun|].
      rewrite (resolve_track_fuzzy_stage t w0 tid0 tr0 w Ha Hf0), Hrun.
      reflexivity.
    + exists c0. split; [left; reflexivity|].
      split; [exact Hrun|].
      rewrite (resolve_track_fuzzy_stage t w0 tid0 tr0 w Ha Hf0), Hrun.
      reflexivity.
  - intros Hout.
    rewrite (first_within_none _ _ (Forall_outside _ _ Hout)) in Hrun.
    split; [exact Hrun|].
    rewrite (resolve_track_fuzzy_stage t w0 tid0 tr0 w Ha Hf0), Hrun.
    reflexivity.
Qed.

(** ** The batch writer *)

Lemma tidal_get_playlist_etag_run p w :
  tidal_get_playlist_etag remote session p w =
  (if 400 <=? status_code (fst (remote (GetItems p) w))
   then Raise (RuntimeError
                 (ETagStatus (status_code (fst (remote (GetItems p) w)))))
   else if negb (truthy_ostr (header_ETag (fst (remote (GetItems p) w))))
        then Raise (RuntimeError ETagAbsent)
        else Return (or_empty (header_ETag (fst (remote (GetItems p) w)))),
   [Http (GetItems p) (fst (remote (GetItems p) w))],
   snd (remote (GetItems p) w)).
Proof.
  unfold tidal_get_playlist_etag, bind. rewrite tidal_http_raw_run.
  destruct (400 <=? _); [reflexivity|].
  destruct (negb _); reflexivity.
Qed.

Lemma fetches_truthy g e :
  fetches g e -> (400 <=? status_code g) = false /\
                 truthy_ostr (header_ETag g) = true /\
                 or_empty (header_ETag g) = e.
Proof.
  intros (Hs & He & Hne). split; [apply Z.leb_gt, Hs|].
  rewrite He. destruct e; [congruence|]. split; reflexivity.
Qed.

Lemma tidal_get_playlist_etag_fetches p w g w1 e :
  remote (GetItems p) w = (g, w1) -> fetches g e ->
  tidal_get_playlist_etag remote session p w =
  (Return e, [Http (GetItems p) g], w1).
Proof.
  intros Hr Hf. rewrite tidal_get_playlist_etag_run, Hr. cbn [fst snd].
  destruct (fetches_truthy g e Hf) as (-> & -> & ->). reflexivity.
Qed.

(** The read of the ETag either yields it or raises. *)
Lemma tidal_get_playlist_etag_cases p w :
  (exists e, fetches (fst (remote (GetItems p) w)) e /\
             tidal_get_playlist_etag remote session p w =
             (Return e, [Http (GetItems p) (fst (remote (GetItems p) w))],
              snd (remote (GetItems p) w))) \/
  (exists x, tidal_get_playlist_etag remote session p w =
             (Raise x, [Http (GetItems p) (fst (remote (GetItems p) w))],
              snd (remote (GetItems p) w))).
Proof.
  rewrite tidal_get_playlist_etag_run.
  destruct (400 <=? _) eqn:Es; [right; eexists; reflexivity|].
  destruct (header_ETag _) as [e|] eqn:Ee; cbn;
    [|right; eexists; reflexivity].
  destruct e as [|c e]; cbn; [right; eexists; reflexivity|].
  left. exists (c :: e). split; [|reflexivity].
  repeat split; [apply Z.leb_gt, Es | exact Ee | discriminate].
Qed.

Lemma add_batch_first_write p chunk w g1 w1 e1 r1 w2
    (k : response -> M World unit) :
  remote (GetItems p) w = (g1, w1) -> fetches g1 e1 ->
  remote (PostItems p chunk e1) w1 = (r1, w2) ->
  bind (tidal_get_playlist_etag remote session p)
       (fun etag => bind (tidal_http_raw remote session
                            (PostItems p chunk etag)) k) w =
  (let '(r, t, w') := k r1 w2 in
   (r, [Http (GetItems p) g1; Http (PostItems p chunk e1) r1] ++ t, w')).
Proof.
  intros Hg1 Hf1 Hp1.
  rewrite (bind_Return _ _ _ _ _ _
             (tidal_get_playlist_etag_fetches p w g1 w1 e1 Hg1 Hf1)).
  unfold bind at 1. rewrite tidal_http_raw_run, Hp1. cbn [fst snd].
  destruct (k r1 w2) as [[r t] w']. reflexivity.
Qed.

(** The write is answered 412 and the ETag is read again: the slice is
    sent once more, and the status of that second write decides. *)
Lemma add_batch_retry p chunk sleep_s w g1 w1 e1 r1 w2 g2 w3 e2 r2 w4 :
  remote (GetItems p) w = (g1, w1) -> fetches g1 e1 ->
  remote (PostItems p chunk e1) w1 = (r1, w2) ->
  status_code r1 = 412 ->
  remote (GetItems p) w2 = (g2, w3) -> fetches g2 e2 ->
  remote (PostItems p chunk e2) w3 = (r2, w4) ->
  add_batch remote session p chunk sleep_s w =
  (if 400 <=? status_code r2
   then Raise (RuntimeError (PostStatus (status_code r2)))
   else Return tt,
   [Http (GetItems p) g1; Http (PostItems p chunk e1) r1; Sleep 500;
    Http (GetItems p) g2; Http (PostItems p chunk e2) r2] ++
   (if 400 <=? status_code r2 then [] else [Sleep sleep_s]), w4).
Proof.
  intros Hg1 Hf1 Hp1 H412 Hg2 Hf2 Hp2.
  assert (Hretry :
    bind (sleep 500) (fun _ =>
      bind (tidal_get_playlist_etag remote session p) (fun etag =>
        tidal_http_raw remote session (PostItems p chunk etag))) w2 =
    (Return r2, [Sleep 500; Http (GetItems p) g2;
                 Http (PostItems p chunk e2) r2], w4)).
  { unfold bind at 1, sleep.
    rewrite (bind_Return _ _ _ _ _ _
               (tidal_get_playlist_etag_fetches p w2 g2 w3 e2 Hg2 Hf2)).
    rewrite tidal_http_raw_run, Hp2. reflexivity. }
  unfold add_batch.
  rewrite (add_batch_first_write p chunk w g1 w1 e1 r1 w2 _ Hg1 Hf1 Hp1).
  rewrite H412. cbn [Z.eqb Pos.eqb].
  rewrite (bind_Return _ _ _ _ _ _ Hretry).
  destruct (400 <=? status_code r2); reflexivity.
Qed.

(** The first write is answered with a status of 400 or above other
    than 412: the turn raises after that single write. *)
Lemma add_batch_rejected p chunk sleep_s w g1 w1 e1 r1 w2 :
  remote (GetItems p) w = (g1, w1) -> fetches g1 e1 ->
  remote (PostItems p chunk e1) w1 = (r1, w2) ->
  status_code r1 <> 412 -> 400 <= status_code r1 ->
  add_batch remote session p chunk sleep_s w =
  (Raise (RuntimeError (PostStatus (status_code r1))),
   [Http (GetItems p) g1; Http (PostItems p chunk e1) r1], w2).
Proof.
  intros Hg1 Hf1 Hp1 Hn Hs. unfold add_batch.
  rewrite (add_batch_first_write p chunk w g1 w1 e1 r1 w2 _ Hg1 Hf1 Hp1).
  replace (status_code r1 =? 412) with false
    by (symmetry; apply Z.eqb_neq; exact Hn).
  rewrite bind_ret.
  replace (400 <=? status_code r1) with true
    by (symmetry; apply Z.leb_le; exact Hs).
  reflexivity.
Qed.

(** C1. One turn of the writer's loop, from any state, once the ETag
    is read and the write is sent.  If the write is answered 412, the
    writer sleeps, reads the ETag again and, with the ETag it then reads,
    sends the same slice a second time and no more: a status of 400 or
    above on that retry (412 included) raises, a lower one ends the turn.
    If the first write is answered with another status of 400 or above,
    the writer raises after that single write. *)
Theorem conflict_is_retried_once p chunk sleep_s w g1 w1 e1 r1 w2 :
  remote (GetItems p) w = (g1, w1) -> fetches g1 e1 ->
  remote (PostItems p chunk e1) w1 = (r1, w2) ->
  (status_code r1 = 412 ->
   forall g2 w3 e2 r2 w4,
     remote (GetItems p) w2 = (g2, w3) -> fetches g2 e2 ->
     remote (PostItems p chunk e2) w3 = (r2, w4) ->
     (400 <= status_code r2 ->
      add_batch remote session p chunk sleep_s w =
      (Raise (RuntimeError (PostStatus (status_code r2))),
       [Http (GetItems p) g1; Http (PostItems p chunk e1) r1; Sleep 500;
        Http (GetItems p) g2; Http (PostItems p chunk e2) r2], w4)) /\
     (status_code r2 < 400 ->
      add_batch remote session p chunk sleep_s w =
      (Return tt,
       [Http (GetItems p) g1; Http (PostItems p chunk e1) r1; Sleep 500;
        Http (GetItems p) g2; Http (PostItems p chunk e2) r2;
        Sleep sleep_s], w4))) /\
  (status_code r1 <> 412 -> 400 <= status_code r1 ->
   add_batch remote session p chunk sleep_s w =
   (Raise (RuntimeError (PostStatus (status_code r1))),
    [Http (GetItems p) g1; Http (PostItems p chunk e1) r1], w2)).
Proof.
  intros Hg1 Hf1 Hp1. split.
  - intros H412 g2 w3 e2 r2 w4 Hg2 Hf2 Hp2.
    pose proof (add_batch_retry p chunk sleep_s w g1 w1 e1 r1 w2 g2 w3 e2 r2 w4
                  Hg1 Hf1 Hp1 H412 Hg2 Hf2 Hp2) as Hrun.
    split; intros Hs; rewrite Hrun.
    + replace (400 <=? status_code r2) with true
        by (symmetry; apply Z.leb_le; exact Hs).
      reflexivity.
    + replace (400 <=? status_code r2) with false
        by (symmetry; apply Z.leb_gt; exact Hs).
      reflexivity.
  - intros Hn Hs.
    exact (add_batch_rejected p chunk sleep_s w g1 w1 e1 r1 w2
             Hg1 Hf1 Hp1 Hn Hs).
Qed.

(** When the second read of the ETag fails, the turn raises and the
    slice is not sent again. *)
Lemma conflict_refetch_fails p chunk sleep_s w g1 w1 e1 r1 w2 x tr w3 :
  remote (GetItems p) w = (g1, w1) -> fetches g1 e1 ->
  remote (PostItems p chunk e1) w1 = (r1, w2) ->
  status_code r1 = 412 ->
  tidal_get_playlist_etag remote session p w2 = (Raise x, tr, w3) ->
  add_batch remote session p chunk sleep_s w =
  (Raise x,
   [Http (GetItems p) g1; Http (PostItems p chunk e1) r1; Sleep 500] ++ tr,
   w3).
Proof.
  intros Hg1 Hf1 Hp1 H412 Hx. unfold add_batch.
  rewrite (bind_Return _ _ _ _ _ _
             (tidal_get_playlist_etag_fetches p w g1 w1 e1 Hg1 Hf1)).
  unfold bind at 1. rewrite tidal_http_raw_run, Hp1. cbn [fst snd].
  rewrite H412. cbn [Z.eqb Pos.eqb].
  unfold bind at 1. unfold bind at 1. unfold sleep.
  rewrite (bind_Raise _ _ _ _ _ _ Hx). reflexivity.
Qed.

(** The first write is taken: the turn ends after the pause. *)
Lemma write_accepted p chunk sleep_s w g1 w1 e1 r1 w2 :
  remote (GetItems p) w = (g1, w1) -> fetches g1 e1 ->
  remote (PostItems p chunk e1) w1 = (r1, w2) ->
  status_code r1 < 400 ->
  add_batch remote session p chunk sleep_s w =
  (Return tt,
   [Http (GetItems p) g1; Http (PostItems p chunk e1) r1; Sleep sleep_s], w2).
Proof.
  intros Hg1 Hf1 Hp1 Hs. unfold add_batch.
  rewrite (bind_Return _ _ _ _ _ _
             (tidal_get_playlist_etag_fetches p w g1 w1 e1 Hg1 Hf1)).
  unfold bind at 1. rewrite tidal_http_raw_run, Hp1. cbn [fst snd].
  replace (status_code r1 =? 412) with false
    by (symmetry; apply Z.eqb_neq; lia).
  rewrite bind_ret.
  replace (400 <=? status_code r1) with false
    by (symmetry; apply Z.leb_gt; exact Hs).
  reflexivity.
Qed.

(** Every turn of the loop goes one of the ways of [batch_run]. *)
Lemma add_batch_shape_logged_in p chunk sleep_s w :
  batch_run p chunk sleep_s
    (fst (fst (add_batch remote session p chunk sleep_s w)))
    (snd (fst (add_batch remote session p chunk sleep_s w))).
Proof.
  destruct (tidal_get_playlist_etag_cases p w) as [(e1 & Hf1 & _) | (x & Hx)].
  2:{ unfold add_batch. rewrite (bind_Raise _ _ _ _ _ _ Hx). cbn.
      apply fetch_fails. }
  destruct (remote (GetItems p) w) as [g1 w1] eqn:Hg1. cbn [fst snd] in Hf1.
  destruct (remote (PostItems p chunk e1) w1) as [r1 w2] eqn:Hp1.
  destruct (Z.eq_dec (status_code r1) 412) as [H412 | Hn].
  - destruct (tidal_get_playlist_etag_cases p w2)
      as [(e2 & Hf2 & _) | (x & Hx)].
    + destruct (remote (GetItems p) w2) as [g2 w3] eqn:Hg2.
      cbn [fst snd] in Hf2.
      destruct (remote (PostItems p chunk e2) w3) as [r2 w4] eqn:Hp2.
      rewrite (add_batch_retry p chunk sleep_s w g1 w1 e1 r1 w2 g2 w3 e2 r2 w4
                 Hg1 Hf1 Hp1 H412 Hg2 Hf2 Hp2).
      cbn [fst snd]. destruct (400 <=? status_code r2) eqn:Es.
      * apply retry_fails; auto. apply Z.leb_le, Es.
      * apply retry_ok; auto. apply Z.leb_gt, Es.
    + rewrite (conflict_refetch_fails p chunk sleep_s w g1 w1 e1 r1 w2 x _ _
                 Hg1 Hf1 Hp1 H412 Hx).
      cbn. apply refetch_fails; auto.
  - destruct (Z_lt_le_dec (status_code r1) 400) as [Hlt | Hge].
    + rewrite (write_accepted p chunk sleep_s w g1 w1 e1 r1 w2
                 Hg1 Hf1 Hp1 Hlt).
      cbn. apply write_ok; auto.
    + rewrite (add_batch_rejected p chunk sleep_s w g1 w1 e1 r1 w2
                 Hg1 Hf1 Hp1 Hn Hge).
      cbn. apply write_fails; auto.
Qed.

End Properties.

(** ** Traces *)

Lemma posted_app t1 t2 : posted (t1 ++ t2) = posted t1 ++ posted t2.
Proof.
  induction t1 as [|ev t1 IH]; [reflexivity|].
  destruct ev as [[ | | |] rs | |]; cbn; rewrite ?IH; reflexivity.
Qed.

Lemma post_statuses_app t1 t2 :
  post_statuses (t1 ++ t2) = post_statuses t1 ++ post_statuses t2.
Proof.
  induction t1 as [|ev t1 IH]; [reflexivity|].
  destruct ev as [[ | | |] rs | |]; cbn; rewrite ?IH; reflexivity.
Qed.

Lemma appended_app p t1 t2 :
  appended p (t1 ++ t2) = appended p t1 ++ appended p t2.
Proof.
  induction t1 as [|ev t1 IH]; [reflexivity|].
  destruct ev as [[ | |q ids e|] rs | |]; cbn; rewrite ?IH; try reflexivity.
  destruct (pystr_eqb q p && (status_code rs <? 400));
    [rewrite app_assoc|]; reflexivity.
Qed.

Lemma reports_app t1 t2 : reports (t1 ++ t2) = reports t1 ++ reports t2.
Proof.
  induction t1 as [|ev t1 IH]; [reflexivity|].
  destruct ev; cbn; rewrite ?IH; reflexivity.
Qed.

Lemma pystr_eqb_refl p : pystr_eqb p p = true.
Proof.
  induction p as [|c p IH]; [reflexivity|].
  cbn. rewrite N.eqb_refl. exact IH.
Qed.

Lemma fresh_after_weaken prev tr :
  fresh_after None tr -> fresh_after prev tr.
Proof.
  destruct tr as [|ev tr]; [trivial|].
  cbn. intros [H1 H2]. split; [|exact H2].
  destruct ev as [[ | | |] rs | |]; try exact I. contradiction.
Qed.

Lemma fresh_after_app prev t1 t2 :
  fresh_after prev t1 -> fresh_after None t2 -> fresh_after prev (t1 ++ t2).
Proof.
  revert prev. induction t1 as [|ev t1 IH]; intros prev H1 H2.
  - apply fresh_after_weaken, H2.
  - cbn in *. destruct H1 as [Hev H1]. split; [exact Hev|].
    apply IH; assumption.
Qed.

Lemma fresh_after_split tr : forall prev,
  fresh_after prev tr ->
  forall before p ids e rs after,
    tr = before ++ Http (PostItems p ids e) rs :: after ->
    exists g, status_code g < 400 /\ header_ETag g = Some e /\
      ((before = [] /\ prev = Some (Http (GetItems p) g)) \/
       (exists before', before = before' ++ [Http (GetItems p) g])).
Proof.
  induction tr as [|ev tr IH]; intros prev Hf before p ids e rs after Heq.
  - destruct before; discriminate.
  - cbn in Hf. destruct Hf as [Hev Hf].
    destruct before as [|b before].
    + cbn in Heq. injection Heq as -> _.
      destruct prev as [[[ | q | |] g | |]|]; try contradiction.
      destruct Hev as (-> & Hs & He).
      exists g. repeat split; auto.
    + cbn in Heq. injection Heq as <- Heq.
      destruct (IH _ Hf _ _ _ _ _ _ Heq)
        as (g & Hs & He & [(-> & Hprev) | (before' & ->)]).
      * injection Hprev as ->. exists g. repeat split; auto.
        right. exists []. reflexivity.
      * exists g. repeat split; auto.
        right. exists (ev :: before'). reflexivity.
Qed.

Lemma fresh_after_sound tr : fresh_after None tr -> writes_fresh tr.
Proof.
  intros Hf before p ids e rs after Heq.
  destruct (fresh_after_split tr None Hf _ _ _ _ _ _ Heq)
    as (g & Hs & He & [(_ & Hprev) | (before' & ->)]); [discriminate|].
  exists before', g. auto.
Qed.

(** *** One turn of the writer *)

Lemma batch_run_fresh p chunk sleep_s r t :
  batch_run p chunk sleep_s r t -> fresh_after None t.
Proof.
  intros H. destruct H;
    repeat match goal with
           | Hf : fetches _ _ |- _ => destruct Hf as (? & ? & ?)
           end;
    cbn; auto 10.
Qed.

Lemma batch_run_posted p chunk sleep_s r t :
  batch_run p chunk sleep_s r t -> Forall (eq chunk) (posted t).
Proof. intros H. destruct H; cbn; repeat constructor. Qed.

Lemma batch_run_posted_count p chunk sleep_s r t :
  batch_run p chunk sleep_s r t ->
  exists k, (k <= 2)%nat /\ posted t = repeat chunk k.
Proof.
  intros H. destruct H; cbn;
    [exists 0%nat | exists 0%nat | exists 1%nat | exists 1%nat
     | exists 1%nat | exists 2%nat | exists 2%nat];
    split; try reflexivity; lia.
Qed.

Lemma batch_run_appended p chunk sleep_s r t :
  batch_run p chunk sleep_s r t ->
  appended p t = match r with Return _ => chunk | Raise _ => [] end.
Proof.
  intros H. destruct H; cbn; rewrite ?pystr_eqb_refl; cbn;
    repeat match goal with
           | Hs : status_code ?r = 412 |- _ => rewrite Hs; clear Hs
           | Hs : status_code ?r < 400 |- _ =>
               replace (status_code r <? 400) with true
                 by (symmetry; apply Z.ltb_lt; exact Hs); clear Hs
           | Hs : 400 <= status_code ?r |- _ =>
               replace (status_code r <? 400) with false
                 by (symmetry; apply Z.ltb_ge; exact Hs); clear Hs
           end;
    cbn; rewrite ?app_nil_r; reflexivity.
Qed.

(** *** The loop of the writer *)

Lemma writer_run_fresh p sleep_s cs r t :
  writer_run p sleep_s cs r t -> fresh_after None t.
Proof.
  induction 1 as [|c rest x t Hb|c rest t r t2 Hb _ IH].
  - exact I.
  - apply (batch_run_fresh _ _ _ _ _ Hb).
  - apply fresh_after_app; [apply (batch_run_fresh _ _ _ _ _ Hb)|exact IH].
Qed.

Lemma writer_run_posted_in p sleep_s cs r t :
  writer_run p sleep_s cs r t -> Forall (fun c => In c cs) (posted t).
Proof.
  induction 1 as [|c rest x t Hb|c rest t r t2 Hb _ IH].
  - constructor.
  - eapply Forall_impl; [|apply (batch_run_posted _ _ _ _ _ Hb)].
    intros a <-. left. reflexivity.
  - rewrite posted_app. apply Forall_app. split.
    + eapply Forall_impl; [|apply (batch_run_posted _ _ _ _ _ Hb)].
      intros a <-. left. reflexivity.
    + eapply Forall_impl; [|exact IH]. intros a Ha. right. exact Ha.
Qed.

Lemma batch_run_posted_no_conflict p chunk sleep_s r t :
  batch_run p chunk sleep_s r t ->
  ~ In 412 (post_statuses t) ->
  posted t = [] /\ r <> Return tt \/ posted t = [chunk].
Proof.
  intros H Hno. destruct H; cbn in *;
    try (left; split; [reflexivity|discriminate]);
    try (right; reflexivity);
    exfalso; apply Hno; left; assumption.
Qed.

(** Without an answer 412, the write calls are the slices in their
    order, one call each: the first slices when the loop raises, all of
    them when it returns. *)
Lemma writer_run_posted_prefix p sleep_s cs r t :
  writer_run p sleep_s cs r t ->
  ~ In 412 (post_statuses t) ->
  exists rest, cs = posted t ++ rest /\ (r = Return tt -> rest = []).
Proof.
  induction 1 as [|c rest x t Hb|c rest t r t2 Hb _ IH]; intros Hno.
  - exists []. split; reflexivity.
  - destruct (batch_run_posted_no_conflict _ _ _ _ _ Hb Hno)
      as [(-> & _) | ->].
    + exists (c :: rest). split; [reflexivity|discriminate].
    + exists rest. split; [reflexivity|discriminate].
  - rewrite post_statuses_app in Hno. rewrite posted_app.
    destruct (batch_run_posted_no_conflict _ _ _ _ _ Hb)
      as [(_ & Hne) | ->].
    + intros Hin. apply Hno, in_or_app. left. exact Hin.
    + congruence.
    + destruct IH as (rest' & -> & Hr).
      * intros Hin. apply Hno, in_or_app. right. exact Hin.
      * exists rest'. split; [reflexivity|exact Hr].
Qed.

(** The writes the service took are the slices of the turns that ended
    well: a first part of the slices, all of them when the loop returns. *)
Lemma writer_run_appended p sleep_s cs r t :
  writer_run p sleep_s cs r t ->
  exists done rest,
    cs = done ++ rest /\ appended p t = List.concat done /\
    (r = Return tt -> rest = []).
Proof.
  induction 1 as [|c rest x t Hb|c rest t r t2 Hb _ IH].
  - exists [], []. repeat split.
  - exists [], (c :: rest). rewrite (batch_run_appended _ _ _ _ _ Hb).
    repeat split. discriminate.
  - destruct IH as (done & rest' & -> & Ha & Hr).
    exists (c :: done), rest'. rewrite appended_app, Ha.
    rewrite (batch_run_appended _ _ _ _ _ Hb). repeat split. exact Hr.
Qed.

(** The write calls follow the order of the slices, a slice being sent
    at most twice. *)
Lemma writer_run_posted_order p sleep_s cs r t :
  writer_run p sleep_s cs r t ->
  exists ks,
    List.length ks = List.length cs /\ Forall (fun k => (k <= 2)%nat) ks /\
    posted t = flat_map (fun ck => repeat (fst ck) (snd ck)) (combine cs ks).
Proof.
  induction 1 as [|c rest x t Hb|c rest t r t2 Hb _ IH].
  - exists []. repeat split. constructor.
  - destruct (batch_run_posted_count _ _ _ _ _ Hb) as (k & Hk & Hp).
    exists (k :: repeat 0%nat (List.length rest)). split; [|split].
    + cbn. rewrite repeat_length. reflexivity.
    + constructor; [exact Hk|]. apply Forall_forall. intros a Ha.
      apply repeat_spec in Ha. lia.
    + cbn. rewrite Hp. clear. induction rest as [|a rest IH]; cbn.
      * rewrite app_nil_r. reflexivity.
      * exact IH.
  - destruct IH as (ks & Hlen & Hks & Hp).
    destruct (batch_run_posted_count _ _ _ _ _ Hb) as (k & Hk & Hp1).
    exists (k :: ks). split; [|split].
    + cbn. rewrite Hlen. reflexivity.
    + constructor; assumption.
    + rewrite posted_app, Hp1, Hp. reflexivity.
Qed.

Lemma py_range_positive stop step :
  0 < step -> py_range 0 stop step = Some (range_up 0 stop step).
Proof.
  intros H. unfold py_range.
  replace (step =? 0) with false by (symmetry; apply Z.eqb_neq; lia).
  replace (0 <? step) with true by (symmetry; apply Z.ltb_lt; lia).
  reflexivity.
Qed.

(** Over [range(0, n, step)] with [n >= 0], a negative step yields
    nothing. *)
Lemma py_range_negative stop step :
  0 <= stop -> step < 0 -> py_range 0 stop step = Some [].
Proof.
  intros Hstop H. unfold py_range.
  replace (step =? 0) with false by (symmetry; apply Z.eqb_neq; lia).
  replace (0 <? step) with false by (symmetry; apply Z.ltb_ge; lia).
  rewrite range_up_step by lia.
  replace (- 0 <? - stop) with false by (symmetry; apply Z.ltb_ge; lia).
  reflexivity.
Qed.

Section Writer.

Context {World : Type}.
Variable remote : request -> World -> response * World.
Variable session : Session.

Lemma add_batch_no_token p chunk sleep_s w :
  truthy_ostr (access_token session) = false ->
  add_batch remote session p chunk sleep_s w =
  (Raise (RuntimeError NoAccessToken), [], w).
Proof.
  intros H. unfold add_batch, tidal_get_playlist_etag, tidal_http_raw,
    _tidal_headers. rewrite H. reflexivity.
Qed.

Lemma add_batch_shape p chunk sleep_s w :
  batch_run p chunk sleep_s
    (fst (fst (add_batch remote session p chunk sleep_s w)))
    (snd (fst (add_batch remote session p chunk sleep_s w))).
Proof.
  destruct (truthy_ostr (access_token session)) eqn:E.
  - apply add_batch_shape_logged_in, E.
  - rewrite add_batch_no_token by exact E. apply no_token.
Qed.

Lemma for_each_writer_run p sleep_s (g : Z -> list Z) starts : forall w,
  writer_run p sleep_s (map g starts)
    (fst (fst (for_each starts
                 (fun i => add_batch remote session p (g i) sleep_s) w)))
    (snd (fst (for_each starts
                 (fun i => add_batch remote session p (g i) sleep_s) w))).
Proof.
  induction starts as [|i starts IH]; intros w.
  - apply writer_done.
  - cbn [for_each map]. unfold bind.
    pose proof (add_batch_shape p (g i) sleep_s w) as Hb.
    destruct (add_batch remote session p (g i) sleep_s w) as [[r t] w1].
    cbn [fst snd] in Hb. destruct r as [[]|x].
    + specialize (IH w1).
      destruct (for_each starts _ w1) as [[r2 t2] w2].
      cbn [fst snd] in *. apply writer_next; assumption.
    + cbn [fst snd]. apply writer_stop. exact Hb.
Qed.

(** The writer goes through the slices of its range as [writer_run]
    tells. *)
Lemma writer_shape p track_ids batch sleep_s w starts :
  py_range 0 (Z.of_nat (List.length track_ids)) batch = Some starts ->
  writer_run p sleep_s (chunks_at track_ids batch starts)
    (fst (fst (tidal_add_tracks_in_batches remote session p track_ids batch
                 sleep_s w)))
    (snd (fst (tidal_add_tracks_in_batches remote session p track_ids batch
                 sleep_s w))).
Proof.
  intros Hr. unfold tidal_add_tracks_in_batches. rewrite Hr.
  apply (for_each_writer_run p sleep_s
           (fun i => slice track_ids i (i + batch))).
Qed.

Lemma writer_fresh p track_ids batch sleep_s w :
  fresh_after None
    (snd (fst (tidal_add_tracks_in_batches remote session p track_ids batch
                 sleep_s w))).
Proof.
  destruct (py_range 0 (Z.of_nat (List.length track_ids)) batch)
    as [starts|] eqn:Hr.
  - apply (writer_run_fresh p sleep_s _ _ _
             (writer_shape p track_ids batch sleep_s w starts Hr)).
  - unfold tidal_add_tracks_in_batches. rewrite Hr. exact I.
Qed.

(** C3. For a positive batch size [batch] and N ids: every write call
    of the writer sends at most [batch] ids; the batches of the loop, n of
    them, put end to end are the list of ids itself, so every id is in
    exactly one batch, and n is the ceiling of N over [batch]; and when no
    write is answered 412, the write calls are these batches in their
    order, one call each: all n of them when the writer returns (the first
    of them only when it raises). *)
Theorem batches_are_bounded_and_cover
    p track_ids batch sleep_s w r tr w' :
  0 < batch ->
  tidal_add_tracks_in_batches remote session p track_ids batch sleep_s w =
    (r, tr, w') ->
  let batches :=
    chunks_at track_ids batch
      (range_up 0 (Z.of_nat (List.length track_ids)) batch) in
  let n := Z.of_nat (List.length batches) in
  Forall (fun c => Z.of_nat (List.length c) <= batch) (posted tr) /\
  (List.concat batches = track_ids /\
   (n - 1) * batch < Z.of_nat (List.length track_ids) <= n * batch) /\
  (~ In 412 (post_statuses tr) ->
   exists rest,
     batches = posted tr ++ rest /\
     (r = Return tt ->
      rest = [] /\ Z.of_nat (List.length (posted tr)) = n /\
      List.concat (posted tr) = track_ids)).
Proof.
  intros Hb Hrun batches n.
  pose proof (writer_shape p track_ids batch sleep_s w _
                (py_range_positive _ batch Hb)) as Hw.
  rewrite Hrun in Hw. cbn [fst snd] in Hw. fold batches in Hw.
  pose proof (chunks_bounded track_ids batch
                (Z.of_nat (List.length track_ids)) 0 Hb ltac:(lia)) as Hbound.
  fold batches in Hbound.
  assert (Hcover : List.concat batches = track_ids).
  { apply (chunks_concat track_ids batch 0 Hb). lia. }
  split; [|split].
  - pose proof (writer_run_posted_in _ _ _ _ _ Hw) as Hin.
    rewrite Forall_forall in *. intros c Hc. apply Hbound, Hin, Hc.
  - split; [exact Hcover|].
    subst n batches. unfold chunks_at. rewrite length_map.
    pose proof (range_up_count batch
                  (Z.of_nat (List.length track_ids)) 0 Hb ltac:(lia))
      as Hcount.
    lia.
  - intros Hno.
    destruct (writer_run_posted_prefix _ _ _ _ _ Hw Hno) as (rest & Hp & Hr).
    exists rest. split; [exact Hp|].
    intros Hret. specialize (Hr Hret). subst rest.
    rewrite app_nil_r in Hp. rewrite <- Hp.
    repeat split. exact Hcover.
Qed.

End Writer.

(** ** The loops over the tracks and over the playlists *)

Section Orchestrator.

Context {World : Type}.
Variable remote : request -> World -> response * World.
Variable session : Session.
Variable TIDAL_ADD_BATCH : Z.

(** The loop over the tracks, with its two accumulators, against the
    resolver run track by track. *)
Lemma resolve_tracks_spec name tracks :
  forall tidal_ids rows w ids rows' tr w',
    resolve_tracks remote session name tracks tidal_ids rows w =
      (Return (ids, rows'), tr, w') ->
    exists outs,
      resolver_runs remote session w tracks outs tr w' /\
      ids = tidal_ids ++ ids_of outs /\
      rows' = rows ++ rows_of name tracks outs.
Proof.
  induction tracks as [|t rest IH]; intros tidal_ids rows w ids rows' tr w' H.
  - cbn in H. injection H as <- <- <- <-.
    exists []. rewrite !app_nil_r. repeat split. constructor.
  - cbn [resolve_tracks] in H.
    destruct (bind_inv _ _ _ _ _ _ H)
      as [(x & Hx & _) | (tid & t1 & w1 & t2 & Hres & Hrest & ->)];
      [discriminate|].
    assert (Hkept :
      exists outs,
        resolver_runs remote session w1 rest outs t2 w' /\
        ids = (tidal_ids ++ kept tid) ++ ids_of outs /\
        rows' = (rows ++ if truthy_oint tid then []
                         else [not_found_row name t])
                ++ rows_of name rest outs).
    { destruct tid as [n|]; cbn [kept truthy_oint].
      - destruct (n =? 0); cbn [negb] in *.
        + rewrite app_nil_r. apply IH, Hrest.
        + rewrite (app_nil_r rows). apply IH, Hrest.
      - rewrite app_nil_r. apply IH, Hrest. }
    destruct Hkept as (outs & Hruns & -> & ->).
    exists (tid :: outs). split; [|split].
    + econstructor; eassumption.
    + cbn. rewrite app_assoc. reflexivity.
    + cbn [rows_of]. rewrite app_assoc. reflexivity.
Qed.

Lemma migrate_loop_failure before : forall pl after rows0 w rows tr1 w1 x tr2 w2,
  migrate_loop remote session TIDAL_ADD_BATCH before rows0 w
    = (Return rows, tr1, w1) ->
  migrate_playlist remote session TIDAL_ADD_BATCH pl rows w1
    = (Raise x, tr2, w2) ->
  migrate_loop remote session TIDAL_ADD_BATCH (before ++ pl :: after) rows0 w
    = (Raise x, tr1 ++ tr2, w2).
Proof.
  induction before as [|p0 before IH];
    intros pl after rows0 w rows tr1 w1 x tr2 w2 Hb Hpl.
  - cbn in Hb. injection Hb as <- <- <-. cbn [app migrate_loop].
    rewrite (bind_Raise _ _ _ _ _ _ Hpl). reflexivity.
  - cbn [app migrate_loop] in *.
    destruct (bind_inv _ _ _ _ _ _ Hb)
      as [(y & Hy & _) | (rows1 & t1 & w0 & t2 & Hp0 & Hrest & ->)];
      [discriminate|].
    rewrite (bind_Return _ _ _ _ _ _ Hp0).
    rewrite (IH pl after rows1 w0 rows t2 w1 x tr2 w2 Hrest Hpl).
    rewrite app_assoc. reflexivity.
Qed.

(** C7, as the code has it.  Once the playlists [before] are migrated
    and the migration of [pl] raises, the whole run ends with that
    exception: its events are those of the playlists before and those of
    the failing playlist up to the failure, so what was written stays as it
    is, and nothing is done for the playlists after it. *)
Theorem failure_ends_the_run before pl after w rows tr1 w1 x tr2 w2 :
  migrate_loop remote session TIDAL_ADD_BATCH before [] w
    = (Return rows, tr1, w1) ->
  migrate_playlist remote session TIDAL_ADD_BATCH pl rows w1
    = (Raise x, tr2, w2) ->
  migrate_all_playlists remote session TIDAL_ADD_BATCH
    (before ++ pl :: after) w = (Raise x, tr1 ++ tr2, w2).
Proof.
  intros Hb Hpl. unfold migrate_all_playlists.
  rewrite (bind_Raise _ _ _ _ _ _
             (migrate_loop_failure before pl after [] w rows tr1 w1 x tr2 w2
                Hb Hpl)).
  reflexivity.
Qed.

End Orchestrator.

(** ** The order of the ids *)

Section Order.

Context {World : Type}.
Variable remote : request -> World -> response * World.
Variable session : Session.

(** What the service took from the writer is a first part of the list
    of ids, and the whole list when the writer returns (for a positive
    batch size). *)
Lemma writer_appended_prefix p track_ids batch sleep_s w r tr w' :
  tidal_add_tracks_in_batches remote session p track_ids batch sleep_s w =
    (r, tr, w') ->
  exists rest,
    track_ids = appended p tr ++ rest /\
    (0 < batch -> r = Return tt -> rest = []).
Proof.
  intros Hrun.
  destruct (Z.lt_trichotomy batch 0) as [Hneg | [-> | Hpos]].
  - unfold tidal_add_tracks_in_batches in Hrun.
    rewrite py_range_negative in Hrun by lia.
    cbn in Hrun. injection Hrun as <- <- <-.
    exists track_ids. split; [reflexivity|lia].
  - cbn in Hrun. injection Hrun as <- <- <-.
    exists track_ids. split; [reflexivity|lia].
  - pose proof (writer_shape remote session p track_ids batch sleep_s w _
                  (py_range_positive _ batch Hpos)) as Hw.
    rewrite Hrun in Hw. cbn [fst snd] in Hw.
    destruct (writer_run_appended _ _ _ _ _ Hw)
      as (done & rest & Hcs & Ha & Hr).
    exists (List.concat rest). split.
    + rewrite Ha, <- concat_app, <- Hcs.
      symmetry. apply (chunks_concat track_ids batch 0 Hpos). lia.
    + intros _ Hret. rewrite (Hr Hret). reflexivity.
Qed.

(** C9. The ids of a playlist keep the order of its tracks.  The list
    handed to the writer holds the ids the resolver returned, track after
    track in the order of the source ([outs] is what the resolver returned
    for each track).  What the service has taken from the writer is at any
    point a first part of that list, the whole of it when the writer
    returns; and the write calls follow the batches in increasing index,
    a batch being sent at most twice. *)
Theorem source_order_is_preserved
    name tracks rows0 w ids rows tr1 w1 p batch sleep_s w2 r tr2 w3 :
  resolve_tracks remote session name tracks [] rows0 w =
    (Return (ids, rows), tr1, w1) ->
  0 < batch ->
  tidal_add_tracks_in_batches remote session p ids batch sleep_s w2 =
    (r, tr2, w3) ->
  (exists outs,
      resolver_runs remote session w tracks outs tr1 w1 /\
      ids = ids_of outs) /\
  (exists rest,
      ids = appended p tr2 ++ rest /\ (r = Return tt -> rest = [])) /\
  (exists ks,
      Forall (fun k => (k <= 2)%nat) ks /\
      posted tr2 =
      flat_map (fun ck => repeat (fst ck) (snd ck))
        (combine (chunks_at ids batch
                    (range_up 0 (Z.of_nat (List.length ids)) batch)) ks)).
Proof.
  intros Hres Hpos Hrun. split; [|split].
  - destruct (resolve_tracks_spec remote session name tracks _ _ _ _ _ _ _ Hres)
      as (outs & Hruns & Hids & _).
    exists outs. split; [exact Hruns | exact Hids].
  - destruct (writer_appended_prefix p ids batch sleep_s w2 r tr2 w3 Hrun)
      as (rest & Hids & Hrest).
    exists rest. split; [exact Hids | exact (Hrest Hpos)].
  - pose proof (writer_shape remote session p ids batch sleep_s w2 _
                  (py_range_positive _ batch Hpos)) as Hw.
    rewrite Hrun in Hw. cbn [fst snd] in Hw.
    destruct (writer_run_posted_order _ _ _ _ _ Hw) as (ks & _ & Hks & Hp).
    exists ks. split; assumption.
Qed.

End Order.

(** ** A whole run *)

Lemma searches_only_app t1 t2 :
  searches_only t1 -> searches_only t2 -> searches_only (t1 ++ t2).
Proof. intros H1 H2. apply Forall_app. split; assumption. Qed.

(** A trace of searches holds no write, no creation and no report. *)
Lemma searches_only_quiet p tr :
  searches_only tr ->
  posted tr = [] /\ appended p tr = [] /\ reports tr = [] /\ created tr = [].
Proof.
  induction 1 as [|ev tr (q & l & rs & ->) _ IH]; [repeat split|].
  cbn. exact IH.
Qed.

Lemma batch_run_reports p chunk sleep_s r t :
  batch_run p chunk sleep_s r t -> reports t = [].
Proof. intros H. destruct H; reflexivity. Qed.

Lemma writer_run_reports p sleep_s cs r t :
  writer_run p sleep_s cs r t -> reports t = [].
Proof.
  induction 1 as [|c rest x t Hb|c rest t r t2 Hb _ IH].
  - reflexivity.
  - apply (batch_run_reports _ _ _ _ _ Hb).
  - rewrite reports_app, IH, (batch_run_reports _ _ _ _ _ Hb). reflexivity.
Qed.

Section Searches.

Context {World : Type}.
Variable remote : request -> World -> response * World.
Variable session : Session.

Lemma tidal_http_events rq w :
  snd (fst (tidal_http remote session rq w)) = [] \/
  exists rs, snd (fst (tidal_http remote session rq w)) = [Http rq rs].
Proof.
  unfold tidal_http, _tidal_headers.
  destruct (truthy_ostr (access_token session)); [|left; reflexivity].
  rewrite bind_ret. unfold bind, requests_request.
  destruct (remote rq w) as [rs w']. right. exists rs.
  destruct (400 <=? status_code rs); reflexivity.
Qed.

Lemma tidal_http_search_only q l w :
  searches_only (snd (fst (tidal_http remote session (SearchTracks q l) w))).
Proof.
  destruct (tidal_http_events (SearchTracks q l) w) as [-> | (rs & ->)].
  - constructor.
  - constructor; [|constructor]. exists q, l, rs. reflexivity.
Qed.

Lemma bind_trace_ret {A B} (m : M World A) (g : A -> B) w :
  snd (fst (bind m (fun a => ret (g a)) w)) = snd (fst (m w)).
Proof.
  unfold bind, ret. destruct (m w) as [[r t] w']. destruct r; cbn;
    rewrite ?app_nil_r; reflexivity.
Qed.

Lemma isrc_attempt_searches_only t w :
  searches_only (snd (fst (isrc_attempt remote session t w))).
Proof.
  unfold isrc_attempt.
  destruct (truthy_ostr (Track.isrc t)) eqn:E; [|constructor].
  rewrite bind_trace_ret. unfold tidal_search_track_by_isrc. rewrite E.
  cbn [negb]. rewrite bind_trace_ret. apply tidal_http_search_only.
Qed.

Lemma tidal_search_track_fuzzy_searches_only title artists duration_ms w :
  searches_only
    (snd (fst (tidal_search_track_fuzzy remote session title artists
                 duration_ms w))).
Proof.
  unfold tidal_search_track_fuzzy.
  destruct (negb _); [constructor|].
  pose proof (tidal_http_search_only
                (strip (format_ostr title ++ lit " " ++ artists)) 20 w) as H.
  unfold bind.
  destruct (tidal_http _ _ _ w) as [[r t] w1]. cbn [fst snd] in H.
  destruct r as [resp|x]; [|exact H].
  destruct (search_items resp) as [|t0 l]; cbn -[first_within].
  - rewrite app_nil_r. exact H.
  - destruct (first_within _ _); cbn; rewrite app_nil_r; exact H.
Qed.

Lemma resolve_track_searches_only t w :
  searches_only (snd (fst (resolve_track remote session t w))).
Proof.
  unfold resolve_track. unfold bind at 1.
  pose proof (isrc_attempt_searches_only t w) as Ha.
  destruct (isrc_attempt remote session t w) as [[r t1] w1].
  cbn [fst snd] in Ha. destruct r as [tid|x]; [|exact Ha].
  destruct (negb (truthy_oint tid)).
  - pose proof (tidal_search_track_fuzzy_searches_only (Track.name t)
                  (Track.artists t) (Track.duration_ms t) w1) as Hf.
    rewrite <- (bind_trace_ret _ (fun hit : option candidate =>
                  match hit with Some h => c_id h | None => tid end)) in Hf.
    destruct (bind _ _ w1) as [[r2 t2] w2]. cbn [fst snd] in *.
    apply searches_only_app; assumption.
  - cbn. rewrite app_nil_r. exact Ha.
Qed.

Lemma resolver_runs_searches_only w tracks outs tr w' :
  resolver_runs remote session w tracks outs tr w' -> searches_only tr.
Proof.
  induction 1 as [|w t tid tr w1 rest outs tr' w' Hres _ IH]; [constructor|].
  apply searches_only_app; [|exact IH].
  pose proof (resolve_track_searches_only t w) as H.
  rewrite Hres in H. exact H.
Qed.

End Searches.

(** ** Every write of a run *)

Lemma searches_only_fresh tr : searches_only tr -> fresh_after None tr.
Proof.
  induction 1 as [|ev tr (q & l & rs & ->) _ IH]; [exact I|].
  cbn. split; [exact I|]. apply fresh_after_weaken, IH.
Qed.

Section WholeRun.

Context {World : Type}.
Variable remote : request -> World -> response * World.
Variable session : Session.
Variable TIDAL_ADD_BATCH : Z.

Lemma bind_fresh {A B} (m : M World A) (f : A -> M World B) w :
  fresh_after None (snd (fst (m w))) ->
  (forall a w1, fresh_after None (snd (fst (f a w1)))) ->
  fresh_after None (snd (fst (bind m f w))).
Proof.
  intros Hm Hf. unfold bind. destruct (m w) as [[r t] w1].
  cbn [fst snd] in Hm. destruct r as [a|x]; [|exact Hm].
  specialize (Hf a w1). destruct (f a w1) as [[r2 t2] w2].
  cbn [fst snd] in *. apply fresh_after_app; assumption.
Qed.

Lemma resolve_tracks_searches_only name tracks :
  forall tidal_ids rows w,
    searches_only
      (snd (fst (resolve_tracks remote session name tracks tidal_ids rows w))).
Proof.
  induction tracks as [|t rest IH]; intros tidal_ids rows w; [constructor|].
  cbn [resolve_tracks]. unfold bind.
  pose proof (resolve_track_searches_only remote session t w) as Ht.
  destruct (resolve_track remote session t w) as [[r t1] w1].
  cbn [fst snd] in Ht. destruct r as [tid|x]; [|exact Ht].
  assert (Hrest : forall ids' rows',
             searches_only
               (snd (fst (let '(r2, t2, w2) :=
                            resolve_tracks remote session name rest ids' rows' w1
                          in (r2, t1 ++ t2, w2))))).
  { intros ids' rows'. specialize (IH ids' rows' w1).
    destruct (resolve_tracks _ _ _ _ _ _ w1) as [[r2 t2] w2].
    cbn [fst snd] in *. apply searches_only_app; assumption. }
  destruct tid as [n|]; [destruct (negb (n =? 0))|]; apply Hrest.
Qed.

Lemma tidal_create_playlist_fresh name description w :
  fresh_after None
    (snd (fst (tidal_create_playlist remote session name description w))).
Proof.
  rewrite tidal_create_playlist_run.
  destruct (login session); [|exact I]. apply bind_fresh.
  - destruct (tidal_http_events remote session
                (CreatePlaylist (firstn 255 name) (firstn 1000 description) true)
                w) as [-> | (rs & ->)]; cbn; auto.
  - intros resp w1. cbv zeta. destruct (negb _); exact I.
Qed.

Lemma migrate_playlist_fresh pl rows w :
  fresh_after None
    (snd (fst (migrate_playlist remote session TIDAL_ADD_BATCH pl rows w))).
Proof.
  unfold migrate_playlist. apply bind_fresh.
  - apply tidal_create_playlist_fresh.
  - intros t_playlist w1. apply bind_fresh.
    + apply searches_only_fresh, resolve_tracks_searches_only.
    + intros [tidal_ids rows'] w2. apply bind_fresh.
      * destruct tidal_ids; [exact I|]. apply writer_fresh.
      * intros _ w3. exact I.
Qed.

Lemma migrate_loop_fresh sp_pls : forall rows w,
  fresh_after None
    (snd (fst (migrate_loop remote session TIDAL_ADD_BATCH sp_pls rows w))).
Proof.
  induction sp_pls as [|pl rest IH]; intros rows w; [exact I|].
  cbn [migrate_loop]. apply bind_fresh.
  - apply migrate_playlist_fresh.
  - intros rows' w1. apply IH.
Qed.

(** C2. In every run of the batch writer, and so in every run of the
    whole migration, whatever the service answers: each write call comes
    right after a successful read of the ETag of the same playlist and
    carries the ETag that read returned.  No write, the retry after a
    conflict included, uses an ETag read before an earlier write. *)
Theorem every_write_carries_a_fresh_etag :
  (forall p track_ids batch sleep_s w,
      writes_fresh
        (snd (fst (tidal_add_tracks_in_batches remote session p track_ids
                     batch sleep_s w)))) /\
  (forall sp_pls w,
      writes_fresh
        (snd (fst (migrate_all_playlists remote session TIDAL_ADD_BATCH
                     sp_pls w)))).
Proof.
  split.
  - intros p track_ids batch sleep_s w.
    apply fresh_after_sound, writer_fresh.
  - intros sp_pls w. apply fresh_after_sound.
    unfold migrate_all_playlists. apply bind_fresh.
    + apply migrate_loop_fresh.
    + intros rows w1. destruct rows; cbn; auto.
Qed.

End WholeRun.

Section EndToEnd.

Context {World : Type}.
Variable remote : request -> World -> response * World.
Variable session : Session.
Variable TIDAL_ADD_BATCH : Z.

Hypothesis token : truthy_ostr (access_token session) = true.

Lemma for_each_all_accepted p sleep_s (g : Z -> list Z) starts :
  always remote (GetItems p) (fun rs => exists e, fetches rs e) ->
  (forall ids e,
      always remote (PostItems p ids e) (fun rs => status_code rs < 400)) ->
  forall w, exists tr w',
    for_each starts (fun i => add_batch remote session p (g i) sleep_s) w =
      (Return tt, tr, w').
Proof.
  intros Hget Hpost. induction starts as [|i starts IH]; intros w.
  - exists [], w. reflexivity.
  - cbn [for_each].
    destruct (remote (GetItems p) w) as [g1 w1] eqn:Hg1.
    pose proof (Hget w) as (e1 & Hf1). rewrite Hg1 in Hf1. cbn [fst] in Hf1.
    destruct (remote (PostItems p (g i) e1) w1) as [r1 w2] eqn:Hp1.
    pose proof (Hpost (g i) e1 w1) as Hs. rewrite Hp1 in Hs. cbn [fst] in Hs.
    rewrite (bind_Return _ _ _ _ _ _
               (write_accepted remote session token p (g i) sleep_s w
                  g1 w1 e1 r1 w2 Hg1 Hf1 Hp1 Hs)).
    destruct (IH w2) as (tr & w' & ->). eexists _, _. reflexivity.
Qed.

(** When the service takes every write, the writer returns and the
    service has taken the whole list. *)
Lemma writer_all_accepted p track_ids sleep_s :
  0 < TIDAL_ADD_BATCH ->
  always remote (GetItems p) (fun rs => exists e, fetches rs e) ->
  (forall ids e,
      always remote (PostItems p ids e) (fun rs => status_code rs < 400)) ->
  forall w, exists tr w',
    tidal_add_tracks_in_batches remote session p track_ids TIDAL_ADD_BATCH
      sleep_s w = (Return tt, tr, w') /\
    appended p tr = track_ids /\ reports tr = [].
Proof.
  intros Hb Hget Hpost w.
  assert (Hrun : exists tr w',
             tidal_add_tracks_in_batches remote session p track_ids
               TIDAL_ADD_BATCH sleep_s w = (Return tt, tr, w')).
  { unfold tidal_add_tracks_in_batches.
    rewrite py_range_positive by exact Hb.
    apply (for_each_all_accepted p sleep_s
             (fun i => slice track_ids i (i + TIDAL_ADD_BATCH)));
      assumption. }
  destruct Hrun as (tr & w' & Hrun). exists tr, w'.
  split; [exact Hrun|]. split.
  - destruct (writer_appended_prefix remote session p track_ids
                TIDAL_ADD_BATCH sleep_s w _ _ _ Hrun) as (rest & Hids & Hrest).
    rewrite (Hrest Hb eq_refl), app_nil_r in Hids. symmetry. exact Hids.
  - pose proof (writer_shape remote session p track_ids TIDAL_ADD_BATCH
                  sleep_s w _ (py_range_positive _ _ Hb)) as Hw.
    rewrite Hrun in Hw. apply (writer_run_reports _ _ _ _ _ Hw).
Qed.

Lemma tidal_create_playlist_created name description pid :
  always remote
    (CreatePlaylist (firstn 255 name) (firstn 1000 description) true)
    (fun rs => status_code rs < 400 /\ j_uuid (json rs) = Some pid /\
               pid <> []) ->
  forall w, exists rs w',
    tidal_create_playlist remote session name description w =
    (Return pid,
     [Http (CreatePlaylist (firstn 255 name) (firstn 1000 description) true)
           rs], w').
Proof.
  intros Hc w. destruct (Hc w) as (Hs & Hu & Hne).
  rewrite (tidal_create_playlist_logged_in remote session _ _ w token).
  unfold bind. rewrite (tidal_http_run remote session token).
  replace (400 <=? _) with false by (symmetry; apply Z.leb_gt; exact Hs).
  rewrite Hu. destruct pid as [|c pid]; [congruence|]. cbn.
  eexists _, _. reflexivity.
Qed.

Lemma isrc_misses_attempt t :
  isrc_misses remote t ->
  forall w, exists tr w',
    isrc_attempt remote session t w = (Return None, tr, w').
Proof.
  intros [Hno | (i & Hi & Hne & Hal)] w.
  - exists [], w. apply isrc_attempt_none, Hno.
  - destruct (remote (SearchTracks (lit "isrc:" ++ i) 5) w) as [rs w'] eqn:Hr.
    pose proof (Hal w) as (Hs & Hl). rewrite Hr in Hs, Hl. cbn [fst] in Hs, Hl.
    eexists _, _.
    apply (isrc_attempt_empty remote session token t i w rs w'); assumption.
Qed.

(** C8. A source playlist holds three tracks: A, which the ISRC search
    finds (first item of id [idA]); B, which the ISRC attempt misses and
    for which the fuzzy search has a candidate within the tolerance (the
    first such has id [idB]); C, for which neither search has a candidate.
    With a positive batch size and a service that creates the playlist and
    takes the writes, the run returns, the ids the service has taken into
    the playlist are exactly [idA; idB], and the report written holds
    exactly one row, that of C, with the playlist name, the title, the
    artists, the album, the ISRC (empty when there is none) and the
    duration of C. *)
Theorem three_tracks_end_to_end
    name description A B C iA idA idB pid :
  0 < TIDAL_ADD_BATCH ->
  always remote
    (CreatePlaylist (firstn 255 name)
       (firstn 1000 (or_empty description ++ lit " (imported from Spotify)"))
       true)
    (fun rs => status_code rs < 400 /\ j_uuid (json rs) = Some pid /\
               pid <> []) ->
  Track.isrc A = Some iA -> iA <> [] ->
  always remote (SearchTracks (lit "isrc:" ++ iA) 5)
    (fun rs => status_code rs < 400 /\
               exists h rest, search_items (json rs) = h :: rest /\
                              c_id h = Some idA) ->
  idA <> 0 ->
  isrc_misses remote B ->
  strip (format_ostr (Track.name B) ++ lit " " ++ Track.artists B) <> [] ->
  always remote
    (SearchTracks
       (strip (format_ostr (Track.name B) ++ lit " " ++ Track.artists B)) 20)
    (fun rs => status_code rs < 400 /\
               exists before c after,
                 search_items (json rs) = before ++ c :: after /\
                 Forall (fun x => 2000 < Z.abs (duration_s x * 1000
                                                - Track.duration_ms B))
                        before /\
                 Z.abs (duration_s c * 1000 - Track.duration_ms B) <= 2000 /\
                 c_id c = Some idB) ->
  idB <> 0 ->
  isrc_misses remote C ->
  (strip (format_ostr (Track.name C) ++ lit " " ++ Track.artists C) = [] \/
   always remote
     (SearchTracks
        (strip (format_ostr (Track.name C) ++ lit " " ++ Track.artists C)) 20)
     (fun rs => status_code rs < 400 /\ search_items (json rs) = [])) ->
  always remote (GetItems pid) (fun rs => exists e, fetches rs e) ->
  (forall ids e,
      always remote (PostItems pid ids e) (fun rs => status_code rs < 400)) ->
  forall w, exists tr w',
    migrate_all_playlists remote session TIDAL_ADD_BATCH
      [{| pl_name := name; pl_description := description;
          pl_tracks := [A; B; C] |}] w = (Return tt, tr, w') /\
    appended pid tr = [idA; idB] /\
    reports tr =
      [[{| Row.playlist := name;
           Row.title := Track.name C;
           Row.artists := Track.artists C;
           Row.album := Track.album C;
           Row.isrc := or_empty (Track.isrc C);
           Row.duration_ms := Track.duration_ms C |}]].
Proof.
  intros Hb Hcreate HiA HneA HA HidA HmB HqB HB HidB HmC HC Hget Hpost w.
  (* the resolver on each track *)
  assert (resA : forall w, exists tr w',
             resolve_track remote session A w = (Return (Some idA), tr, w')).
  { intros v.
    destruct (remote (SearchTracks (lit "isrc:" ++ iA) 5) v) as [rs v'] eqn:Hr.
    pose proof (HA v) as (Hs & h & rest & Hl & Hid).
    rewrite Hr in Hs, Hl. cbn [fst] in Hs, Hl.
    eexists _, _.
    apply (resolve_track_isrc_hit remote session token A iA v rs v' h rest idA);
      assumption. }
  assert (resB : forall w, exists tr w',
             resolve_track remote session B w = (Return (Some idB), tr, w')).
  { intros v.
    destruct (isrc_misses_attempt B HmB v) as (tr0 & v0 & Ha).
    set (q := strip (format_ostr (Track.name B) ++ lit " " ++ Track.artists B))
      in *.
    destruct (remote (SearchTracks q 20) v0) as [rs v'] eqn:Hr.
    pose proof (HB v0) as (Hs & before & c & after & Hl & Hout & Hin & Hid).
    rewrite Hr in Hs, Hl. cbn [fst] in Hs, Hl.
    rewrite (resolve_track_fuzzy_stage remote session B v None tr0 v0 Ha eq_refl).
    rewrite (tidal_search_track_fuzzy_within remote session token
               (Track.name B) (Track.artists B) (Track.duration_ms B)
               v0 rs v' before c after HqB Hr Hs Hl Hout Hin).
    rewrite Hid. eexists _, _. reflexivity. }
  assert (resC : forall w, exists tr w',
             resolve_track remote session C w = (Return None, tr, w')).
  { intros v.
    destruct (isrc_misses_attempt C HmC v) as (tr0 & v0 & Ha).
    rewrite (resolve_track_fuzzy_stage remote session C v None tr0 v0 Ha eq_refl).
    destruct HC as [Hblank | HC].
    - unfold tidal_search_track_fuzzy. rewrite Hblank. cbn.
      eexists _, _. reflexivity.
    - destruct (strip (format_ostr (Track.name C) ++ lit " " ++ Track.artists C))
        as [|ch q] eqn:Eq.
      + unfold tidal_search_track_fuzzy. rewrite Eq. cbn.
        eexists _, _. reflexivity.
      + destruct (remote (SearchTracks (ch :: q) 20) v0) as [rs v'] eqn:Hr.
        pose proof (HC v0) as (Hs & Hl).
        rewrite Hr in Hs, Hl. cbn [fst] in Hs, Hl.
        rewrite (tidal_search_track_fuzzy_empty remote session token
                   (Track.name C) (Track.artists C) (Track.duration_ms C)
                   v0 rs v');
          rewrite ?Eq; try assumption; try discriminate.
        eexists _, _. reflexivity. }
  (* the run *)
  destruct (tidal_create_playlist_created name _ pid Hcreate w)
    as (rs0 & w1 & Hc).
  destruct (resA w1) as (trA & w2 & HrA).
  destruct (resB w2) as (trB & w3 & HrB).
  destruct (resC w3) as (trC & w4 & HrC).
  destruct (writer_all_accepted pid [idA; idB] 300 Hb Hget Hpost w4)
    as (trW & w5 & Hw & Happ & Hrep).
  assert (Hres :
    resolve_tracks remote session name [A; B; C] [] [] w1 =
    (Return ([idA; idB], [not_found_row name C]), trA ++ trB ++ trC ++ [], w4)).
  { cbn [resolve_tracks].
    rewrite (bind_Return _ _ _ _ _ _ HrA).
    replace (idA =? 0) with false by (symmetry; apply Z.eqb_neq; exact HidA).
    cbn [negb]. rewrite (bind_Return _ _ _ _ _ _ HrB).
    replace (idB =? 0) with false by (symmetry; apply Z.eqb_neq; exact HidB).
    cbn [negb]. rewrite (bind_Return _ _ _ _ _ _ HrC).
    reflexivity. }
  pose proof (resolve_track_searches_only remote session A w1) as SA.
  pose proof (resolve_track_searches_only remote session B w2) as SB.
  pose proof (resolve_track_searches_only remote session C w3) as SC.
  rewrite HrA in SA. rewrite HrB in SB. rewrite HrC in SC. cbn [fst snd] in *.
  destruct (searches_only_quiet pid _ SA) as (_ & HaA & HpA & _).
  destruct (searches_only_quiet pid _ SB) as (_ & HaB & HpB & _).
  destruct (searches_only_quiet pid _ SC) as (_ & HaC & HpC & _).
  eexists _, _. split; [|split].
  - unfold migrate_all_playlists. cbn [migrate_loop].
    unfold migrate_playlist. cbn [pl_name pl_description pl_tracks].
    unfold bind at 1. unfold bind at 1.
    rewrite (bind_Return _ _ _ _ _ _ Hc).
    rewrite (bind_Return _ _ _ _ _ _ Hres).
    rewrite (bind_Return _ _ _ _ _ _ Hw).
    reflexivity.
  - rewrite !appended_app. rewrite HaA, HaB, HaC, Happ. reflexivity.
  - rewrite !reports_app. rewrite HpA, HpB, HpC, Hrep. reflexivity.
Qed.

End EndToEnd.

(** ** Tracks with a blank query *)

Section Blank.

Context {World : Type}.
Variable remote : request -> World -> response * World.
Variable session : Session.
Variable TIDAL_ADD_BATCH : Z.

Variable t : Track.t.
Hypothesis no_isrc : truthy_ostr (Track.isrc t) = false.
Hypothesis blank :
  strip (format_ostr (Track.name t) ++ lit " " ++ Track.artists t) = [].

Lemma blank_fuzzy (w : World) :
  tidal_search_track_fuzzy remote session (Track.name t) (Track.artists t)
                           (Track.duration_ms t) w = (Return None, [], w).
Proof. unfold tidal_search_track_fuzzy. rewrite blank. reflexivity. Qed.

Lemma blank_resolve (w : World) :
  resolve_track remote session t w = (Return None, [], w).
Proof.
  rewrite (resolve_track_fuzzy_stage remote session t w None [] w
             (isrc_attempt_none remote session t w no_isrc) eq_refl),
    blank_fuzzy.
  reflexivity.
Qed.

(** Whatever the resolver returned for the other tracks, the rows of a
    list of tracks hold the row of [t] when [t] is among them. *)
Lemma blank_row_of name tracks w outs tr w' :
  resolver_runs remote session w tracks outs tr w' ->
  In t tracks ->
  In (not_found_row name t) (rows_of name tracks outs).
Proof.
  induction 1 as [w|w t0 tid tr w1 rest outs tr' w' Hres Hruns IH];
    intros Hin; [destruct Hin|].
  cbn [rows_of]. apply in_or_app. destruct Hin as [-> | Hin].
  - left. rewrite blank_resolve in Hres. injection Hres as <- _ _.
    left. reflexivity.
  - right. apply IH, Hin.
Qed.

Lemma blank_resolve_tracks name tracks tidal_ids rows w ids rows' tr w' :
  resolve_tracks remote session name tracks tidal_ids rows w =
    (Return (ids, rows'), tr, w') ->
  exists more,
    rows' = rows ++ more /\
    (In t tracks -> In (not_found_row name t) more).
Proof.
  intros H.
  destruct (resolve_tracks_spec remote session _ _ _ _ _ _ _ _ _ H)
    as (outs & Hruns & _ & ->).
  exists (rows_of name tracks outs). split; [reflexivity|].
  apply (blank_row_of name _ _ _ _ _ Hruns).
Qed.

Lemma blank_migrate_playlist pl rows w rows' tr w' :
  migrate_playlist remote session TIDAL_ADD_BATCH pl rows w =
    (Return rows', tr, w') ->
  exists more,
    rows' = rows ++ more /\
    (In t (pl_tracks pl) -> In (not_found_row (pl_name pl) t) more).
Proof.
  unfold migrate_playlist. intros H.
  destruct (bind_inv _ _ _ _ _ _ H)
    as [(x & Hx & _) | (pid & t1 & w1 & t2 & _ & H2 & _)]; [discriminate|].
  destruct (bind_inv _ _ _ _ _ _ H2)
    as [(x & Hx & _) | ([ids rows2] & t3 & w3 & t4 & Hr & H3 & _)];
    [discriminate|].
  destruct (bind_inv _ _ _ _ _ _ H3)
    as [(x & Hx & _) | (u & t5 & w5 & t6 & _ & Hret & _)]; [discriminate|].
  unfold ret in Hret. injection Hret as <- _ _.
  apply (blank_resolve_tracks _ _ _ _ _ _ _ _ _ Hr).
Qed.

Lemma blank_migrate_loop sp_pls : forall rows w rows' tr w',
  migrate_loop remote session TIDAL_ADD_BATCH sp_pls rows w =
    (Return rows', tr, w') ->
  exists more,
    rows' = rows ++ more /\
    forall pl, In pl sp_pls -> In t (pl_tracks pl) ->
               In (not_found_row (pl_name pl) t) more.
Proof.
  induction sp_pls as [|pl rest IH]; intros rows w rows' tr w' H.
  - cbn in H. injection H as <- _ _. exists []. rewrite app_nil_r.
    split; [reflexivity|]. intros pl [].
  - cbn [migrate_loop] in H.
    destruct (bind_inv _ _ _ _ _ _ H)
      as [(x & Hx & _) | (rows1 & t1 & w1 & t2 & Hp & Hrest & _)];
      [discriminate|].
    destruct (blank_migrate_playlist _ _ _ _ _ _ Hp) as (m1 & -> & Hm1).
    destruct (IH _ _ _ _ _ Hrest) as (m2 & -> & Hm2).
    exists (m1 ++ m2). split; [rewrite app_assoc; reflexivity|].
    intros pl' [<- | Hin] Ht; apply in_or_app.
    + left. apply Hm1, Ht.
    + right. apply (Hm2 pl' Hin Ht).
Qed.

(** C10. A source track has no ISRC and its title and artists give an
    empty query once stripped.  In every state of the service the fuzzy
    search returns [None] and sends no request, and the resolver returns
    [None] and raises nothing.  The track is recorded: the loop over a
    playlist that holds only this track returns with the track's row added
    and nothing else changed; at the head of a longer playlist the loop goes
    on with the row added; wherever the track stands in the playlist, the
    rows the loop returns hold its row; and a run of the migration that
    returns ends with the write of a report that holds the row, under the
    name of each playlist the track is in. *)
Theorem blank_query_is_unresolved :
  (forall w,
      tidal_search_track_fuzzy remote session (Track.name t) (Track.artists t)
        (Track.duration_ms t) w = (Return None, [], w)) /\
  (forall w, resolve_track remote session t w = (Return None, [], w)) /\
  (forall pname tidal_ids rows w,
      resolve_tracks remote session pname [t] tidal_ids rows w =
        (Return (tidal_ids, rows ++ [not_found_row pname t]), [], w)) /\
  (forall pname rest tidal_ids rows w,
      resolve_tracks remote session pname (t :: rest) tidal_ids rows w =
      resolve_tracks remote session pname rest tidal_ids
                     (rows ++ [not_found_row pname t]) w) /\
  (forall pname tracks tidal_ids rows w ids rows' tr w',
      In t tracks ->
      resolve_tracks remote session pname tracks tidal_ids rows w =
        (Return (ids, rows'), tr, w') ->
      exists more, rows' = rows ++ more /\ In (not_found_row pname t) more) /\
  (forall sp_pls pl w tr w',
      In pl sp_pls -> In t (pl_tracks pl) ->
      migrate_all_playlists remote session TIDAL_ADD_BATCH sp_pls w =
        (Return tt, tr, w') ->
      exists tr0 rows,
        tr = tr0 ++ [Report rows] /\
        In (not_found_row (pl_name pl) t) rows).
Proof.
  assert (Hstep : forall pname rest tidal_ids rows w,
             resolve_tracks remote session pname (t :: rest) tidal_ids rows w =
             resolve_tracks remote session pname rest tidal_ids
                            (rows ++ [not_found_row pname t]) w).
  { intros pname rest tidal_ids rows w. cbn [resolve_tracks].
    rewrite (bind_Return _ _ _ _ _ _ (blank_resolve w)).
    destruct (resolve_tracks _ _ _ _ _ _ w) as [[r tr] w']. reflexivity. }
  split; [exact blank_fuzzy|]. split; [exact blank_resolve|].
  split; [intros pname tidal_ids rows w; rewrite Hstep; reflexivity|].
  split; [exact Hstep|]. split.
  - intros pname tracks tidal_ids rows w ids rows' tr w' Hin H.
    destruct (blank_resolve_tracks _ _ _ _ _ _ _ _ _ H) as (more & -> & Hm).
    exists more. split; [reflexivity|apply Hm, Hin].
  - intros sp_pls pl w tr w' Hpl Ht H. unfold migrate_all_playlists in H.
    destruct (bind_inv _ _ _ _ _ _ H)
      as [(x & Hx & _) | (rows & t1 & w1 & t2 & Hloop & Hrep & ->)];
      [discriminate|].
    destruct (blank_migrate_loop _ _ _ _ _ _ Hloop) as (more & -> & Hm).
    cbn [app] in Hrep. specialize (Hm pl Hpl Ht).
    destruct more as [|row more]; [destruct Hm|].
    injection Hrep as <- _. exists t1, (row :: more).
    split; [reflexivity|exact Hm].
Qed.

End Blank.

(** ** The theorems on sample runs *)

Lemma fetches_with_etag_e1 : fetches (with_etag "e1") (lit "e1").
Proof. repeat split. discriminate. Defined.

Lemma fetches_with_etag_e2 : fetches (with_etag "e2") (lit "e2").
Proof. repeat split. discriminate. Defined.

(** A write answered 412 and its retry answered 200; a write answered 500. *)
Lemma conflict_is_retried_once_witness :
  add_batch (scripted (plain 200)) logged_in (lit "pl-1") [11; 22] 300
    [with_etag "e1"; plain 412; with_etag "e2"; plain 200] =
  (Return tt,
   [Http (GetItems (lit "pl-1")) (with_etag "e1");
    Http (PostItems (lit "pl-1") [11; 22] (lit "e1")) (plain 412);
    Sleep 500;
    Http (GetItems (lit "pl-1")) (with_etag "e2");
    Http (PostItems (lit "pl-1") [11; 22] (lit "e2")) (plain 200);
    Sleep 300], []) /\
  add_batch (scripted (plain 200)) logged_in (lit "pl-1") [11; 22] 300
    [with_etag "e1"; plain 500] =
  (Raise (RuntimeError (PostStatus 500)),
   [Http (GetItems (lit "pl-1")) (with_etag "e1");
    Http (PostItems (lit "pl-1") [11; 22] (lit "e1")) (plain 500)], []).
Proof.
  split.
  - refine (proj2 (proj1 (conflict_is_retried_once (scripted (plain 200))
              logged_in eq_refl (lit "pl-1") [11; 22] 300
              [with_etag "e1"; plain 412; with_etag "e2"; plain 200]
              (with_etag "e1") [plain 412; with_etag "e2"; plain 200]
              (lit "e1") (plain 412) [with_etag "e2"; plain 200]
              eq_refl fetches_with_etag_e1 eq_refl)
              eq_refl (with_etag "e2") [plain 200] (lit "e2") (plain 200) []
              eq_refl fetches_with_etag_e2 eq_refl) _).
    reflexivity.
  - refine (proj2 (conflict_is_retried_once (scripted (plain 200))
              logged_in eq_refl (lit "pl-1") [11; 22] 300
              [with_etag "e1"; plain 500]
              (with_etag "e1") [plain 500]
              (lit "e1") (plain 500) []
              eq_refl fetches_with_etag_e1 eq_refl) _ _).
    + discriminate.
    + discriminate.
Defined.

(** Five ids in batches of two: three write calls of at most two ids. *)
Lemma batches_are_bounded_and_cover_witness :
  Forall (fun c => Z.of_nat (List.length c) <= 2)
    (posted (snd (fst (tidal_add_tracks_in_batches (stateless catalogue)
                         logged_in (lit "pl-1") [1; 2; 3; 4; 5] 2 300 tt)))) /\
  posted (snd (fst (tidal_add_tracks_in_batches (stateless catalogue)
                      logged_in (lit "pl-1") [1; 2; 3; 4; 5] 2 300 tt)))
  = [[1; 2]; [3; 4]; [5]].
Proof.
  destruct (batches_are_bounded_and_cover (stateless catalogue) logged_in
              (lit "pl-1") [1; 2; 3; 4; 5] 2 300 tt
              (Return tt)
              (snd (fst (tidal_add_tracks_in_batches (stateless catalogue)
                           logged_in (lit "pl-1") [1; 2; 3; 4; 5] 2 300 tt)))
              tt eq_refl eq_refl) as (Hbound & _ & Hall).
  split; [exact Hbound|].
  assert (Hno : ~ In 412 (post_statuses
            (snd (fst (tidal_add_tracks_in_batches (stateless catalogue)
                         logged_in (lit "pl-1") [1; 2; 3; 4; 5] 2 300 tt))))).
  { vm_compute. intros [H|[H|[H|[]]]]; discriminate. }
  destruct (Hall Hno) as (rest & Hp & Hr).
  destruct (Hr eq_refl) as (-> & _ & _).
  rewrite app_nil_r in Hp. symmetry. exact Hp.
Defined.

(** Track A, found by its ISRC: one request. *)
Lemma isrc_match_skips_fuzzy_witness :
  resolve_track (stateless catalogue) logged_in track_a tt =
  (Return (Some 11),
   [Http (SearchTracks (lit "isrc:" ++ lit "USAAA0000001") 5)
         (found [cand 11 200])], tt).
Proof.
  apply (isrc_match_skips_fuzzy (stateless catalogue) logged_in eq_refl
           track_a (lit "USAAA0000001") tt (found [cand 11 200]) tt
           (cand 11 200) [] 11);
    try reflexivity; discriminate.
Defined.

(** Track B, without ISRC: the second candidate is the first within
    2000 ms of 180500 ms. *)
Lemma fuzzy_selects_first_within_tolerance_witness :
  tidal_search_track_fuzzy (stateless catalogue) logged_in
    (Track.name track_b) (Track.artists track_b) (Track.duration_ms track_b) tt =
  (Return (Some (cand 22 181)),
   [Http (SearchTracks
            (strip (format_ostr (Track.name track_b) ++ lit " "
                    ++ Track.artists track_b)) 20)
         (found [cand 90 300; cand 22 181; cand 23 180])], tt) /\
  resolve_track (stateless catalogue) logged_in track_b tt =
  (Return (c_id (cand 22 181)),
   [] ++ [Http (SearchTracks
                  (strip (format_ostr (Track.name track_b) ++ lit " "
                          ++ Track.artists track_b)) 20)
               (found [cand 90 300; cand 22 181; cand 23 180])], tt).
Proof.
  apply (fuzzy_selects_first_within_tolerance (stateless catalogue) logged_in
           eq_refl track_b tt [] tt
           (found [cand 90 300; cand 22 181; cand 23 180]) tt
           [cand 90 300] (cand 22 181) [cand 23 180]).
  - left. repeat split.
  - discriminate.
  - reflexivity.
  - reflexivity.
  - reflexivity.
  - repeat constructor.
  - discriminate.
Defined.

(** Track C against a single candidate far from its duration: the
    candidate is returned all the same. *)
Lemma fuzzy_falls_back_to_first_candidate_witness :
  tidal_search_track_fuzzy (scripted (plain 200)) logged_in
    (Track.name track_c) (Track.artists track_c) (Track.duration_ms track_c)
    [found [cand 22 200; cand 23 300]] =
  (Return (Some (cand 22 200)),
   [Http (SearchTracks
            (strip (format_ostr (Track.name track_c) ++ lit " "
                    ++ Track.artists track_c)) 20)
         (found [cand 22 200; cand 23 300])], []) /\
  resolve_track (scripted (plain 200)) logged_in track_c
    [found [cand 22 200; cand 23 300]] =
  (Return (c_id (cand 22 200)),
   [] ++ [Http (SearchTracks
                  (strip (format_ostr (Track.name track_c) ++ lit " "
                          ++ Track.artists track_c)) 20)
               (found [cand 22 200; cand 23 300])], []).
Proof.
  refine (proj2 (fuzzy_falls_back_to_first_candidate (scripted (plain 200))
                   logged_in eq_refl track_c
                   [found [cand 22 200; cand 23 300]] None []
                   [found [cand 22 200; cand 23 300]]
                   (found [cand 22 200; cand 23 300]) []
                   (cand 22 200) [cand 23 300]
                   eq_refl eq_refl _ eq_refl _ eq_refl) _).
  - discriminate.
  - reflexivity.
  - repeat constructor.
Defined.

(** A track whose title is a blank and that has no artist, alone in a
    playlist and after track A in another. *)
Lemma blank_query_is_unresolved_witness :
  resolve_track (scripted (plain 200)) logged_in blank_track [plain 500] =
    (Return None, [], [plain 500]) /\
  resolve_tracks (scripted (plain 200)) logged_in (lit "Mixed")
    [blank_track] [] [] [plain 500] =
    (Return ([], [] ++ [not_found_row (lit "Mixed") blank_track]), [],
     [plain 500]) /\
  exists tr0 rows,
    snd (fst (migrate_all_playlists (stateless catalogue) logged_in 100
                [with_blank] tt)) = tr0 ++ [Report rows] /\
    In (not_found_row (pl_name with_blank) blank_track) rows.
Proof.
  pose proof (blank_query_is_unresolved (scripted (plain 200)) logged_in 100
                blank_track eq_refl eq_refl) as (_ & Hres & Hone & _).
  split; [apply Hres|]. split; [apply Hone|].
  refine (proj2 (proj2 (proj2 (proj2 (proj2
            (blank_query_is_unresolved (stateless catalogue) logged_in 100
               blank_track eq_refl eq_refl)))))
            [with_blank] with_blank tt _ tt _ _ _).
  - left. reflexivity.
  - right. left. reflexivity.
  - vm_compute. reflexivity.
Defined.

(** Against [first_isrc_result_decides].  The ISRC search for track A
    returns one item, whose id is 0: the resolver does not return it, it
    sends the fuzzy search as well and returns the id found there. *)
Lemma first_isrc_result_with_id_0_is_passed_over :
  resolve_track (scripted (plain 200)) logged_in track_a
    [found [zero_hit]; found [cand 22 200]] =
    (Return (Some 22),
     [Http (SearchTracks (lit "isrc:" ++ lit "USAAA0000001") 5)
           (found [zero_hit]);
      Http (SearchTracks (lit "Song A Artist") 20) (found [cand 22 200])],
     []) /\
  ~ first_isrc_result_decides (scripted (plain 200)) logged_in.
Proof.
  split; [reflexivity|]. intros H.
  specialize (H track_a (lit "USAAA0000001")
                [found [zero_hit]; found [cand 22 200]]
                (found [zero_hit]) [found [cand 22 200]] zero_hit []
                eq_refl ltac:(discriminate) eq_refl eq_refl eq_refl).
  vm_compute in H. discriminate H.
Qed.

(** Against [continues_after_failure].  Two playlists, batches of one
    id: the service takes the first batch of the first playlist and answers
    500 to the second.  The run raises; the first playlist keeps the id it
    got, and the second playlist is never created. *)
Lemma run_stops_at_the_failing_playlist :
  fst (fst (migrate_all_playlists (scripted (plain 200)) logged_in 1
              [road_trip; chill] second_batch_fails))
    = Raise (RuntimeError (PostStatus 500)) /\
  created (snd (fst (migrate_all_playlists (scripted (plain 200)) logged_in 1
                       [road_trip; chill] second_batch_fails)))
    = [lit "Road trip"] /\
  appended (lit "pl-1")
    (snd (fst (migrate_all_playlists (scripted (plain 200)) logged_in 1
                 [road_trip; chill] second_batch_fails)))
    = [11] /\
  ~ continues_after_failure (scripted (plain 200)) logged_in 1.
Proof.
  split; [reflexivity|]. split; [reflexivity|]. split; [reflexivity|].
  intros H.
  destruct (migrate_playlist (scripted (plain 200)) logged_in 1 road_trip []
              second_batch_fails) as [[r tr2] w2] eqn:E.
  vm_compute in E. injection E as <- <- <-.
  destruct (H [] road_trip chill [] second_batch_fails [] []
              second_batch_fails _ _ _ eq_refl eq_refl)
    as (r & tr3 & w3 & Hrun & Hin).
  vm_compute in Hrun.
  assert (Htr3 : tr3 = []).
  { injection Hrun as _ Htr _.
    repeat match type of Htr with
           | _ :: _ = _ :: _ => injection Htr as _ Htr
           end.
    symmetry. exact Htr. }
  subst tr3. exact Hin.
Qed.

(** The same run, read with the theorem: it ends where the first
    playlist fails. *)
Lemma failure_ends_the_run_witness :
  migrate_all_playlists (scripted (plain 200)) logged_in 1
    ([] ++ road_trip :: [chill]) second_batch_fails =
  (Raise (RuntimeError (PostStatus 500)),
   [] ++ snd (fst (migrate_playlist (scripted (plain 200)) logged_in 1
                     road_trip [] second_batch_fails)),
   []).
Proof.
  apply (failure_ends_the_run (scripted (plain 200)) logged_in 1
           [] road_trip [chill] second_batch_fails [] [] second_batch_fails).
  - reflexivity.
  - vm_compute. reflexivity.
Defined.

(** The playlist of tracks A, B and C against the catalogue. *)
Lemma three_tracks_end_to_end_witness :
  exists tr w',
    migrate_all_playlists (stateless catalogue) logged_in 100 [mixed] tt =
      (Return tt, tr, w') /\
    appended (lit "pl-1") tr = [11; 22] /\
    reports tr =
      [[{| Row.playlist := lit "Mixed";
           Row.title := Some (lit "Song C");
           Row.artists := lit "Nobody";
           Row.album := None;
           Row.isrc := [];
           Row.duration_ms := 1000 |}]].
Proof.
  apply (three_tracks_end_to_end (stateless catalogue) logged_in 100 eq_refl
           (lit "Mixed") None track_a track_b track_c
           (lit "USAAA0000001") 11 22 (lit "pl-1")).
  - reflexivity.
  - intros w. repeat split. discriminate.
  - reflexivity.
  - discriminate.
  - intros w. split; [reflexivity|].
    exists (cand 11 200), []. split; reflexivity.
  - discriminate.
  - left. reflexivity.
  - discriminate.
  - intros w. split; [reflexivity|].
    exists [cand 90 300], (cand 22 181), [cand 23 180].
    split; [reflexivity|]. split; [repeat constructor|].
    split; [discriminate|reflexivity].
  - discriminate.
  - left. reflexivity.
  - right. intros w. split; reflexivity.
  - intros w. exists (lit "v1"). repeat split. discriminate.
  - intros ids e w. reflexivity.
Defined.

(** Tracks A, B and C resolved, then the two ids written one by one. *)
Lemma source_order_is_preserved_witness :
  (exists outs,
      resolver_runs (stateless catalogue) logged_in tt
        [track_a; track_b; track_c] outs
        (snd (fst (resolve_tracks (stateless catalogue) logged_in
                     (lit "Mixed") [track_a; track_b; track_c] [] [] tt)))
        tt /\
      [11; 22] = ids_of outs) /\
  (exists rest,
      [11; 22] =
      appended (lit "pl-1")
        (snd (fst (tidal_add_tracks_in_batches (stateless catalogue) logged_in
                     (lit "pl-1") [11; 22] 1 300 tt))) ++ rest /\
      (Return tt = Return tt -> rest = [])) /\
  (exists ks,
      Forall (fun k => (k <= 2)%nat) ks /\
      posted (snd (fst (tidal_add_tracks_in_batches (stateless catalogue)
                          logged_in (lit "pl-1") [11; 22] 1 300 tt))) =
      flat_map (fun ck => repeat (fst ck) (snd ck))
        (combine (chunks_at [11; 22] 1
                    (range_up 0 (Z.of_nat (List.length [11; 22])) 1)) ks)).
Proof.
  apply (source_order_is_preserved (stateless catalogue) logged_in
           (lit "Mixed") [track_a; track_b; track_c] [] tt
           [11; 22]
           [not_found_row (lit "Mixed") track_c]
           (snd (fst (resolve_tracks (stateless catalogue) logged_in
                        (lit "Mixed") [track_a; track_b; track_c] [] [] tt)))
           tt (lit "pl-1") 1 300 tt (Return tt)
           (snd (fst (tidal_add_tracks_in_batches (stateless catalogue)
                        logged_in (lit "pl-1") [11; 22] 1 300 tt)))
           tt).
  - vm_compute. reflexivity.
  - reflexivity.
  - vm_compute. reflexivity.
Defined.

(** * Further properties of the program *)

(** ** A session without access token *)

Section NoToken.

Context {World : Type}.
Variable remote : request -> World -> response * World.
Variable session : Session.
Variable TIDAL_ADD_BATCH : Z.

Lemma tidal_http_no_token rq w :
  truthy_ostr (access_token session) = false ->
  tidal_http remote session rq w = (Raise (RuntimeError NoAccessToken), [], w).
Proof.
  intros H. unfold tidal_http, _tidal_headers. rewrite H. reflexivity.
Qed.

Lemma tidal_http_raw_no_token rq w :
  truthy_ostr (access_token session) = false ->
  tidal_http_raw remote session rq w =
    (Raise (RuntimeError NoAccessToken), [], w).
Proof.
  intros H. unfold tidal_http_raw, _tidal_headers. rewrite H. reflexivity.
Qed.

(** X1. With a session that has no access token (absent or empty), no
    request leaves the program: [tidal_http] and [tidal_http_raw] raise
    before sending, and a migration of at least one playlist raises at the
    creation of the first playlist, with no event and the service
    untouched.  The exception there is the [AttributeError] of the read of
    [session.user.id] when the session never logged in, and the
    [RuntimeError] of [_tidal_headers] when a login left no token. *)
Theorem without_access_token_nothing_is_sent :
  truthy_ostr (access_token session) = false ->
  (forall rq w,
      tidal_http remote session rq w =
        (Raise (RuntimeError NoAccessToken), [], w)) /\
  (forall rq w,
      tidal_http_raw remote session rq w =
        (Raise (RuntimeError NoAccessToken), [], w)) /\
  (forall pl rest w,
      migrate_all_playlists remote session TIDAL_ADD_BATCH (pl :: rest) w =
        (Raise (match login session with
                | None => AttributeError
                | Some _ => RuntimeError NoAccessToken
                end), [], w)).
Proof.
  intros H. split; [|split].
  - intros rq w. apply tidal_http_no_token, H.
  - intros rq w. apply tidal_http_raw_no_token, H.
  - intros pl rest w.
    unfold migrate_all_playlists. cbn [migrate_loop].
    unfold migrate_playlist.
    unfold bind at 1. unfold bind at 1. unfold bind at 1.
    rewrite tidal_create_playlist_run.
    destruct (login session) as [l|]; [|reflexivity].
    unfold bind at 1. rewrite tidal_http_no_token by exact H. reflexivity.
Qed.

End NoToken.

(** ** The two checked reads: ETag and new playlist *)

Section Checked.

Context {World : Type}.
Variable remote : request -> World -> response * World.
Variable session : Session.

Hypothesis token : truthy_ostr (access_token session) = true.

(** X2. The read of the ETag sends exactly one request.  When it
    returns, the answer had a status under 400 and the ETag returned is the
    header's value, never the empty string; an answer of status 400 or
    above raises, and so does an answer under 400 whose ETag header is
    absent or empty. *)
Theorem etag_read_is_checked p w r tr w' :
  tidal_get_playlist_etag remote session p w = (r, tr, w') ->
  tr = [Http (GetItems p) (fst (remote (GetItems p) w))] /\
  w' = snd (remote (GetItems p) w) /\
  match r with
  | Return e =>
      e <> [] /\ status_code (fst (remote (GetItems p) w)) < 400 /\
      header_ETag (fst (remote (GetItems p) w)) = Some e
  | Raise x =>
      (400 <= status_code (fst (remote (GetItems p) w)) /\
       x = RuntimeError
             (ETagStatus (status_code (fst (remote (GetItems p) w))))) \/
      (status_code (fst (remote (GetItems p) w)) < 400 /\
       truthy_ostr (header_ETag (fst (remote (GetItems p) w))) = false /\
       x = RuntimeError ETagAbsent)
  end.
Proof.
  rewrite (tidal_get_playlist_etag_run remote session token).
  destruct (400 <=? _) eqn:Es.
  - intros [= <- <- <-]. repeat split. left. split; [apply Z.leb_le, Es|].
    reflexivity.
  - apply Z.leb_gt in Es.
    destruct (header_ETag _) as [e|] eqn:Ee; cbn [truthy_ostr negb].
    + destruct e as [|c e]; cbn [truthy_str negb or_empty].
      * intros [= <- <- <-]. repeat split. right. repeat split; auto.
      * intros [= <- <- <-]. repeat split; auto. discriminate.
    + intros [= <- <- <-]. repeat split. right. repeat split; auto.
Qed.

(** X3. The creation of a playlist sends exactly one request.  When it
    returns, the answer had a status under 400 and the id returned is not
    empty: it is the [uuid] of the answer when that is a non-empty string,
    the [id] otherwise.  An answer under 400 that carries neither raises,
    after the request was sent. *)
Theorem playlist_id_is_uuid_then_id name description w r tr w' :
  tidal_create_playlist remote session name description w = (r, tr, w') ->
  let rq := CreatePlaylist (firstn 255 name) (firstn 1000 description) true in
  let rs := fst (remote rq w) in
  tr = [Http rq rs] /\ w' = snd (remote rq w) /\
  match r with
  | Return pid =>
      pid <> [] /\ status_code rs < 400 /\
      (j_uuid (json rs) = Some pid \/
       truthy_ostr (j_uuid (json rs)) = false /\ j_id (json rs) = Some pid)
  | Raise x =>
      (400 <= status_code rs /\
       x = RuntimeError (ApiStatus rq (status_code rs))) \/
      (status_code rs < 400 /\
       truthy_ostr (j_uuid (json rs)) = false /\
       truthy_ostr (j_id (json rs)) = false /\
       x = RuntimeError NoPlaylistId)
  end.
Proof.
  intros H rq rs.
  rewrite (tidal_create_playlist_logged_in remote session _ _ w token) in H.
  unfold bind in H.
  rewrite (tidal_http_run remote session token) in H. fold rq rs in H.
  destruct (400 <=? status_code rs) eqn:Es.
  - injection H as <- <- <-. repeat split. left.
    split; [apply Z.leb_le, Es|reflexivity].
  - apply Z.leb_gt in Es.
    destruct (truthy_ostr (j_uuid (json rs))) eqn:Eu.
    + rewrite Eu in H. cbn in H. injection H as <- <- <-.
      destruct (j_uuid (json rs)) as [[|c u]|]; try discriminate.
      repeat split; auto. discriminate.
    + destruct (truthy_ostr (j_id (json rs))) eqn:Ei.
      * cbn in H. injection H as <- <- <-.
        destruct (j_id (json rs)) as [[|c u]|]; try discriminate.
        repeat split; auto. discriminate.
      * cbn in H. injection H as <- <- <-. repeat split. right. auto.
Qed.

End Checked.

(** ** Stripping and the fuzzy query *)

Lemma lstrip_app x y :
  lstrip (x ++ y) = match lstrip x with [] => lstrip y | l => l ++ y end.
Proof.
  induction x as [|c x IH]; [reflexivity|].
  cbn. destruct (is_space c); [exact IH|reflexivity].
Qed.

Lemma rstrip_cons c r :
  rstrip (c :: r) =
  match rstrip r with
  | [] => if is_space c then [] else [c]
  | y => c :: y
  end.
Proof.
  unfold rstrip. cbn [rev]. rewrite lstrip_app.
  destruct (lstrip (rev r)) as [|d l] eqn:E.
  - cbn. destruct (is_space c); reflexivity.
  - rewrite rev_app_distr. change (rev [c]) with [c].
    change ([c] ++ rev (d :: l)) with (c :: rev (d :: l)).
    destruct (rev (d :: l)) as [|y ys] eqn:Er; [|reflexivity].
    apply (f_equal (@List.length N)) in Er. rewrite length_rev in Er.
    discriminate.
Qed.

Lemma rstrip_cons_letter c r :
  is_space c = false -> rstrip (c :: r) = c :: rstrip r.
Proof.
  intros H. rewrite rstrip_cons, H. destruct (rstrip r); reflexivity.
Qed.

Lemma lstrip_nil s : lstrip s = [] <-> Forall (fun c => is_space c = true) s.
Proof.
  induction s as [|c s IH]; cbn.
  - split; [constructor|reflexivity].
  - destruct (is_space c) eqn:E.
    + rewrite IH. split; [intros H; constructor; assumption|].
      intros H. inversion H. assumption.
    + split; [discriminate|]. intros H. inversion H. congruence.
Qed.

Lemma rstrip_nil s : rstrip s = [] <-> Forall (fun c => is_space c = true) s.
Proof.
  induction s as [|c s IH].
  - split; [constructor|reflexivity].
  - rewrite rstrip_cons. destruct (rstrip s) as [|y ys] eqn:E.
    + destruct (is_space c) eqn:Ec.
      * split; [|reflexivity]. intros _. constructor; [exact Ec|].
        apply IH. reflexivity.
      * split; [discriminate|]. intros H. inversion H. congruence.
    + split; [discriminate|]. intros H. inversion H; subst.
      assert (Hn : y :: ys = []) by (apply IH; assumption). discriminate.
Qed.

Lemma lstrip_head s c r : lstrip s = c :: r -> is_space c = false.
Proof.
  induction s as [|d s IH]; cbn; [discriminate|].
  destruct (is_space d) eqn:E; [exact IH|]. intros [= <- _]. exact E.
Qed.

Lemma lstrip_letter c r : is_space c = false -> lstrip (c :: r) = c :: r.
Proof. intros H. cbn. rewrite H. reflexivity. Qed.

Lemma lstrip_idem s : lstrip (lstrip s) = lstrip s.
Proof.
  destruct (lstrip s) as [|c r] eqn:E; [reflexivity|].
  apply lstrip_letter, (lstrip_head s c r E).
Qed.

Lemma rstrip_idem s : rstrip (rstrip s) = rstrip s.
Proof.
  unfold rstrip. rewrite rev_involutive, lstrip_idem. reflexivity.
Qed.

Lemma strip_nil s : strip s = [] <-> Forall (fun c => is_space c = true) s.
Proof.
  unfold strip. rewrite rstrip_nil. split.
  - intros H. apply lstrip_nil.
    destruct (lstrip s) as [|c r] eqn:E; [reflexivity|].
    inversion H; subst. pose proof (lstrip_head s c r E). congruence.
  - intros H. apply lstrip_nil in H. rewrite H. constructor.
Qed.

Lemma strip_idem s : strip (strip s) = strip s.
Proof.
  unfold strip. destruct (lstrip s) as [|c r] eqn:E; [reflexivity|].
  pose proof (lstrip_head s c r E) as Hc.
  rewrite (rstrip_cons_letter c r Hc), (lstrip_letter c _ Hc).
  rewrite <- (rstrip_cons_letter c r Hc). apply rstrip_idem.
Qed.

(** The query is empty exactly when the title is a string of white
    space and the artists too. *)
Lemma query_blank title artists :
  strip (format_ostr title ++ lit " " ++ artists) = [] <->
  exists s, title = Some s /\
            Forall (fun c => is_space c = true) s /\
            Forall (fun c => is_space c = true) artists.
Proof.
  rewrite strip_nil. split.
  - intros H. apply Forall_app in H. destruct H as [Ht H].
    apply Forall_app in H. destruct H as [_ Ha].
    destruct title as [s|].
    + exists s. auto.
    + cbn in Ht. inversion Ht; subst. discriminate.
  - intros (s & -> & Hs & Ha). cbn [format_ostr].
    apply Forall_app. split; [exact Hs|].
    apply Forall_app. split; [|exact Ha].
    repeat constructor.
Qed.

Section Query.

Context {World : Type}.
Variable remote : request -> World -> response * World.
Variable session : Session.

Hypothesis token : truthy_ostr (access_token session) = true.

(** X4. With a logged-in session, the fuzzy search sends no request
    exactly when the title is a string made of white space only (possibly
    empty) and the artists string too; in every other case it sends one
    search request. *)
Theorem fuzzy_search_is_skipped_iff_blank title artists duration_ms w :
  snd (fst (tidal_search_track_fuzzy remote session title artists
              duration_ms w)) = [] <->
  exists s, title = Some s /\
            Forall (fun c => is_space c = true) s /\
            Forall (fun c => is_space c = true) artists.
Proof.
  rewrite <- query_blank.
  destruct (strip (format_ostr title ++ lit " " ++ artists)) as [|c q] eqn:E.
  - unfold tidal_search_track_fuzzy. rewrite E. cbn. split; reflexivity.
  - rewrite (tidal_search_track_fuzzy_run remote session token)
      by (rewrite E; discriminate).
    cbn [fst snd]. split; discriminate.
Qed.

(** X5. A track without title ([name] is [None]) is searched under the
    text None: the f-string renders the missing title as that word, so the
    query is never blank and the request carries the query "None" followed
    by a space and the artists, stripped on the right. *)
Theorem missing_title_is_searched_as_None artists duration_ms w :
  snd (fst (tidal_search_track_fuzzy remote session None artists
              duration_ms w)) =
  [Http (SearchTracks (lit "None" ++ rstrip (lit " " ++ artists)) 20)
        (fst (remote (SearchTracks
                        (lit "None" ++ rstrip (lit " " ++ artists)) 20) w))].
Proof.
  assert (Hq : strip (format_ostr None ++ lit " " ++ artists) =
               lit "None" ++ rstrip (lit " " ++ artists)).
  { unfold strip. cbn [format_ostr].
    change (lit "None" ++ lit " " ++ artists)
      with (78 :: 111 :: 110 :: 101 :: lit " " ++ artists)%N.
    rewrite lstrip_letter by reflexivity.
    rewrite !rstrip_cons_letter by reflexivity. reflexivity. }
  rewrite (tidal_search_track_fuzzy_run remote session token)
    by (rewrite Hq; discriminate).
  cbn [fst snd]. rewrite Hq. reflexivity.
Qed.

End Query.

(** ** Invariants of whole runs *)

Lemma range_up_In step stop : 0 < step ->
  forall start i, In i (range_up start stop step) -> start <= i < stop.
Proof.
  intros Hstep start. pattern start. revert start.
  apply (range_up_ind stop step); [exact Hstep| |].
  - intros start Hge i. rewrite range_up_step by exact Hstep.
    replace (start <? stop) with false by (symmetry; apply Z.ltb_ge; lia).
    intros [].
  - intros start Hlt IH i. rewrite range_up_step by exact Hstep.
    replace (start <? stop) with true by (symmetry; apply Z.ltb_lt; lia).
    intros [<- | Hin]; [lia|]. specialize (IH i Hin). lia.
Qed.

(** A slice that starts inside the list is not empty, is no longer
    than the batch size and holds elements of the list only. *)
Lemma slice_chunk_inside (l : list Z) i b :
  0 <= i < Z.of_nat (List.length l) -> 0 < b ->
  slice l i (i + b) <> [] /\
  Z.of_nat (List.length (slice l i (i + b))) <= b /\
  (forall x, In x (slice l i (i + b)) -> In x l).
Proof.
  intros Hi Hb. split; [|split].
  - rewrite slice_chunk by lia. intros H.
    apply (f_equal (@List.length Z)) in H.
    rewrite length_firstn, length_skipn in H. cbn in H. lia.
  - apply slice_chunk_length; lia.
  - intros x Hx. rewrite slice_chunk in Hx by lia.
    rewrite <- (firstn_skipn (Z.to_nat i) l). apply in_or_app. right.
    rewrite <- (firstn_skipn (Z.to_nat b) (skipn (Z.to_nat i) l)).
    apply in_or_app. left. exact Hx.
Qed.

Lemma ids_of_nonzero outs : ~ In 0 (ids_of outs).
Proof.
  unfold ids_of. induction outs as [|o outs IH]; [intros []|].
  cbn [flat_map]. intros H. apply in_app_or in H. destruct H as [H|H]; [|auto].
  destruct o as [n|]; cbn in H; [|contradiction].
  destruct (n =? 0) eqn:E; cbn in H; [contradiction|].
  destruct H as [H|[]]. apply Z.eqb_neq in E. congruence.
Qed.

Section Logic.

Context {World : Type}.
Variable P : event -> Prop.

Lemma sat_ret {A} (a : A) (Q : A -> Prop) :
  Q a -> run_sat (@ret World A a) P Q.
Proof.
  intros H w. split; [constructor|]. cbn. intros b [= <-]. exact H.
Qed.

Lemma sat_raise {A} e (Q : A -> Prop) : run_sat (@raise World A e) P Q.
Proof. intros w. split; [constructor|]. cbn. discriminate. Qed.

Lemma sat_bind {A B} (m : M World A) (f : A -> M World B)
    (Q : A -> Prop) (Q' : B -> Prop) :
  run_sat m P Q ->
  (forall a, Q a -> run_sat (f a) P Q') ->
  run_sat (bind m f) P Q'.
Proof.
  intros Hm Hf w. unfold bind. destruct (Hm w) as [Ht Hq].
  destruct (m w) as [[r t] w1]. cbn [fst snd] in *.
  destruct r as [a|x].
  - destruct (Hf a (Hq a eq_refl) w1) as [Ht2 Hq2].
    destruct (f a w1) as [[r2 t2] w2]. cbn [fst snd] in *.
    split; [apply Forall_app; split; assumption|exact Hq2].
  - cbn. split; [exact Ht|discriminate].
Qed.

Lemma sat_weaken {A} (m : M World A) (Q Q' : A -> Prop) :
  (forall a, Q a -> Q' a) -> run_sat m P Q -> run_sat m P Q'.
Proof.
  intros HQ Hm w. destruct (Hm w) as [Ht Hq]. split; [exact Ht|].
  intros a Ha. apply HQ, Hq, Ha.
Qed.

Lemma sat_sleep ms : P (Sleep ms) -> run_sat (@sleep World ms) P (fun _ => True).
Proof. intros H w. split; [repeat constructor; exact H|]. auto. Qed.

Lemma sat_for_each {A} (l : list A) (f : A -> M World unit) :
  (forall x, In x l -> run_sat (f x) P (fun _ => True)) ->
  run_sat (for_each l f) P (fun _ => True).
Proof.
  induction l as [|x l IH]; intros H.
  - apply sat_ret. exact I.
  - cbn [for_each]. apply (sat_bind _ _ (fun _ => True)).
    + apply H. left. reflexivity.
    + intros _ _. apply IH. intros y Hy. apply H. right. exact Hy.
Qed.

Variable remote : request -> World -> response * World.
Variable session : Session.

Lemma sat_tidal_http rq :
  (forall rs, P (Http rq rs)) ->
  run_sat (tidal_http remote session rq) P (fun _ => True).
Proof.
  intros H w. split; [|auto].
  destruct (tidal_http_events remote session rq w) as [-> | (rs & ->)];
    repeat constructor. apply H.
Qed.

Lemma sat_tidal_http_raw rq :
  (forall rs, P (Http rq rs)) ->
  run_sat (tidal_http_raw remote session rq) P (fun _ => True).
Proof.
  intros H w. split; [|auto].
  unfold tidal_http_raw, _tidal_headers.
  destruct (truthy_ostr (access_token session)); [|constructor].
  rewrite bind_ret. unfold requests_request.
  destruct (remote rq w) as [rs w']. repeat constructor. apply H.
Qed.

End Logic.

Section Requests.

Context {World : Type}.
Variable remote : request -> World -> response * World.
Variable session : Session.
Variable TIDAL_ADD_BATCH : Z.

Lemma sat_etag p :
  p <> [] ->
  run_sat (tidal_get_playlist_etag remote session p)
          (request_ok TIDAL_ADD_BATCH) (fun e => e <> []).
Proof.
  intros Hp. unfold tidal_get_playlist_etag.
  apply (sat_bind _ _ _ (fun _ => True)).
  - apply sat_tidal_http_raw. intros rs. exact Hp.
  - intros resp _. destruct (400 <=? status_code resp); [apply sat_raise|].
    destruct (header_ETag resp) as [[|c e]|]; cbn;
      try apply sat_raise.
    apply sat_ret. discriminate.
Qed.

Lemma sat_add_batch p chunk :
  p <> [] -> chunk <> [] -> ~ In 0 chunk ->
  Z.of_nat (List.length chunk) <= TIDAL_ADD_BATCH ->
  run_sat (add_batch remote session p chunk 300)
          (request_ok TIDAL_ADD_BATCH) (fun _ => True).
Proof.
  intros Hp Hc H0 Hlen. unfold add_batch.
  assert (Hpost : forall etag, etag <> [] ->
            run_sat (tidal_http_raw remote session (PostItems p chunk etag))
                    (request_ok TIDAL_ADD_BATCH) (fun _ => True)).
  { intros etag He. apply sat_tidal_http_raw. intros rs. cbn. auto. }
  apply (sat_bind _ _ _ (fun e => e <> [])); [apply sat_etag, Hp|].
  intros etag He.
  apply (sat_bind _ _ _ (fun _ => True)); [apply Hpost, He|].
  intros resp _.
  apply (sat_bind _ _ _ (fun _ => True)).
  - destruct (status_code resp =? 412); [|apply sat_ret; exact I].
    apply (sat_bind _ _ _ (fun _ => True)).
    + apply sat_sleep. right. reflexivity.
    + intros _ _.
      apply (sat_bind _ _ _ (fun e => e <> [])); [apply sat_etag, Hp|].
      intros etag2 He2. apply Hpost, He2.
  - intros resp2 _. destruct (400 <=? status_code resp2); [apply sat_raise|].
    apply sat_sleep. left. reflexivity.
Qed.

Lemma sat_writer p track_ids :
  p <> [] -> ~ In 0 track_ids ->
  run_sat (tidal_add_tracks_in_batches remote session p track_ids
             TIDAL_ADD_BATCH 300)
          (request_ok TIDAL_ADD_BATCH) (fun _ => True).
Proof.
  intros Hp H0. unfold tidal_add_tracks_in_batches.
  destruct (Z.lt_trichotomy TIDAL_ADD_BATCH 0) as [Hneg | [Hz | Hpos]].
  - rewrite py_range_negative by lia. apply sat_ret. exact I.
  - rewrite Hz. cbn. apply sat_raise.
  - rewrite py_range_positive by exact Hpos.
    apply sat_for_each. intros i Hi.
    apply (range_up_In _ _ Hpos) in Hi.
    destruct (slice_chunk_inside track_ids i TIDAL_ADD_BATCH Hi Hpos)
      as (Hne & Hlen & Hin).
    apply sat_add_batch; auto.
Qed.

Lemma sat_create name description :
  run_sat (tidal_create_playlist remote session name description)
          (request_ok TIDAL_ADD_BATCH) (fun pid => pid <> []).
Proof.
  unfold tidal_create_playlist.
  apply (sat_bind _ _ _ (fun _ => True));
    [unfold session_user_id; destruct (login session);
       [apply sat_ret; exact I | apply sat_raise]|].
  intros _ _.
  apply (sat_bind _ _ _ (fun _ => True)).
  - apply sat_tidal_http. intros rs. cbn [request_ok].
    rewrite !length_firstn. repeat split; lia.
  - intros resp _.
    destruct (truthy_ostr (j_uuid resp)) eqn:Eu.
    + rewrite Eu. cbn [negb].
      destruct (j_uuid resp) as [[|c u]|]; try discriminate.
      apply sat_ret. discriminate.
    + destruct (j_id resp) as [[|c u]|]; cbn; try apply sat_raise.
      apply sat_ret. discriminate.
Qed.

Lemma sat_resolve_track t :
  run_sat (resolve_track remote session t)
          (request_ok TIDAL_ADD_BATCH) (fun _ => True).
Proof.
  unfold resolve_track.
  apply (sat_bind _ _ _ (fun _ => True)).
  - unfold isrc_attempt.
    destruct (Track.isrc t) as [[|c i]|]; cbn [truthy_ostr truthy_str];
      try (apply sat_ret; exact I).
    apply (sat_bind _ _ _ (fun _ => True)); [|intros; apply sat_ret; exact I].
    unfold tidal_search_track_by_isrc. cbn [truthy_ostr truthy_str negb or_empty].
    apply (sat_bind _ _ _ (fun _ => True)); [|intros; apply sat_ret; exact I].
    apply sat_tidal_http. intros rs. cbn. split; [discriminate|].
    left. split; [reflexivity|]. exists (c :: i). split; [discriminate|reflexivity].
  - intros tid _. destruct (negb (truthy_oint tid)); [|apply sat_ret; exact I].
    apply (sat_bind _ _ _ (fun _ => True)); [|intros; apply sat_ret; exact I].
    unfold tidal_search_track_fuzzy.
    destruct (strip _) as [|c q] eqn:E; cbn [truthy_str negb];
      [apply sat_ret; exact I|].
    apply (sat_bind _ _ _ (fun _ => True)).
    + apply sat_tidal_http. intros rs. cbn [request_ok].
      split; [discriminate|].
      right. split; [reflexivity|]. rewrite <- E. apply strip_idem.
    + intros resp _. destruct (search_items resp); [apply sat_ret; exact I|].
      destruct (first_within _ _); apply sat_ret; exact I.
Qed.

Lemma sat_resolve_tracks name tracks : forall tidal_ids rows,
  ~ In 0 tidal_ids ->
  run_sat (resolve_tracks remote session name tracks tidal_ids rows)
          (request_ok TIDAL_ADD_BATCH) (fun res => ~ In 0 (fst res)).
Proof.
  induction tracks as [|t rest IH]; intros tidal_ids rows H0.
  - apply sat_ret. exact H0.
  - cbn [resolve_tracks].
    apply (sat_bind _ _ _ (fun _ => True)); [apply sat_resolve_track|].
    intros tid _. destruct tid as [n|]; [|apply IH, H0].
    destruct (n =? 0) eqn:E; cbn [negb]; [apply IH, H0|].
    apply IH. intros H. apply in_app_or in H.
    destruct H as [H|[H|[]]]; [auto|]. apply Z.eqb_neq in E. congruence.
Qed.

Lemma sat_migrate_playlist pl rows :
  run_sat (migrate_playlist remote session TIDAL_ADD_BATCH pl rows)
          (request_ok TIDAL_ADD_BATCH) (fun _ => True).
Proof.
  unfold migrate_playlist.
  apply (sat_bind _ _ _ (fun pid => pid <> [])); [apply sat_create|].
  intros pid Hpid.
  apply (sat_bind _ _ _ (fun res => ~ In 0 (fst res)));
    [apply sat_resolve_tracks; intros []|].
  intros [ids rows'] Hids. cbn [fst] in Hids.
  apply (sat_bind _ _ _ (fun _ => True)); [|intros; apply sat_ret; exact I].
  destruct ids as [|i ids]; [apply sat_ret; exact I|].
  apply sat_writer; assumption.
Qed.

Lemma sat_migrate_loop sp_pls : forall rows,
  run_sat (migrate_loop remote session TIDAL_ADD_BATCH sp_pls rows)
          (request_ok TIDAL_ADD_BATCH) (fun _ => True).
Proof.
  induction sp_pls as [|pl rest IH]; intros rows.
  - apply sat_ret. exact I.
  - cbn [migrate_loop].
    apply (sat_bind _ _ _ (fun _ => True)); [apply sat_migrate_playlist|].
    intros rows' _. apply IH.
Qed.

(** Every event of a migration is well formed. *)
Lemma migration_requests_ok sp_pls w :
  Forall (request_ok TIDAL_ADD_BATCH)
    (snd (fst (migrate_all_playlists remote session TIDAL_ADD_BATCH sp_pls w))).
Proof.
  assert (H : run_sat (migrate_all_playlists remote session TIDAL_ADD_BATCH
                         sp_pls)
                      (request_ok TIDAL_ADD_BATCH) (fun _ => True)).
  { unfold migrate_all_playlists.
    apply (sat_bind _ _ _ (fun _ => True)); [apply sat_migrate_loop|].
    intros rows _. destruct rows as [|row rows]; [apply sat_ret; exact I|].
    intros v. split; [|auto]. repeat constructor. discriminate. }
  apply H.
Qed.

(** X6. In every run of the migration, whatever the service answers
    and whatever the batch size, a write call never carries an empty list
    of ids, an id 0, more ids than the batch size, an empty ETag or an
    empty playlist id. *)
Theorem writes_carry_real_ids sp_pls w :
  Forall (fun ev =>
            match ev with
            | Http (PostItems p ids e) _ =>
                ids <> [] /\ ~ In 0 ids /\
                Z.of_nat (List.length ids) <= TIDAL_ADD_BATCH /\
                e <> [] /\ p <> []
            | _ => True
            end)
    (snd (fst (migrate_all_playlists remote session TIDAL_ADD_BATCH sp_pls w))).
Proof.
  eapply Forall_impl; [|apply migration_requests_ok].
  intros [[ | |p ids e| ] rs | |]; cbn; auto. intros (? & ? & ? & ? & ?). auto.
Qed.

(** X7. In every run of the migration, a playlist is created public,
    with a title of at most 255 characters and a description of at most
    1000. *)
Theorem playlists_are_created_within_limits sp_pls w :
  Forall (fun ev =>
            match ev with
            | Http (CreatePlaylist title description public) _ =>
                (List.length title <= 255)%nat /\
                (List.length description <= 1000)%nat /\
                public = true
            | _ => True
            end)
    (snd (fst (migrate_all_playlists remote session TIDAL_ADD_BATCH sp_pls w))).
Proof.
  eapply Forall_impl; [|apply migration_requests_ok].
  intros [[ | | | ] rs | |]; cbn; auto.
Qed.

(** X8. In every run of the migration, a search request never has an
    empty query: it is either an ISRC search, of limit 5 and query "isrc:"
    followed by a non-empty ISRC, or a fuzzy search, of limit 20 and a
    query without white space at either end. *)
Theorem searches_are_never_blank sp_pls w :
  Forall (fun ev =>
            match ev with
            | Http (SearchTracks q l) _ =>
                q <> [] /\
                ((l = 5 /\ exists i, i <> [] /\ q = lit "isrc:" ++ i) \/
                 (l = 20 /\ strip q = q))
            | _ => True
            end)
    (snd (fst (migrate_all_playlists remote session TIDAL_ADD_BATCH sp_pls w))).
Proof.
  eapply Forall_impl; [|apply migration_requests_ok].
  intros [[ | | | ] rs | |]; cbn; auto.
Qed.

End Requests.

(** ** The resolver, request by request *)

Section Resolver.

Context {World : Type}.
Variable remote : request -> World -> response * World.
Variable session : Session.

(** X9. The resolver sends at most two requests for a track, and in
    this order: the ISRC search (only for a track with an ISRC), then the
    fuzzy search for the stripped text of title and artists. *)
Theorem resolver_sends_at_most_two_searches t w :
  exists a b,
    snd (fst (resolve_track remote session t w)) = a ++ b /\
    (a = [] \/
     exists i rs, Track.isrc t = Some i /\ i <> [] /\
                  a = [Http (SearchTracks (lit "isrc:" ++ i) 5) rs]) /\
    (b = [] \/
     exists rs,
       b = [Http (SearchTracks
                    (strip (format_ostr (Track.name t) ++ lit " "
                            ++ Track.artists t)) 20) rs]).
Proof.
  unfold resolve_track. unfold bind at 1.
  assert (Ha : snd (fst (isrc_attempt remote session t w)) = [] \/
               exists i rs, Track.isrc t = Some i /\ i <> [] /\
                 snd (fst (isrc_attempt remote session t w)) =
                 [Http (SearchTracks (lit "isrc:" ++ i) 5) rs]).
  { unfold isrc_attempt.
    destruct (Track.isrc t) as [[|c i]|]; cbn [truthy_ostr truthy_str];
      try (left; reflexivity).
    rewrite bind_trace_ret. unfold tidal_search_track_by_isrc.
    cbn [truthy_ostr truthy_str negb or_empty]. rewrite bind_trace_ret.
    destruct (tidal_http_events remote session
                (SearchTracks (lit "isrc:" ++ c :: i) 5) w) as [-> | (rs & ->)];
      [left; reflexivity|].
    right. exists (c :: i), rs. repeat split. discriminate. }
  destruct (isrc_attempt remote session t w) as [[r t1] w1].
  cbn [fst snd] in Ha. destruct r as [tid|x].
  2:{ exists t1, []. rewrite app_nil_r. cbn. auto. }
  destruct (negb (truthy_oint tid)).
  2:{ exists t1, []. cbn. auto. }
  assert (Hb : snd (fst (bind (tidal_search_track_fuzzy remote session
                  (Track.name t) (Track.artists t) (Track.duration_ms t))
                  (fun hit => ret (match hit with
                                   | Some h => c_id h
                                   | None => tid
                                   end)) w1)) = [] \/
               exists rs,
                 snd (fst (bind (tidal_search_track_fuzzy remote session
                  (Track.name t) (Track.artists t) (Track.duration_ms t))
                  (fun hit => ret (match hit with
                                   | Some h => c_id h
                                   | None => tid
                                   end)) w1)) =
                 [Http (SearchTracks
                    (strip (format_ostr (Track.name t) ++ lit " "
                            ++ Track.artists t)) 20) rs]).
  { rewrite bind_trace_ret. unfold tidal_search_track_fuzzy.
    destruct (negb _); [left; reflexivity|].
    set (q := strip _).
    pose proof (tidal_http_events remote session (SearchTracks q 20) w1) as He.
    unfold bind. destruct (tidal_http _ _ _ w1) as [[r2 t2] w2].
    cbn [fst snd] in He.
    assert (Het : snd (fst
              (match r2 with
               | Return a =>
                   let '(r3, t3, w3) :=
                     match search_items a with
                     | [] => ret None
                     | t0 :: _ =>
                         match first_within (Track.duration_ms t)
                                 (search_items a) with
                         | Some c => ret (Some c)
                         | None => ret (Some t0)
                         end
                     end w2 in (r3, t2 ++ t3, w3)
               | Raise e => (Raise e, t2, w2)
               end)) = t2).
    { destruct r2 as [a|e]; [|reflexivity].
      destruct (search_items a); cbn -[first_within];
        [rewrite app_nil_r; reflexivity|].
      destruct (first_within _ _); cbn; rewrite app_nil_r; reflexivity. }
    rewrite Het. destruct He as [-> | (rs & ->)]; [left; reflexivity|].
    right. exists rs. reflexivity. }
  destruct (bind _ _ w1) as [[r2 t2] w2]. cbn [fst snd] in *.
  exists t1, t2. auto.
Qed.

Hypothesis token : truthy_ostr (access_token session) = true.


(** X11. A search answered with a status of 400 or above raises: an
    ISRC search that fails is not followed by the fuzzy search, and in the
    loop over the tracks the exception ends the loop, so that no id and no
    row is kept for the playlist. *)
Theorem failed_isrc_search_is_not_retried_by_text
    t i w rs w1 name rest tidal_ids rows :
  Track.isrc t = Some i -> i <> [] ->
  remote (SearchTracks (lit "isrc:" ++ i) 5) w = (rs, w1) ->
  400 <= status_code rs ->
  resolve_track remote session t w =
    (Raise (RuntimeError
              (ApiStatus (SearchTracks (lit "isrc:" ++ i) 5) (status_code rs))),
     [Http (SearchTracks (lit "isrc:" ++ i) 5) rs], w1) /\
  resolve_tracks remote session name (t :: rest) tidal_ids rows w =
    (Raise (RuntimeError
              (ApiStatus (SearchTracks (lit "isrc:" ++ i) 5) (status_code rs))),
     [Http (SearchTracks (lit "isrc:" ++ i) 5) rs], w1).
Proof.
  intros Hi Hne Hr Hs.
  assert (Ha : isrc_attempt remote session t w =
    (Raise (RuntimeError
              (ApiStatus (SearchTracks (lit "isrc:" ++ i) 5) (status_code rs))),
     [Http (SearchTracks (lit "isrc:" ++ i) 5) rs], w1)).
  { rewrite (isrc_attempt_run remote session token t i w Hi Hne).
    cbv zeta. rewrite Hr. cbn [fst snd].
    replace (400 <=? status_code rs) with true
      by (symmetry; apply Z.leb_le; exact Hs).
    reflexivity. }
  assert (Hres : resolve_track remote session t w =
    (Raise (RuntimeError
              (ApiStatus (SearchTracks (lit "isrc:" ++ i) 5) (status_code rs))),
     [Http (SearchTracks (lit "isrc:" ++ i) 5) rs], w1)).
  { unfold resolve_track. rewrite (bind_Raise _ _ _ _ _ _ Ha). reflexivity. }
  split; [exact Hres|].
  cbn [resolve_tracks]. rewrite (bind_Raise _ _ _ _ _ _ Hres). reflexivity.
Qed.

End Resolver.

(** ** What the loop over the tracks keeps *)

Lemma kept_or_row name t tid :
  (List.length (kept tid) +
   List.length (if truthy_oint tid then [] else [not_found_row name t]))%nat
  = 1%nat.
Proof.
  destruct tid as [n|]; cbn; [|reflexivity].
  destruct (n =? 0); reflexivity.
Qed.

Lemma rows_of_tracks name tracks : forall outs,
  Forall (fun row => exists t, In t tracks /\ row = not_found_row name t)
         (rows_of name tracks outs).
Proof.
  induction tracks as [|t tracks IH]; intros outs; [constructor|].
  destruct outs as [|tid outs]; [constructor|]. cbn [rows_of].
  apply Forall_app. split.
  - destruct (truthy_oint tid); repeat constructor.
    exists t. split; [left|]; reflexivity.
  - eapply Forall_impl; [|apply IH].
    intros row (t' & Hin & ->). exists t'. split; [right; exact Hin|reflexivity].
Qed.

Section Kept.

Context {World : Type}.
Variable remote : request -> World -> response * World.
Variable session : Session.

Lemma resolver_runs_counts name w tracks outs tr w' :
  resolver_runs remote session w tracks outs tr w' ->
  (List.length (ids_of outs) + List.length (rows_of name tracks outs))%nat
  = List.length tracks.
Proof.
  induction 1 as [|w t tid tr w1 rest outs tr' w' _ _ IH]; [reflexivity|].
  unfold ids_of in *. cbn [flat_map rows_of List.length].
  rewrite !length_app. pose proof (kept_or_row name t tid). lia.
Qed.

(** X12. When the loop over the tracks of a playlist returns, every
    track has been either resolved or recorded, never both and never
    neither: the ids added and the rows added are together as many as the
    tracks; no id added is 0, and every row added is the row of a track of
    the playlist, under the playlist's name.  What was in the two lists
    before is kept in front. *)
Theorem every_track_is_resolved_or_recorded
    name tracks tidal_ids rows w ids rows' tr w' :
  resolve_tracks remote session name tracks tidal_ids rows w =
    (Return (ids, rows'), tr, w') ->
  exists new_ids new_rows,
    ids = tidal_ids ++ new_ids /\ rows' = rows ++ new_rows /\
    (List.length new_ids + List.length new_rows)%nat = List.length tracks /\
    ~ In 0 new_ids /\
    Forall (fun row => exists t, In t tracks /\ row = not_found_row name t)
           new_rows.
Proof.
  intros H.
  destruct (resolve_tracks_spec remote session name tracks _ _ _ _ _ _ _ H)
    as (outs & Hruns & -> & ->).
  exists (ids_of outs), (rows_of name tracks outs).
  repeat split.
  - apply (resolver_runs_counts name _ _ _ _ _ Hruns).
  - apply ids_of_nonzero.
  - apply rows_of_tracks.
Qed.

End Kept.

(** ** The writer: edges, bounds and pauses *)

Lemma http_count_app t1 t2 :
  http_count (t1 ++ t2) = (http_count t1 + http_count t2)%nat.
Proof.
  induction t1 as [|ev t1 IH]; [reflexivity|].
  destruct ev; cbn; rewrite IH; reflexivity.
Qed.

Lemma batch_run_http_count p chunk sleep_s r t :
  batch_run p chunk sleep_s r t -> (http_count t <= 4)%nat.
Proof. intros H. destruct H; cbn; lia. Qed.

Lemma writer_run_http_count p sleep_s cs r t :
  writer_run p sleep_s cs r t ->
  (http_count t <= 4 * List.length cs)%nat /\
  (List.length (posted t) <= 2 * List.length cs)%nat.
Proof.
  induction 1 as [|c rest x t Hb|c rest t r t2 Hb _ IH].
  - cbn. lia.
  - pose proof (batch_run_http_count _ _ _ _ _ Hb).
    destruct (batch_run_posted_count _ _ _ _ _ Hb) as (k & Hk & ->).
    rewrite repeat_length. cbn [List.length]. lia.
  - pose proof (batch_run_http_count _ _ _ _ _ Hb).
    destruct (batch_run_posted_count _ _ _ _ _ Hb) as (k & Hk & Hp).
    rewrite http_count_app, posted_app, length_app, Hp, repeat_length.
    cbn [List.length]. lia.
Qed.

Lemma batch_run_followed_return p chunk sleep_s t t2 :
  batch_run p chunk sleep_s (Return tt) t ->
  writes_followed sleep_s t2 ->
  writes_followed sleep_s (t ++ t2).
Proof.
  intros H H2. inversion H; subst; cbn; repeat split; eauto; try lia.
Qed.

Lemma batch_run_followed_raise p chunk sleep_s x t :
  batch_run p chunk sleep_s (Raise x) t -> writes_followed sleep_s t.
Proof.
  intros H. inversion H; subst; cbn; repeat split; eauto; try lia.
Qed.

Lemma writer_run_followed p sleep_s cs r t :
  writer_run p sleep_s cs r t -> writes_followed sleep_s t.
Proof.
  induction 1 as [|c rest x t Hb|c rest t r t2 Hb _ IH].
  - exact I.
  - apply (batch_run_followed_raise _ _ _ _ _ Hb).
  - apply (batch_run_followed_return _ _ _ _ _ Hb IH).
Qed.

Lemma writes_followed_split sleep_s tr :
  writes_followed sleep_s tr ->
  forall before p ids e rs after,
    tr = before ++ Http (PostItems p ids e) rs :: after ->
    (status_code rs < 400 -> exists rest, after = Sleep sleep_s :: rest) /\
    (status_code rs = 412 ->
     after = [] \/ exists rest, after = Sleep 500 :: rest) /\
    (400 <= status_code rs -> status_code rs <> 412 -> after = []).
Proof.
  intros H before. revert tr H.
  induction before as [|b before IH]; intros tr H p ids e rs after ->.
  - cbn in H. destruct H as [H _]. exact H.
  - cbn [app] in H.
    assert (H' : writes_followed sleep_s
                   (before ++ Http (PostItems p ids e) rs :: after)).
    { destruct b as [[ | | | ] rs' | |]; cbn in H; try exact H.
      exact (proj2 H). }
    exact (IH _ H' p ids e rs after eq_refl).
Qed.

Section WriterEdges.

Context {World : Type}.
Variable remote : request -> World -> response * World.
Variable session : Session.

(** X13. A batch size that is not positive writes nothing.  With a
    batch size of 0 the writer raises [ValueError] before any request,
    even for an empty list; with a negative batch size it returns at once,
    without any request and without an exception, whatever the ids. *)
Theorem non_positive_batch_writes_nothing p track_ids batch sleep_s w :
  batch <= 0 ->
  tidal_add_tracks_in_batches remote session p track_ids batch sleep_s w =
  (if batch =? 0 then Raise ValueError else Return tt, [], w).
Proof.
  intros Hb. unfold tidal_add_tracks_in_batches.
  destruct (Z.eq_dec batch 0) as [-> | Hne].
  - reflexivity.
  - rewrite py_range_negative by lia.
    replace (batch =? 0) with false by (symmetry; apply Z.eqb_neq; exact Hne).
    reflexivity.
Qed.

(** X14. For a positive batch size, the writer sends at most four
    requests for each batch (two reads of the ETag and two writes), of
    which at most two writes: over the n batches of the list, at most 4 n
    requests and 2 n write calls. *)
Theorem writer_requests_are_bounded p track_ids batch sleep_s w :
  0 < batch ->
  let n := List.length (range_up 0 (Z.of_nat (List.length track_ids)) batch) in
  (http_count
     (snd (fst (tidal_add_tracks_in_batches remote session p track_ids batch
                  sleep_s w))) <= 4 * n)%nat /\
  (List.length
     (posted
        (snd (fst (tidal_add_tracks_in_batches remote session p track_ids
                     batch sleep_s w)))) <= 2 * n)%nat.
Proof.
  intros Hb n.
  pose proof (writer_shape remote session p track_ids batch sleep_s w _
                (py_range_positive _ batch Hb)) as Hw.
  pose proof (writer_run_http_count _ _ _ _ _ Hw) as H.
  unfold chunks_at in H. rewrite length_map in H. exact H.
Qed.

(** X15. In every run of the writer, a write that the service takes
    (status under 400) is followed at once by the pause [sleep_s]; a write
    answered 412 is followed by the wait of 500 ms before the retry, or by
    nothing when it was the retry; after a write refused with another
    status the writer does nothing more. *)
Theorem every_write_is_followed_by_its_pause
    p track_ids batch sleep_s w before q ids e rs after :
  snd (fst (tidal_add_tracks_in_batches remote session p track_ids batch
              sleep_s w)) =
    before ++ Http (PostItems q ids e) rs :: after ->
  (status_code rs < 400 -> exists rest, after = Sleep sleep_s :: rest) /\
  (status_code rs = 412 ->
   after = [] \/ exists rest, after = Sleep 500 :: rest) /\
  (400 <= status_code rs -> status_code rs <> 412 -> after = []).
Proof.
  intros Heq.
  apply (writes_followed_split sleep_s _) with (2 := Heq).
  destruct (py_range 0 (Z.of_nat (List.length track_ids)) batch)
    as [starts|] eqn:Hr.
  - apply (writer_run_followed p sleep_s _ _ _
             (writer_shape remote session p track_ids batch sleep_s w
                starts Hr)).
  - unfold tidal_add_tracks_in_batches. rewrite Hr. exact I.
Qed.

End WriterEdges.

(** ** The report and the playlists of a run *)

Lemma created_app t1 t2 : created (t1 ++ t2) = created t1 ++ created t2.
Proof.
  induction t1 as [|ev t1 IH]; [reflexivity|].
  destruct ev as [[ | | |] rs | |]; cbn; rewrite ?IH; reflexivity.
Qed.

Lemma batch_run_created p chunk sleep_s r t :
  batch_run p chunk sleep_s r t -> created t = [].
Proof. intros H. destruct H; reflexivity. Qed.

Lemma writer_run_created p sleep_s cs r t :
  writer_run p sleep_s cs r t -> created t = [].
Proof.
  induction 1 as [|c rest x t Hb|c rest t r t2 Hb _ IH].
  - reflexivity.
  - apply (batch_run_created _ _ _ _ _ Hb).
  - rewrite created_app, IH, (batch_run_created _ _ _ _ _ Hb). reflexivity.
Qed.

Section Report.

Context {World : Type}.
Variable remote : request -> World -> response * World.
Variable session : Session.
Variable TIDAL_ADD_BATCH : Z.

Lemma writer_quiet p track_ids batch sleep_s w :
  reports (snd (fst (tidal_add_tracks_in_batches remote session p track_ids
                       batch sleep_s w))) = [] /\
  created (snd (fst (tidal_add_tracks_in_batches remote session p track_ids
                       batch sleep_s w))) = [].
Proof.
  destruct (py_range 0 (Z.of_nat (List.length track_ids)) batch)
    as [starts|] eqn:Hr.
  - pose proof (writer_shape remote session p track_ids batch sleep_s w
                  starts Hr) as Hw.
    split; [apply (writer_run_reports _ _ _ _ _ Hw)
           |apply (writer_run_created _ _ _ _ _ Hw)].
  - unfold tidal_add_tracks_in_batches. rewrite Hr. split; reflexivity.
Qed.

(** One turn of the loop over the playlists: its events and its rows. *)
Lemma migrate_playlist_turn pl rows w r tr w' :
  migrate_playlist remote session TIDAL_ADD_BATCH pl rows w = (r, tr, w') ->
  reports tr = [] /\
  (created tr = [] \/ created tr = [firstn 255 (pl_name pl)]) /\
  (forall rows', r = Return rows' ->
     created tr = [firstn 255 (pl_name pl)] /\
     exists (new_ids : list Z) (new_rows : list Row.t),
       rows' = rows ++ new_rows /\
       (List.length new_ids + List.length new_rows)%nat
         = List.length (pl_tracks pl) /\
       Forall (fun row => exists t, In t (pl_tracks pl) /\
                                    row = not_found_row (pl_name pl) t)
              new_rows /\
       (new_ids = [] -> Forall no_item_request tr)).
Proof.
  unfold migrate_playlist. intros H.
  set (description :=
         or_empty (pl_description pl) ++ lit " (imported from Spotify)") in *.
  destruct (bind_inv _ _ _ _ _ _ H)
    as [(x & -> & Hc) | (pid & t1 & w1 & t2 & Hc & H2 & ->)].
  - (* the creation raises *)
    rewrite tidal_create_playlist_run in Hc.
    destruct (login session) as [l|];
      [|injection Hc as _ <- _; cbn; repeat split; auto; discriminate].
    destruct (bind_inv _ _ _ _ _ _ Hc)
      as [(y & _ & Hh) | (resp & t0 & w0 & t3 & Hh & Hk & ->)].
    + pose proof (tidal_http_events remote session
                    (CreatePlaylist (firstn 255 (pl_name pl))
                       (firstn 1000 description) true) w) as He.
      rewrite Hh in He. cbn [fst snd] in He.
      destruct He as [-> | (rs & ->)]; cbn; repeat split; auto; discriminate.
    + pose proof (tidal_http_events remote session
                    (CreatePlaylist (firstn 255 (pl_name pl))
                       (firstn 1000 description) true) w) as He.
      rewrite Hh in He. cbn [fst snd] in He.
      assert (t3 = []) as ->.
      { cbv zeta in Hk.
        destruct (negb _) in Hk; unfold raise, ret in Hk; congruence. }
      destruct He as [-> | (rs & ->)]; cbn; repeat split; auto; discriminate.
  - (* the creation returns *)
    assert (Ht1 : exists rs,
               t1 = [Http (CreatePlaylist (firstn 255 (pl_name pl))
                             (firstn 1000 description) true) rs]).
    { rewrite tidal_create_playlist_run in Hc.
      destruct (login session) as [l|]; [|discriminate].
      destruct (bind_inv _ _ _ _ _ _ Hc)
        as [(y & Hy & _) | (resp & t0 & w0 & t3 & Hh & Hk & ->)];
        [discriminate|].
      assert (t3 = []) as ->.
      { cbv zeta in Hk.
        destruct (negb _) in Hk; unfold raise, ret in Hk; congruence. }
      rewrite app_nil_r.
      destruct (truthy_ostr (access_token session)) eqn:Et.
      - rewrite (tidal_http_run remote session Et) in Hh.
        injection Hh as _ <- _. eexists. reflexivity.
      - rewrite (tidal_http_no_token remote session _ _ Et) in Hh.
        discriminate. }
    destruct Ht1 as (rs & ->).
    destruct (bind_inv _ _ _ _ _ _ H2)
      as [(x & -> & Hr) | ([ids rows2] & t3 & w3 & t4 & Hr & H3 & ->)].
    + pose proof (resolve_tracks_searches_only remote session (pl_name pl)
                    (pl_tracks pl) [] rows w1) as Hs.
      rewrite Hr in Hs. cbn [fst snd] in Hs.
      destruct (searches_only_quiet [] _ Hs) as (_ & _ & Hrep & Hcr).
      cbn [app reports created]. rewrite Hrep, Hcr.
      repeat split; auto. discriminate.
    + pose proof (resolve_tracks_searches_only remote session (pl_name pl)
                    (pl_tracks pl) [] rows w1) as Hs.
      rewrite Hr in Hs. cbn [fst snd] in Hs.
      destruct (searches_only_quiet [] _ Hs) as (_ & _ & Hrep & Hcr).
      destruct (resolve_tracks_spec remote session _ _ _ _ _ _ _ _ _ Hr)
        as (outs & Hruns & Hids & Hrows).
      cbn [app] in Hids.
      destruct (bind_inv _ _ _ _ _ _ H3)
        as [(x & -> & Hw) | ([] & t5 & w5 & t6 & Hw & Hret & ->)].
      * assert (Hq : reports t4 = [] /\ created t4 = []).
        { destruct ids as [|i ids]; [unfold ret in Hw; discriminate|].
          pose proof (writer_quiet pid (i :: ids) TIDAL_ADD_BATCH 300 w3) as Hq.
          rewrite Hw in Hq. exact Hq. }
        destruct Hq as [Hq1 Hq2].
        cbn [app reports created].
        rewrite reports_app, created_app, Hrep, Hcr, Hq1, Hq2.
        repeat split; auto. discriminate.
      * unfold ret in Hret. injection Hret as <- <- <-.
        assert (Hq : reports t5 = [] /\ created t5 = [] /\
                     (ids = [] -> t5 = [])).
        { destruct ids as [|i ids].
          - unfold ret in Hw. injection Hw as <- _. repeat split.
          - pose proof (writer_quiet pid (i :: ids) TIDAL_ADD_BATCH 300 w3)
              as Hq.
            rewrite Hw in Hq. destruct Hq. repeat split; auto. discriminate. }
        destruct Hq as (Hq1 & Hq2 & Hq3).
        cbn [app reports created].
        rewrite !reports_app, !created_app, Hrep, Hcr, Hq1, Hq2.
        split; [reflexivity|]. split; [right; reflexivity|].
        intros rows' [= <-]. split; [reflexivity|].
        exists ids, (rows_of (pl_name pl) (pl_tracks pl) outs).
        split; [exact Hrows|]. split; [|split].
        -- rewrite Hids.
           apply (resolver_runs_counts remote session _ _ _ _ _ _ Hruns).
        -- apply rows_of_tracks.
        -- intros Hnil. rewrite (Hq3 Hnil), !app_nil_r.
           constructor; [exact I|].
           eapply Forall_impl; [|exact Hs].
           intros ev (q & l & rs' & ->). exact I.
Qed.

End Report.

Section Run.

Context {World : Type}.
Variable remote : request -> World -> response * World.
Variable session : Session.
Variable TIDAL_ADD_BATCH : Z.

Lemma migrate_loop_turns sp_pls : forall rows w r tr w',
  migrate_loop remote session TIDAL_ADD_BATCH sp_pls rows w = (r, tr, w') ->
  reports tr = [] /\
  (exists k,
      created tr = map (fun pl => firstn 255 (pl_name pl)) (firstn k sp_pls) /\
      (forall rows', r = Return rows' -> k = List.length sp_pls)) /\
  (forall rows', r = Return rows' ->
     exists more,
       rows' = rows ++ more /\
       Forall (fun row => exists pl t,
                   In pl sp_pls /\ In t (pl_tracks pl) /\
                   row = not_found_row (pl_name pl) t) more).
Proof.
  induction sp_pls as [|pl rest IH]; intros rows w r tr w' H.
  - cbn in H. injection H as <- <- <-. split; [reflexivity|]. split.
    + exists 0%nat. split; reflexivity.
    + intros rows' [= <-]. exists []. rewrite app_nil_r. split; constructor.
  - cbn [migrate_loop] in H.
    destruct (bind_inv _ _ _ _ _ _ H)
      as [(x & -> & Hp) | (rows1 & t1 & w1 & t2 & Hp & Hrest & ->)].
    + destruct (migrate_playlist_turn remote session TIDAL_ADD_BATCH
                  pl rows w _ _ _ Hp) as (Hrep & Hcr & _).
      split; [exact Hrep|]. split; [|discriminate].
      destruct Hcr as [-> | ->].
      * exists 0%nat. split; [reflexivity|discriminate].
      * exists 1%nat. split; [destruct rest; reflexivity|discriminate].
    + destruct (migrate_playlist_turn remote session TIDAL_ADD_BATCH
                  pl rows w _ _ _ Hp) as (Hrep & _ & Hret).
      destruct (Hret rows1 eq_refl)
        as (Hcr & new_ids & new_rows & -> & _ & Hrows & _).
      destruct (IH _ _ _ _ _ Hrest) as (Hrep2 & (k & Hcr2 & Hk) & Hmore).
      split; [rewrite reports_app, Hrep, Hrep2; reflexivity|]. split.
      * exists (S k). split.
        -- rewrite created_app, Hcr, Hcr2. reflexivity.
        -- intros rows' Hr. cbn [List.length]. f_equal. apply (Hk rows' Hr).
      * intros rows' Hr. destruct (Hmore rows' Hr) as (more & -> & Hm).
        exists (new_rows ++ more). split; [rewrite app_assoc; reflexivity|].
        apply Forall_app. split.
        -- eapply Forall_impl; [|exact Hrows].
           intros row (t & Hin & ->). exists pl, t.
           split; [left; reflexivity|]. split; [exact Hin|reflexivity].
        -- eapply Forall_impl; [|exact Hm].
           intros row (pl' & t & Hin & Ht & ->). exists pl', t.
           split; [right; exact Hin|]. split; [exact Ht|reflexivity].
Qed.

(** X16. A run of the migration writes at most one report, as its last
    event.  A run that raises writes none, whatever rows it had collected;
    a run that returns writes one exactly when some track was not
    resolved, and every row of it is the row of a track of one of the
    source playlists, under that playlist's name. *)
Theorem report_is_written_last_or_never sp_pls w :
  match fst (fst (migrate_all_playlists remote session TIDAL_ADD_BATCH
                    sp_pls w)) with
  | Raise _ =>
      reports (snd (fst (migrate_all_playlists remote session TIDAL_ADD_BATCH
                           sp_pls w))) = []
  | Return _ =>
      reports (snd (fst (migrate_all_playlists remote session TIDAL_ADD_BATCH
                           sp_pls w))) = [] \/
      exists rows tr0,
        snd (fst (migrate_all_playlists remote session TIDAL_ADD_BATCH
                    sp_pls w)) = tr0 ++ [Report rows] /\
        reports tr0 = [] /\ rows <> [] /\
        Forall (fun row => exists pl t,
                    In pl sp_pls /\ In t (pl_tracks pl) /\
                    row = not_found_row (pl_name pl) t) rows
  end.
Proof.
  unfold migrate_all_playlists. unfold bind.
  destruct (migrate_loop remote session TIDAL_ADD_BATCH sp_pls [] w)
    as [[r tr] w1] eqn:E.
  destruct (migrate_loop_turns sp_pls [] w r tr w1 E) as (Hrep & _ & Hrows).
  destruct r as [rows|x]; [|exact Hrep].
  destruct (Hrows rows eq_refl) as (more & -> & Hm). cbn [app] in *.
  destruct more as [|row more]; cbn.
  - left. rewrite app_nil_r. exact Hrep.
  - right. exists (row :: more), tr. repeat split; auto. discriminate.
Qed.

(** X17. The playlists are created in the order of the source, one
    creation request for each source playlist reached, under the first 255
    characters of its name: the titles sent are those of the first k source
    playlists, and of all of them when the run returns. *)
Theorem playlists_are_created_in_source_order sp_pls w :
  exists k,
    created (snd (fst (migrate_all_playlists remote session TIDAL_ADD_BATCH
                         sp_pls w))) =
    map (fun pl => firstn 255 (pl_name pl)) (firstn k sp_pls) /\
    (fst (fst (migrate_all_playlists remote session TIDAL_ADD_BATCH sp_pls w))
       = Return tt -> k = List.length sp_pls).
Proof.
  unfold migrate_all_playlists. unfold bind.
  destruct (migrate_loop remote session TIDAL_ADD_BATCH sp_pls [] w)
    as [[r tr] w1] eqn:E.
  destruct (migrate_loop_turns sp_pls [] w r tr w1 E)
    as (_ & (k & Hcr & Hk) & _).
  exists k. destruct r as [rows|x].
  - split; [|intros _; apply (Hk rows eq_refl)].
    destruct rows; cbn -[created firstn]; rewrite created_app, Hcr; cbn;
      rewrite app_nil_r; reflexivity.
  - split; [exact Hcr|discriminate].
Qed.

(** X18. A playlist none of whose tracks is resolved (an empty source
    playlist among them) is created all the same and left empty: when its
    turn returns with one row for every track, the turn has sent the
    creation request and searches only, no read of the ETag and no write. *)
Theorem unresolved_playlist_is_created_empty pl rows w rows' tr w' :
  migrate_playlist remote session TIDAL_ADD_BATCH pl rows w =
    (Return rows', tr, w') ->
  List.length rows' = (List.length rows + List.length (pl_tracks pl))%nat ->
  created tr = [firstn 255 (pl_name pl)] /\ Forall no_item_request tr.
Proof.
  intros H Hlen.
  destruct (migrate_playlist_turn remote session TIDAL_ADD_BATCH
              pl rows w _ _ _ H) as (_ & _ & Hret).
  destruct (Hret rows' eq_refl)
    as (Hcr & new_ids & new_rows & -> & Hcount & _ & Hquiet).
  split; [exact Hcr|]. apply Hquiet.
  rewrite length_app in Hlen. destruct new_ids; [reflexivity|].
  cbn [List.length] in Hcount. lia.
Qed.

End Run.

(** ** The Spotify reader *)

Lemma artist_names_none l :
  artist_names l = None <-> exists a, In a l /\ a_name a = None.
Proof.
  induction l as [|a l IH]; cbn.
  - split; [discriminate|]. intros (a & [] & _).
  - destruct (a_name a) as [n|] eqn:En.
    + destruct (artist_names l) as [ns|] eqn:El.
      * split; [discriminate|]. intros (b & [<- | Hb] & Hn); [congruence|].
        destruct IH as [_ IH]. discriminate IH. exists b. auto.
      * split; [|reflexivity]. intros _.
        destruct IH as [IH _]. destruct (IH eq_refl) as (b & Hb & Hn).
        exists b. auto.
    + split; [|reflexivity]. intros _. exists a. auto.
Qed.

(** X19. The dict of a track is built unless an artist has no name:
    then, and only then, [", ".join] raises [TypeError].  Otherwise the
    artists string is the names joined by ", " (empty for a track without
    artists), a missing duration counts as 0 and a track without external
    ids has no ISRC. *)
Theorem track_without_artist_name_raises tr :
  (track_dict tr = Failed TypeError <->
   exists a, In a (track_artists tr) /\ a_name a = None) /\
  (forall names,
      artist_names (track_artists tr) = Some names ->
      track_dict tr =
      Read {| Track.name := tr_name tr;
              Track.album := match tr_album tr with
                             | Some al => al_name al
                             | None => None
                             end;
              Track.artists := join (lit ", ") names;
              Track.duration_ms := match tr_duration_ms tr with
                                   | Some d => d
                                   | None => 0
                                   end;
              Track.isrc := match tr_external_ids tr with
                            | Some ext => e_isrc ext
                            | None => None
                            end |}).
Proof.
  split.
  - rewrite <- artist_names_none. unfold track_dict, track_artists.
    destruct (artist_names _); split; congruence.
  - intros names H. unfold track_dict. fold (track_artists tr).
    rewrite H. reflexivity.
Qed.

Lemma read_items_app a : forall b tracks,
  read_items (a ++ b) tracks =
  match read_items a tracks with
  | Read tracks' => read_items b tracks'
  | Failed e => Failed e
  | Unfinished => Unfinished
  end.
Proof.
  induction a as [|it a IH]; intros b tracks; [reflexivity|].
  cbn. destruct (i_track it) as [tr|]; [|apply IH].
  destruct (track_dict tr); [apply IH|reflexivity|reflexivity].
Qed.

(** X20. The loop over the items of a page skips the items without a
    track and keeps the order: when it returns, the tracks it has appended
    are the dicts of the [track] objects of the items that have one, one
    for one and in their order, after the tracks it was given. *)
Theorem items_without_track_are_skipped items : forall tracks tracks',
  read_items items tracks = Read tracks' ->
  exists ds,
    tracks' = tracks ++ ds /\
    Forall2 (fun tr d => track_dict tr = Read d) (item_tracks items) ds /\
    (List.length ds <= List.length items)%nat.
Proof.
  induction items as [|it items IH]; intros tracks tracks' H.
  - cbn in H. injection H as <-. exists []. rewrite app_nil_r.
    repeat split; [constructor|cbn; lia].
  - cbn in H. unfold item_tracks. cbn [flat_map].
    destruct (i_track it) as [tr|].
    + destruct (track_dict tr) as [d| |] eqn:Ed; try discriminate.
      destruct (IH _ _ H) as (ds & -> & Hds & Hlen).
      exists (d :: ds). rewrite <- app_assoc. repeat split.
      * constructor; assumption.
      * cbn. lia.
    + destruct (IH _ _ H) as (ds & -> & Hds & Hlen).
      exists ds. repeat split; [exact Hds|]. cbn. lia.
Qed.

Section Pages.

Variable playlist_items : pystr -> Z -> Z -> sp_page sp_item.

Lemma sp_playlist_tracks_loop_pages playlist_id limit n :
  forall j0 fuel tracks,
    (forall j, (j0 <= j < j0 + n)%nat ->
       truthy_ostr (p_next (playlist_items playlist_id
                              (limit * Z.of_nat j) limit)) = true) ->
    truthy_ostr (p_next (playlist_items playlist_id
                           (limit * Z.of_nat (j0 + n)) limit)) = false ->
    (n < fuel)%nat ->
    sp_playlist_tracks_loop playlist_items playlist_id limit fuel
      (limit * Z.of_nat j0) tracks =
    read_items
      (flat_map (fun j => page_items (playlist_items playlist_id
                                        (limit * Z.of_nat j) limit))
                (seq j0 (S n)))
      tracks.
Proof.
  induction n as [|n IH]; intros j0 fuel tracks Hnext Hlast Hfuel.
  - destruct fuel as [|fuel]; [lia|]. cbn [sp_playlist_tracks_loop seq flat_map].
    rewrite app_nil_r. fold (page_items (playlist_items playlist_id
                                           (limit * Z.of_nat j0) limit)).
    rewrite Nat.add_0_r in Hlast. rewrite Hlast.
    destruct (read_items _ tracks); reflexivity.
  - destruct fuel as [|fuel]; [lia|].
    cbn [sp_playlist_tracks_loop]. cbn [seq flat_map].
    fold (page_items (playlist_items playlist_id (limit * Z.of_nat j0) limit)).
    rewrite read_items_app.
    rewrite (Hnext j0) by lia.
    destruct (read_items _ tracks) as [tracks1| |]; try reflexivity.
    replace (limit * Z.of_nat j0 + limit) with (limit * Z.of_nat (S j0)) by lia.
    apply IH.
    + intros j Hj. apply Hnext. lia.
    + replace (S j0 + n)%nat with (j0 + S n)%nat by lia. exact Hlast.
    + lia.
Qed.

(** X21. The tracks of a playlist are read page by page, at the offsets
    0, 100, 200, ...: when the pages at the first k of these offsets say
    there is a next page and the page after them does not, the reader
    (given more than k turns) returns what the loop over the items makes
    of the items of these k + 1 pages put end to end, and reads no page
    beyond. *)
Theorem playlist_is_read_page_by_page playlist_id k fuel :
  (forall j, (j < k)%nat ->
     truthy_ostr (p_next (playlist_items playlist_id
                            (100 * Z.of_nat j) 100)) = true) ->
  truthy_ostr (p_next (playlist_items playlist_id
                         (100 * Z.of_nat k) 100)) = false ->
  (k < fuel)%nat ->
  sp_playlist_tracks playlist_items fuel playlist_id =
  read_items
    (flat_map (fun j => page_items (playlist_items playlist_id
                                      (100 * Z.of_nat j) 100))
              (seq 0 (S k)))
    [].
Proof.
  intros Hnext Hlast Hfuel. unfold sp_playlist_tracks.
  apply (sp_playlist_tracks_loop_pages playlist_id 100 k 0 fuel []).
  - intros j Hj. apply Hnext. lia.
  - exact Hlast.
  - exact Hfuel.
Qed.

End Pages.

Lemma sp_paginate_loop_pages {A} (method : Z -> Z -> sp_page A) limit
    (data : nat -> list A) n :
  forall j0 fuel items,
    (forall j, (j0 <= j <= j0 + n)%nat ->
       page_data (method limit (limit * Z.of_nat j)) = Read (data j)) ->
    (forall j, (j0 <= j < j0 + n)%nat ->
       truthy_ostr (p_next (method limit (limit * Z.of_nat j))) = true) ->
    truthy_ostr (p_next (method limit (limit * Z.of_nat (j0 + n)))) = false ->
    (n < fuel)%nat ->
    sp_paginate_loop method limit fuel (limit * Z.of_nat j0) items =
    Read (items ++ flat_map data (seq j0 (S n))).
Proof.
  induction n as [|n IH]; intros j0 fuel items Hdata Hnext Hlast Hfuel.
  - destruct fuel as [|fuel]; [lia|]. cbn [sp_paginate_loop seq flat_map].
    rewrite (Hdata j0) by lia. rewrite Nat.add_0_r in Hlast. rewrite Hlast.
    rewrite app_nil_r. reflexivity.
  - destruct fuel as [|fuel]; [lia|]. cbn [sp_paginate_loop].
    rewrite (Hdata j0) by lia. rewrite (Hnext j0) by lia.
    replace (limit * Z.of_nat j0 + limit) with (limit * Z.of_nat (S j0)) by lia.
    rewrite (IH (S j0) fuel (items ++ data j0)).
    + cbn [seq flat_map]. rewrite <- app_assoc. reflexivity.
    + intros j Hj. apply Hdata. lia.
    + intros j Hj. apply Hnext. lia.
    + replace (S j0 + n)%nat with (j0 + S n)%nat by lia. exact Hlast.
    + lia.
Qed.

Lemma sp_paginate_loop_fails {A} (method : Z -> Z -> sp_page A) limit
    (data : nat -> list A) e n :
  forall j0 fuel items,
    (forall j, (j0 <= j < j0 + n)%nat ->
       page_data (method limit (limit * Z.of_nat j)) = Read (data j) /\
       truthy_ostr (p_next (method limit (limit * Z.of_nat j))) = true) ->
    page_data (method limit (limit * Z.of_nat (j0 + n))) = Failed e ->
    (n < fuel)%nat ->
    sp_paginate_loop method limit fuel (limit * Z.of_nat j0) items = Failed e.
Proof.
  induction n as [|n IH]; intros j0 fuel items Hok Hbad Hfuel.
  - destruct fuel as [|fuel]; [lia|]. cbn [sp_paginate_loop].
    rewrite Nat.add_0_r in Hbad. rewrite Hbad. reflexivity.
  - destruct fuel as [|fuel]; [lia|]. cbn [sp_paginate_loop].
    destruct (Hok j0 ltac:(lia)) as [-> ->].
    replace (limit * Z.of_nat j0 + limit) with (limit * Z.of_nat (S j0)) by lia.
    apply IH.
    + intros j Hj. apply Hok. lia.
    + replace (S j0 + n)%nat with (j0 + S n)%nat by lia. exact Hbad.
    + lia.
Qed.

(** X22. [sp_paginate] asks for the pages at the offsets 0, limit,
    2 limit, ... while a page says there is a next one, and returns what
    the pages contribute, put end to end in the order of the pages.  A
    page contributes its [items] when that list is not empty, else its
    [tracks.items] when present, else its (empty) [items]; a page that has
    neither key makes the whole call raise [KeyError]. *)
Theorem pages_are_collected_in_order {A}
    (method : Z -> Z -> sp_page A) limit (data : nat -> list A) k fuel :
  (forall j, (j < k)%nat ->
     page_data (method limit (limit * Z.of_nat j)) = Read (data j) /\
     truthy_ostr (p_next (method limit (limit * Z.of_nat j))) = true) ->
  (k < fuel)%nat ->
  (page_data (method limit (limit * Z.of_nat k)) = Read (data k) ->
   truthy_ostr (p_next (method limit (limit * Z.of_nat k))) = false ->
   sp_paginate fuel method limit = Read (flat_map data (seq 0 (S k)))) /\
  (p_items (method limit (limit * Z.of_nat k)) = None ->
   p_tracks_items (method limit (limit * Z.of_nat k)) = None ->
   sp_paginate fuel method limit = Failed KeyError).
Proof.
  intros Hok Hfuel. split.
  - intros Hk Hlast. unfold sp_paginate.
    rewrite <- (Z.mul_0_r limit) at 1.
    apply (sp_paginate_loop_pages method limit data k 0 fuel []).
    + intros j Hj. destruct (Nat.eq_dec j k) as [-> | Hne]; [exact Hk|].
      apply Hok. lia.
    + intros j Hj. apply Hok. lia.
    + exact Hlast.
    + exact Hfuel.
  - intros Hi Ht. unfold sp_paginate.
    rewrite <- (Z.mul_0_r limit) at 1.
    apply (sp_paginate_loop_fails method limit data KeyError k 0 fuel []).
    + intros j Hj. apply Hok. lia.
    + unfold page_data. cbn [Nat.add]. rewrite Hi, Ht. reflexivity.
    + exact Hfuel.
Qed.

(** ** The name filter *)

Lemma starts_with_incl s : forall p c,
  starts_with s p = true -> In c p -> In c s.
Proof.
  induction s as [|d s IH]; intros p c H Hin.
  - destruct p; [destruct Hin|discriminate].
  - destruct p as [|e p]; [destruct Hin|]. cbn in H.
    apply andb_prop in H. destruct H as [He Hs]. apply N.eqb_eq in He.
    destruct Hin as [<- | Hin]; [left; congruence|].
    right. apply (IH p c Hs Hin).
Qed.

Lemma contains_incl s : forall p c,
  contains s p = true -> In c p -> In c s.
Proof.
  induction s as [|d s IH]; intros p c H Hin.
  - cbn in H. rewrite orb_false_r in H. apply (starts_with_incl [] p c H Hin).
  - cbn [contains] in H. apply orb_prop in H. destruct H as [H|H].
    + apply (starts_with_incl (d :: s) p c H Hin).
    + right. apply (IH p c H Hin).
Qed.

Lemma ascii_lower_has_no_capital s :
  Forall (fun c => ~ (65 <= c <= 90)%N) (ascii_lower s).
Proof.
  induction s as [|c s IH]; [constructor|]. cbn. constructor; [|exact IH].
  destruct (65 <=? c)%N eqn:E1; destruct (c <=? 90)%N eqn:E2; cbn;
    try apply N.leb_le in E1; try apply N.leb_le in E2;
    try apply N.leb_gt in E1; try apply N.leb_gt in E2; lia.
Qed.

Section FilterProperties.

Variable lower : pystr -> pystr.

(** X23. What the name filter never selects.  As lower case never
    holds a capital letter A to Z, a filter that holds one selects no
    playlist at all: [migrate_all_playlists] compares the filter as given
    with the lowered names (only [main] lowers the filter).  And, the lower
    case of the empty string being empty, a non-empty filter never selects
    a playlist without a name. *)
Theorem filter_never_selects playlist_filter sp_pls :
  (forall s, Forall (fun c => ~ (65 <= c <= 90)%N) (lower s)) ->
  lower [] = [] ->
  (forall c, In c playlist_filter -> (65 <= c <= 90)%N ->
             filter_playlists lower playlist_filter sp_pls = []) /\
  (playlist_filter <> [] ->
   forall pl, In pl (filter_playlists lower playlist_filter sp_pls) ->
              In pl sp_pls /\ exists n, spl_name pl = Some n /\ n <> []).
Proof.
  intros Hlow Hnil. split.
  - intros c Hin Hcap. unfold filter_playlists.
    destruct playlist_filter as [|d flt]; [destruct Hin|].
    cbn [truthy_str].
    induction sp_pls as [|pl pls IH]; [reflexivity|]. cbn [filter].
    destruct (contains _ _) eqn:E; [|exact IH].
    exfalso. pose proof (contains_incl _ _ c E Hin) as Hc.
    pose proof (Hlow (or_empty (spl_name pl))) as Hf.
    rewrite Forall_forall in Hf. apply (Hf c Hc Hcap).
  - intros Hne pl Hin. unfold filter_playlists in Hin.
    destruct playlist_filter as [|d flt]; [congruence|].
    cbn [truthy_str] in Hin. apply filter_In in Hin.
    destruct Hin as [Hin Hc]. split; [exact Hin|].
    destruct (spl_name pl) as [[|ch n]|]; cbn [or_empty] in Hc.
    + rewrite Hnil in Hc. discriminate.
    + exists (ch :: n). split; [reflexivity|discriminate].
    + rewrite Hnil in Hc. discriminate.
Qed.

End FilterProperties.

(** ** From a Spotify track to its search *)

Section Composition.

Context {World : Type}.
Variable remote : request -> World -> response * World.
Variable session : Session.

(** X24. A Spotify track without ISRC (no external ids, none among
    them, or an empty one) is looked up by text only: the resolver, run on
    the dict the reader builds for it, sends no ISRC search and its result
    is that of the fuzzy search for the title and the artists' names
    joined by ", ", against the duration read (0 when absent). *)
Theorem track_without_isrc_is_searched_by_text tr names w :
  artist_names (track_artists tr) = Some names ->
  truthy_ostr (match tr_external_ids tr with
               | Some ext => e_isrc ext
               | None => None
               end) = false ->
  exists t,
    track_dict tr = Read t /\
    resolve_track remote session t w =
    (let '(r, tr', w') :=
       tidal_search_track_fuzzy remote session (tr_name tr)
         (join (lit ", ") names)
         (match tr_duration_ms tr with Some d => d | None => 0 end) w in
     (match r with
      | Return hit =>
          Return (match hit with Some h => c_id h | None => None end)
      | Raise x => Raise x
      end, tr', w')).
Proof.
  intros Hn Hi. eexists. split.
  - unfold track_dict. fold (track_artists tr). rewrite Hn. reflexivity.
  - rewrite (resolve_track_fuzzy_stage remote session _ w None [] w).
    + reflexivity.
    + apply isrc_attempt_none. exact Hi.
    + reflexivity.
Qed.

End Composition.

(** ** The further properties on sample runs *)

Lemma without_access_token_nothing_is_sent_witness :
  migrate_all_playlists (scripted (plain 200)) logged_out 100 (mixed :: [])
    [plain 500] =
    (Raise AttributeError, [], [plain 500]) /\
  migrate_all_playlists (scripted (plain 200)) empty_token 100 (mixed :: [])
    [plain 500] =
    (Raise (RuntimeError NoAccessToken), [], [plain 500]).
Proof.
  split.
  - exact (proj2 (proj2 (without_access_token_nothing_is_sent
                           (scripted (plain 200)) logged_out 100 eq_refl))
             mixed [] [plain 500]).
  - exact (proj2 (proj2 (without_access_token_nothing_is_sent
                           (scripted (plain 200)) empty_token 100 eq_refl))
             mixed [] [plain 500]).
Defined.

(** An answer 200 without ETag header. *)
Lemma etag_read_is_checked_witness :
  let g := fst (scripted (plain 200) (GetItems (lit "pl-1")) [plain 200]) in
  [Http (GetItems (lit "pl-1")) (plain 200)] =
    [Http (GetItems (lit "pl-1")) g] /\
  [] = snd (scripted (plain 200) (GetItems (lit "pl-1")) [plain 200]) /\
  ((400 <= status_code g /\
    RuntimeError ETagAbsent = RuntimeError (ETagStatus (status_code g))) \/
   (status_code g < 400 /\ truthy_ostr (header_ETag g) = false /\
    RuntimeError ETagAbsent = RuntimeError ETagAbsent)).
Proof.
  exact (etag_read_is_checked (scripted (plain 200)) logged_in eq_refl
           (lit "pl-1") [plain 200] (Raise (RuntimeError ETagAbsent))
           [Http (GetItems (lit "pl-1")) (plain 200)] [] eq_refl).
Defined.

(** A creation answered with a uuid. *)
Lemma playlist_id_is_uuid_then_id_witness :
  let rq := CreatePlaylist (firstn 255 (lit "Mixed")) (firstn 1000 (lit "d"))
              true in
  let rs := fst (stateless catalogue rq tt) in
  [Http rq (new_playlist "pl-1")] = [Http rq rs] /\
  tt = snd (stateless catalogue rq tt) /\
  lit "pl-1" <> [] /\ status_code rs < 400 /\
  (j_uuid (json rs) = Some (lit "pl-1") \/
   truthy_ostr (j_uuid (json rs)) = false /\ j_id (json rs) = Some (lit "pl-1")).
Proof.
  exact (playlist_id_is_uuid_then_id (stateless catalogue) logged_in eq_refl
           (lit "Mixed") (lit "d") tt (Return (lit "pl-1"))
           [Http (CreatePlaylist (firstn 255 (lit "Mixed"))
                    (firstn 1000 (lit "d")) true) (new_playlist "pl-1")]
           tt eq_refl).
Defined.

Lemma fuzzy_search_is_skipped_iff_blank_witness :
  snd (fst (tidal_search_track_fuzzy (stateless catalogue) logged_in
              (Some (lit " ")) [] 0 tt)) = [] <->
  exists s, Some (lit " ") = Some s /\
            Forall (fun c => is_space c = true) s /\
            Forall (fun c => is_space c = true) [].
Proof.
  exact (fuzzy_search_is_skipped_iff_blank (stateless catalogue) logged_in
           eq_refl (Some (lit " ")) [] 0 tt).
Defined.

Lemma missing_title_is_searched_as_None_witness :
  snd (fst (tidal_search_track_fuzzy (stateless catalogue) logged_in None
              (lit "Artist ") 1000 tt)) =
  [Http (SearchTracks (lit "None Artist") 20) (found [])].
Proof.
  exact (missing_title_is_searched_as_None (stateless catalogue) logged_in
           eq_refl (lit "Artist ") 1000 tt).
Defined.


Lemma failed_isrc_search_is_not_retried_by_text_witness :
  resolve_track (scripted (plain 200)) logged_in track_a [plain 500] =
    (Raise (RuntimeError
              (ApiStatus (SearchTracks (lit "isrc:" ++ lit "USAAA0000001") 5)
                         500)),
     [Http (SearchTracks (lit "isrc:" ++ lit "USAAA0000001") 5) (plain 500)],
     []) /\
  resolve_tracks (scripted (plain 200)) logged_in (lit "Mixed")
    (track_a :: [track_b]) [] [] [plain 500] =
    (Raise (RuntimeError
              (ApiStatus (SearchTracks (lit "isrc:" ++ lit "USAAA0000001") 5)
                         500)),
     [Http (SearchTracks (lit "isrc:" ++ lit "USAAA0000001") 5) (plain 500)],
     []).
Proof.
  exact (failed_isrc_search_is_not_retried_by_text (scripted (plain 200))
           logged_in eq_refl track_a (lit "USAAA0000001") [plain 500]
           (plain 500) [] (lit "Mixed") [track_b] [] []
           eq_refl ltac:(discriminate) eq_refl ltac:(discriminate)).
Defined.

Lemma every_track_is_resolved_or_recorded_witness :
  exists new_ids new_rows,
    [11; 22] = [] ++ new_ids /\
    [not_found_row (lit "Mixed") track_c] = [] ++ new_rows /\
    (List.length new_ids + List.length new_rows)%nat = 3%nat /\
    ~ In 0 new_ids /\
    Forall (fun row => exists t, In t [track_a; track_b; track_c] /\
                                 row = not_found_row (lit "Mixed") t)
           new_rows.
Proof.
  apply (every_track_is_resolved_or_recorded (stateless catalogue) logged_in
           (lit "Mixed") [track_a; track_b; track_c] [] [] tt
           [11; 22] [not_found_row (lit "Mixed") track_c]
           (snd (fst (resolve_tracks (stateless catalogue) logged_in
                        (lit "Mixed") [track_a; track_b; track_c] [] [] tt)))
           tt).
  vm_compute. reflexivity.
Defined.

Lemma non_positive_batch_writes_nothing_witness :
  tidal_add_tracks_in_batches (stateless catalogue) logged_in (lit "pl-1")
    [11; 22] (-1) 300 tt = (Return tt, [], tt).
Proof.
  apply (non_positive_batch_writes_nothing (stateless catalogue) logged_in
           (lit "pl-1") [11; 22] (-1) 300 tt).
  discriminate.
Defined.

Lemma writer_requests_are_bounded_witness :
  let tr := snd (fst (tidal_add_tracks_in_batches (stateless catalogue)
                        logged_in (lit "pl-1") [1; 2; 3; 4; 5] 2 300 tt)) in
  (http_count tr <= 4 * 3)%nat /\
  (List.length (posted tr) <= 2 * 3)%nat.
Proof.
  exact (writer_requests_are_bounded (stateless catalogue) logged_in
           (lit "pl-1") [1; 2; 3; 4; 5] 2 300 tt eq_refl).
Defined.

(** The first of two batches is taken: the pause follows. *)
Lemma every_write_is_followed_by_its_pause_witness :
  exists rest,
    [Sleep 300; Http (GetItems (lit "pl-1")) (with_etag "v1");
     Http (PostItems (lit "pl-1") [3] (lit "v1")) (plain 200); Sleep 300] =
    Sleep 300 :: rest.
Proof.
  refine (proj1 (every_write_is_followed_by_its_pause (stateless catalogue)
                   logged_in (lit "pl-1") [1; 2; 3] 2 300 tt
                   [Http (GetItems (lit "pl-1")) (with_etag "v1")]
                   (lit "pl-1") [1; 2] (lit "v1") (plain 200)
                   [Sleep 300; Http (GetItems (lit "pl-1")) (with_etag "v1");
                    Http (PostItems (lit "pl-1") [3] (lit "v1")) (plain 200);
                    Sleep 300] _) _).
  - vm_compute. reflexivity.
  - reflexivity.
Defined.

Lemma unresolved_playlist_is_created_empty_witness :
  created (snd (fst (migrate_playlist (stateless catalogue) logged_in 100
                       unknown [] tt))) =
    [firstn 255 (pl_name unknown)] /\
  Forall no_item_request
    (snd (fst (migrate_playlist (stateless catalogue) logged_in 100
                 unknown [] tt))).
Proof.
  apply (unresolved_playlist_is_created_empty (stateless catalogue) logged_in
           100 unknown [] tt [not_found_row (lit "Unknown") track_c]
           (snd (fst (migrate_playlist (stateless catalogue) logged_in 100
                        unknown [] tt)))
           tt).
  - vm_compute. reflexivity.
  - reflexivity.
Defined.

Lemma items_without_track_are_skipped_witness :
  exists ds,
    [track_c; {| Track.name := Some (lit "One"); Track.album := None;
                 Track.artists := lit "A, B"; Track.duration_ms := 0;
                 Track.isrc := None |}] = [track_c] ++ ds /\
    Forall2 (fun tr d => track_dict tr = Read d)
            (item_tracks [no_track; item_of "One" ["A"; "B"]%string; no_track]) ds /\
    (List.length ds <= 3)%nat.
Proof.
  apply (items_without_track_are_skipped
           [no_track; item_of "One" ["A"; "B"]%string; no_track] [track_c]).
  reflexivity.
Defined.

Lemma playlist_is_read_page_by_page_witness :
  sp_playlist_tracks three_pages 5 (lit "1") =
  read_items
    (flat_map (fun j => page_items (three_pages (lit "1")
                                      (100 * Z.of_nat j) 100))
              (seq 0 3))
    [].
Proof.
  apply (playlist_is_read_page_by_page three_pages (lit "1") 2 5).
  - intros [|[|j]] Hj; [reflexivity|reflexivity|lia].
  - reflexivity.
  - lia.
Defined.

Lemma pages_are_collected_in_order_witness :
  sp_paginate 5 two_pages 50 = Read (flat_map two_pages_data (seq 0 2)).
Proof.
  refine (proj1 (pages_are_collected_in_order two_pages 50 two_pages_data
                   1 5 _ _) _ _).
  - intros [|j] Hj; [split; reflexivity|lia].
  - lia.
  - reflexivity.
  - reflexivity.
Defined.

(** The filter "Rock", with its capital, finds nothing among names in
    lower case. *)
Lemma filter_never_selects_witness :
  filter_playlists ascii_lower (lit "Rock") my_playlists = [].
Proof.
  refine (proj1 (filter_never_selects ascii_lower (lit "Rock") my_playlists
                   ascii_lower_has_no_capital eq_refl) 82%N _ _).
  - left. reflexivity.
  - split; [apply N.leb_le | apply N.leb_le]; reflexivity.
Defined.

Lemma track_without_isrc_is_searched_by_text_witness :
  exists t,
    track_dict (sp_track_of "One" ["A"; "B"]%string) = Read t /\
    resolve_track (stateless catalogue) logged_in t tt =
    (let '(r, tr', w') :=
       tidal_search_track_fuzzy (stateless catalogue) logged_in
         (Some (lit "One")) (join (lit ", ") [lit "A"; lit "B"]) 0 tt in
     (match r with
      | Return hit =>
          Return (match hit with Some h => c_id h | None => None end)
      | Raise x => Raise x
      end, tr', w')).
Proof.
  exact (track_without_isrc_is_searched_by_text (stateless catalogue)
           logged_in (sp_track_of "One" ["A"; "B"]%string) [lit "A"; lit "B"] tt
           eq_refl eq_refl).
Defined.
